(** * Hereditas build pipeline (cli/lib/Builder.js): a shallow embedding

    The development follows the source file top-down in reverse dependency
    order: byte and text encodings used by [Buffer.toString], the path
    filter [includePath], the content scanner, the stream cipher
    [_encryptStream], the content encryption loop, the index builder and
    the orchestrating [build] method. *)

From Stdlib Require Import Strings.String Strings.Ascii Strings.Byte.
From Stdlib Require Import NArith ZArith Lia DecimalString DecimalN DecimalPos.
From stdpp Require Import base gmap strings list fin_maps.

Set Warnings "-register-all".

Local Open Scope string_scope.
Local Open Scope list_scope.

(** ** Bytes and the [Buffer.toString] encodings *)

Abbreviation bytes := (list byte).

Module Encoding.

(** One hexadecimal digit, lower case as Node prints it. *)
Definition hex_digit (n : N) : ascii :=
  match n with
  | 0 => "0" | 1 => "1" | 2 => "2" | 3 => "3" | 4 => "4" | 5 => "5"
  | 6 => "6" | 7 => "7" | 8 => "8" | 9 => "9" | 10 => "a" | 11 => "b"
  | 12 => "c" | 13 => "d" | 14 => "e" | _ => "f"
  end%N%char.

Definition hex_byte (b : byte) : list ascii :=
  let n := Byte.to_N b in [hex_digit (n / 16); hex_digit (n mod 16)].

(** [buf.toString('hex')] *)
Definition hex (b : bytes) : string :=
  string_of_list_ascii (concat (map hex_byte b)).

Definition unhex_digit (c : ascii) : option N :=
  let n := N_of_ascii c in
  if ((48 <=? n) && (n <=? 57))%N then Some (n - 48)%N
  else if ((97 <=? n) && (n <=? 102))%N then Some (n - 87)%N
  else None.

(** Inverse of [hex], used to show that the encoding loses nothing. *)
Fixpoint unhex_chars (l : list ascii) : option bytes :=
  match l with
  | [] => Some []
  | hi :: lo :: rest =>
      match unhex_digit hi, unhex_digit lo, unhex_chars rest with
      | Some h, Some l, Some r =>
          match Byte.of_N (16 * h + l) with
          | Some b => Some (b :: r)
          | None => None
          end
      | _, _, _ => None
      end
  | _ => None
  end.

Definition unhex (s : string) : option bytes :=
  unhex_chars (list_ascii_of_string s).

(** The base64 alphabet of RFC 4648, section 4. *)
Definition b64_digit (n : N) : ascii :=
  if (n <? 26)%N then ascii_of_N (65 + n)
  else if (n <? 52)%N then ascii_of_N (97 + (n - 26))
  else if (n <? 62)%N then ascii_of_N (48 + (n - 52))
  else if (n =? 62)%N then "+"%char
  else "/"%char.

Fixpoint b64_chars (l : bytes) : list ascii :=
  match l with
  | [] => []
  | [a] =>
      let x := Byte.to_N a in
      [b64_digit (x / 4); b64_digit ((x mod 4) * 16); "="; "="]%char
  | [a; b] =>
      let x := Byte.to_N a in
      let y := Byte.to_N b in
      [b64_digit (x / 4); b64_digit ((x mod 4) * 16 + y / 16);
       b64_digit ((y mod 16) * 4); "="]%char
  | a :: b :: c :: rest =>
      let x := Byte.to_N a in
      let y := Byte.to_N b in
      let z := Byte.to_N c in
      [b64_digit (x / 4); b64_digit ((x mod 4) * 16 + y / 16);
       b64_digit ((y mod 16) * 4 + z / 64); b64_digit (z mod 64)]
      ++ b64_chars rest
  end.

(** [buf.toString('base64')] *)
Definition base64 (b : bytes) : string := string_of_list_ascii (b64_chars b).

(** [Buffer.from(str, 'utf8')] on a string that is kept as its UTF-8
    code units. *)
Definition utf8 (s : string) : bytes := list_byte_of_string s.

End Encoding.

(** ** Path handling: [path.basename] and the filter [includePath] *)

Module Path.

Definition sep : ascii := "/"%char.

Definition is_sep (c : ascii) : bool := Ascii.eqb c sep.

Fixpoint drop_seps (l : list ascii) : list ascii :=
  match l with
  | c :: r => if is_sep c then drop_seps r else l
  | [] => []
  end.

Fixpoint until_sep (l : list ascii) : list ascii :=
  match l with
  | c :: r => if is_sep c then [] else c :: until_sep r
  | [] => []
  end.

(** Node's POSIX [path.basename(p)]: scanning from the end, trailing
    separators are skipped and the component before them, back to the
    previous separator, is returned. *)
Definition basename (p : string) : string :=
  string_of_list_ascii
    (rev (until_sep (drop_seps (rev (list_ascii_of_string p))))).

(** [path.join(dir, name)] is only used to name a file inside the
    output directory; files are addressed by their name in there. *)

End Path.

(** [String.prototype.startsWith] and [endsWith]. *)
Definition startsWith (s pre : string) : bool :=
  String.eqb (String.substring 0 (String.length pre) s) pre.

Definition endsWith (s suf : string) : bool :=
  let n := String.length s in
  let k := String.length suf in
  (k <=? n)%nat && String.eqb (String.substring (n - k) k s) suf.

(** Returns true if a path should be included in the box. *)
Definition includePath (str : string) : bool :=
  let base := Path.basename str in
  if endsWith base "~"
     || String.eqb base ".directory"
     || String.eqb base ".DS_Store"
     || String.eqb base ".AppleDouble"
     || String.eqb base ".LSOverride"
     || startsWith base "._"
     || String.eqb base "Thumbs.db"
     || String.eqb base "Thumbs.db:encryptable"
     || String.eqb base "desktop.ini"
     || String.eqb base "Desktop.ini"
  then false
  else true.


(** ** Errors and the outcome of an awaited call *)

(** A JavaScript [Error] is identified by its message. *)
Definition error := string.

(** What awaiting a call can give: a value, an exception (a rejected
    promise), or nothing at all when the promise never settles. *)
Inductive outcome (A : Type) : Type :=
| Done (a : A)
| Thrown (e : error)
| Hang.

Arguments Done {A} a.
Arguments Thrown {A} e.
Arguments Hang {A}.

(** ** The content file record (typedef HereditasContentFile) *)

Inductive Display := text | image | attach.

Definition display_name (d : Display) : string :=
  match d with text => "text" | image => "image" | attach => "attach" end.

Definition display_of_name (s : string) : option Display :=
  if String.eqb s "text" then Some text
  else if String.eqb s "image" then Some image
  else if String.eqb s "attach" then Some attach
  else None.

Module ContentFile.

(** A property that was never assigned is [None] ([undefined]). *)
Record t := mk {
  path : string;
  size : N;
  display : option Display;
  processed : option string;
  dist : option string;
  tag : option string
}.

(** The object literal [{path: el, size: stat.size}] of the scanner. *)
Definition scanned (p : string) (sz : N) : t :=
  mk p sz None None None None.

(** [el.dist = v] and [el.tag = v] *)
Definition set_dist (v : string) (r : t) : t :=
  mk (path r) (size r) (display r) (processed r) (Some v) (tag r).

Definition set_tag (v : string) (r : t) : t :=
  mk (path r) (size r) (display r) (processed r) (dist r) (Some v).

End ContentFile.

(** ** JSON values, [JSON.stringify] and [JSON.parse] on content lists *)

Module JSON.

Inductive value :=
| Num (n : N)
| Str (s : string)
| Obj (fields : list (string * value))
| Arr (items : list value).

Definition opt_field (k : string) (v : option string) : list (string * value) :=
  match v with Some s => [(k, Str s)] | None => [] end.

(** The JSON object of a record: own properties that are [undefined] are
    left out, as [JSON.stringify] does. *)
Definition of_record (r : ContentFile.t) : value :=
  Obj ([("path", Str (ContentFile.path r)); ("size", Num (ContentFile.size r))]
       ++ opt_field "display" (display_name <$> ContentFile.display r)
       ++ opt_field "processed" (ContentFile.processed r)
       ++ opt_field "dist" (ContentFile.dist r)
       ++ opt_field "tag" (ContentFile.tag r)).

Definition of_content (l : list ContentFile.t) : value :=
  Arr (map of_record l).

Fixpoint field (k : string) (fs : list (string * value)) : option value :=
  match fs with
  | [] => None
  | (k', v) :: rest => if String.eqb k k' then Some v else field k rest
  end.

Definition str_field (k : string) (fs : list (string * value)) : option string :=
  match field k fs with Some (Str s) => Some s | _ => None end.

(** Reading a record back from its JSON object. *)
Definition to_record (v : value) : option ContentFile.t :=
  match v with
  | Obj fs =>
      match field "path" fs, field "size" fs with
      | Some (Str p), Some (Num n) =>
          Some (ContentFile.mk p n
                  (str_field "display" fs ≫= display_of_name)
                  (str_field "processed" fs)
                  (str_field "dist" fs)
                  (str_field "tag" fs))
      | _, _ => None
      end
  | _ => None
  end.

Fixpoint to_records (l : list value) : option (list ContentFile.t) :=
  match l with
  | [] => Some []
  | v :: rest =>
      match to_record v, to_records rest with
      | Some r, Some rs => Some (r :: rs)
      | _, _ => None
      end
  end.

Definition to_content (v : value) : option (list ContentFile.t) :=
  match v with Arr items => to_records items | _ => None end.

(** The quotation mark, character 34. *)
Definition dquote : ascii := ascii_of_nat 34.

(** Text form. A string is quoted as [JSON.stringify] does it: the
    quotation mark and the backslash are escaped, backspace, tab, line
    feed, form feed and carriage return have their short escapes, and any
    other control character is written [\u00XX]. *)
Definition escape_char (c : ascii) : list ascii :=
  let n := N_of_ascii c in
  if Ascii.eqb c dquote then ["\"%char; dquote]
  else if Ascii.eqb c "\"%char then ["\"; "\"]%char
  else if (n =? 8)%N then ["\"; "b"]%char
  else if (n =? 9)%N then ["\"; "t"]%char
  else if (n =? 10)%N then ["\"; "n"]%char
  else if (n =? 12)%N then ["\"; "f"]%char
  else if (n =? 13)%N then ["\"; "r"]%char
  else if (n <? 32)%N then
    ["\"; "u"; "0"; "0"; Encoding.hex_digit (n / 16); Encoding.hex_digit (n mod 16)]%char
  else [c].

Definition quote (s : string) : string :=
  String dquote
    (string_of_list_ascii (concat (map escape_char (list_ascii_of_string s)))
     +:+ String dquote EmptyString).

Definition number (n : N) : string :=
  NilZero.string_of_uint (N.to_uint n).

Fixpoint join (sep : string) (l : list string) : string :=
  match l with
  | [] => ""
  | [s] => s
  | s :: rest => s +:+ sep +:+ join sep rest
  end.

Fixpoint print (v : value) : string :=
  match v with
  | Num n => number n
  | Str s => quote s
  | Obj fs =>
      "{" +:+ join "," (map (fun kv => quote (fst kv) +:+ ":" +:+ print (snd kv)) fs) +:+ "}"
  | Arr items => "[" +:+ join "," (map print items) +:+ "]"
  end.

(** [JSON.stringify(content)] for a list of content records. *)
Definition stringify (l : list ContentFile.t) : string := print (of_content l).

End JSON.

(** ** The cryptographic libraries *)

Inductive ArgonType := Argon2d | Argon2i | Argon2id.

(** The options object handed to [argon2.hash]. *)
Record Argon2Options := {
  pass : string;
  salt : bytes;
  type : ArgonType;
  time : N;
  mem : N;
  hashLen : nat;
  parallelism : N
}.

(** Node's [crypto] module and [argon2-browser], as far as the builder
    calls them: [crypto.pbkdf2(password, salt, iterations, keylen, digest)],
    [argon2.hash(options)], and the cipher object of
    [crypto.createCipheriv(algorithm, key, iv)] used as a stream transform
    ([update] is what the transform does with one chunk). *)
Class Crypto := {
  pbkdf2 : string -> bytes -> N -> nat -> string -> bytes;
  argon2_hash : Argon2Options -> bytes;
  cipher : Type;
  createCipheriv : string -> bytes -> bytes -> cipher;
  update : cipher -> bytes -> cipher * bytes;
  getAuthTag : cipher -> bytes
}.

(** What the libraries document about output lengths: a KDF gives the
    requested number of bytes, and a cipher in a counter mode (GCM) gives
    as many ciphertext bytes as it was fed. *)
Class CryptoLengths (C : Crypto) : Prop := {
  pbkdf2_length : forall p s i n d, length (pbkdf2 p s i n d) = n;
  argon2_length : forall o, length (argon2_hash o) = hashLen o;
  update_length : forall c d, length (snd (update c d)) = length d
}.

(** Modelled from the spec: the key-wrap module lib/aes-kw ([kw.encrypt],
    AES-KW of RFC 3394) is not part of the sources at hand. The spec gives
    it as a deterministic key-wrap construction that needs no nonce and
    produces an output 8 bytes longer than the input key. *)
Class KeyWrap := {
  kw_encrypt : bytes -> bytes -> bytes;
  kw_length : forall masterKey key, length (kw_encrypt masterKey key) = length key + 8
}.

(** ** Streams *)

(** A readable stream, seen from its consumer: the chunks it delivers and
    how it finishes, with ['end'] ([None]) or with ['error']. *)
Record Readable := {
  chunks : list bytes;
  failure : option error
}.

(** Everything that was pushed into the stream, as one byte string. *)
Definition content_of (s : Readable) : bytes := concat (chunks s).

(** The events that drive one encryption: what the input stream emits and
    an ['error'] of the output stream. *)
Inductive event :=
| InData (chunk : bytes)
| InEnd
| InError (e : error)
| OutError (e : error).

Definition in_events (s : Readable) : list event :=
  map InData (chunks s)
  ++ [match failure s with None => InEnd | Some e => InError e end].

(** The output stream fails after [k] events of the input stream have been
    handled; errors of a writable stream are emitted asynchronously, so [k]
    can be any position, including one after the input has ended. *)
Definition schedule (s : Readable) (fault : option (nat * error)) : list event :=
  match fault with
  | None => in_events s
  | Some (k, e) => take k (in_events s) ++ OutError e :: drop k (in_events s)
  end.

(** State of a promise; [resolve] and [reject] only act on a pending one. *)
Inductive promise :=
| Pending
| Resolved (v : bytes)
| Rejected (e : error).

Definition resolve (v : bytes) (p : promise) : promise :=
  match p with Pending => Resolved v | _ => p end.

Definition reject (e : error) (p : promise) : promise :=
  match p with Pending => Rejected e | _ => p end.

Definition await (p : promise) : outcome bytes :=
  match p with
  | Pending => Hang
  | Resolved v => Done v
  | Rejected e => Thrown e
  end.

(** ** Configuration, file system and the other collaborators *)

(** The keys of the project configuration that the builder reads with
    [config.get]. *)
Record Config := {
  distDir : string;
  contentDir : string;
  appToken : string;
  kdf : string;
  pbkdf2_iterations : N;
  argon2_memory : N;
  auth0_domain : string;
  auth0_hereditasClientId : string
}.

(** An entry below the content directory as [fs.stat] and [fs.readdir] show
    it: a file with its size, a directory with its listing in the order
    [readdir] returns it, or a directory whose listing fails. *)
Inductive entry :=
| File (size : N)
| Dir (list : list (string * entry))
| Unreadable (e : error).

(** A value held by a field of the builder object. *)
Inductive value :=
| VNull
| VBuffer (b : bytes)
| VString (s : string).

(** The parameters handed to the webpack configuration, and what the
    compilation reports back. *)
Record AppParams := {
  app_distDir : string;
  authIssuer : string;
  authClientId : string;
  idTokenNamespace : string;
  app_indexTag : value;
  app_keySalt : value;
  app_kdf : string;
  pbkdf2Iterations : N;
  argon2Memory : N
}.

Record Stats := {
  errors : list string;
  warnings : list string
}.

(** The world outside the builder: the bytes [crypto.randomBytes] hands
    out, the content directory, failures of the output directory, and the
    webpack run. *)
Class Host := {
  random : nat -> byte;
  contentRoot : entry;
  cleanFault : option error;
  outFault : string -> option (nat * error);
  webpack : AppParams -> outcome Stats
}.

(** Modelled from the spec: the pre-processing class lib/Content is not
    part of the sources at hand. The spec gives it as an opaque transform
    that is handed one content file and produces one byte stream plus
    metadata updates (it may set [processed] and [display]), with no further
    contract. [process] gives the updated record and the stream, or fails. *)
Class ContentLib := {
  process : Config -> ContentFile.t -> outcome (ContentFile.t * Readable)
}.

(** ** The store: objects, the output directory, the builder's fields *)

Definition loc := positive.

Inductive object :=
| ORecord (r : ContentFile.t)
| OArray (items : list loc).

(** The fields set in the constructor and assigned during [build]. *)
Record Builder := {
  keySalt : value;
  indexTag : value;
  hasErrors : bool
}.

(** The state a build works on: the objects, the output directory, the
    position in the random source and the builder itself. [output] keeps,
    for each file that was opened for writing, the bytes handed to its
    write stream so far; they are the content of the file when that stream
    does not fail. *)
Record world := {
  heap : gmap loc object;
  output : gmap string bytes;
  drawn : nat;
  this : Builder
}.

Definition with_heap (h : gmap loc object) (w : world) : world :=
  {| heap := h; output := output w; drawn := drawn w; this := this w |}.

Definition with_output (o : gmap string bytes) (w : world) : world :=
  {| heap := heap w; output := o; drawn := drawn w; this := this w |}.

Definition with_drawn (n : nat) (w : world) : world :=
  {| heap := heap w; output := output w; drawn := n; this := this w |}.

Definition with_this (b : Builder) (w : world) : world :=
  {| heap := heap w; output := output w; drawn := drawn w; this := b |}.

(** A freshly constructed builder in an environment with no objects yet. *)
Definition new_Builder (out : gmap string bytes) : world :=
  {| heap := ∅; output := out; drawn := 0;
     this := {| keySalt := VNull; indexTag := VNull; hasErrors := false |} |}.

(** ** Asynchronous code as a state and exception monad *)

Definition M (A : Type) : Type := world -> world * outcome A.

Definition ret {A} (a : A) : M A := fun w => (w, Done a).

Definition throw {A} (e : error) : M A := fun w => (w, Thrown e).

Definition bind {A B} (m : M A) (k : A -> M B) : M B :=
  fun w =>
    match m w with
    | (w', Done a) => k a w'
    | (w', Thrown e) => (w', Thrown e)
    | (w', Hang) => (w', Hang)
    end.

Definition lift {A} (o : outcome A) : M A := fun w => (w, o).

Notation "x <- m ;; k" := (bind m (fun x => k))
  (at level 100, m at next level, right associativity).
Notation "m ;; k" := (bind m (fun _ => k))
  (at level 100, right associativity).

(** [for (const i in xs) { await body(i) }] *)
Fixpoint for_each {A} (xs : list A) (body : A -> M unit) : M unit :=
  match xs with
  | [] => ret tt
  | x :: rest => body x ;; for_each rest body
  end.

(** Objects. *)
Definition alloc (o : object) : M loc :=
  fun w =>
    let l := fresh (dom (heap w)) in
    (with_heap (<[l := o]> (heap w)) w, Done l).

Definition load (l : loc) : M object :=
  fun w =>
    match heap w !! l with
    | Some o => (w, Done o)
    | None => (w, Thrown "TypeError: cannot read properties of undefined")
    end.

Definition store (l : loc) (o : object) : M unit :=
  fun w => (with_heap (<[l := o]> (heap w)) w, Done tt).

Definition get_record (l : loc) : M ContentFile.t :=
  o <- load l ;;
  match o with
  | ORecord r => ret r
  | OArray _ => throw "TypeError: not a content file"
  end.

Definition get_items (a : loc) : M (list loc) :=
  o <- load a ;;
  match o with
  | OArray ls => ret ls
  | ORecord _ => throw "TypeError: not an array"
  end.

(** [a[i]] and [a[i] = l] for an index inside the array. *)
Definition array_get (a : loc) (i : nat) : M loc :=
  ls <- get_items a ;;
  match ls !! i with
  | Some l => ret l
  | None => throw "TypeError: cannot read properties of undefined"
  end.

Definition array_set (a : loc) (i : nat) (l : loc) : M unit :=
  ls <- get_items a ;;
  store a (OArray (<[i := l]> ls)).

Fixpoint alloc_records (rs : list ContentFile.t) : M (list loc) :=
  match rs with
  | [] => ret []
  | r :: rest =>
      l <- alloc (ORecord r) ;;
      ls <- alloc_records rest ;;
      ret (l :: ls)
  end.

(** A new array holding new objects with the given properties. *)
Definition new_content (rs : list ContentFile.t) : M loc :=
  ls <- alloc_records rs ;;
  alloc (OArray ls).

Fixpoint get_records (ls : list loc) : M (list ContentFile.t) :=
  match ls with
  | [] => ret []
  | l :: rest =>
      r <- get_record l ;;
      rs <- get_records rest ;;
      ret (r :: rs)
  end.

(** The records an array of content files holds, in array order. *)
Definition read_content (a : loc) : M (list ContentFile.t) :=
  ls <- get_items a ;;
  get_records ls.

(** The same without the monad, for stating what a store holds. *)
Definition record_at (h : gmap loc object) (l : loc) : option ContentFile.t :=
  match h !! l with Some (ORecord r) => Some r | _ => None end.

Definition content_at (h : gmap loc object) (a : loc) : option (list ContentFile.t) :=
  match h !! a with
  | Some (OArray ls) => mapM (record_at h) ls
  | _ => None
  end.

(** [JSON.parse(JSON.stringify(content))] *)
Definition JSON_clone (content : loc) : M loc :=
  rs <- read_content content ;;
  match JSON.to_content (JSON.of_content rs) with
  | Some rs' => new_content rs'
  | None => throw "SyntaxError"
  end.

(** ** The builder *)

Section Builder.

Context {C : Crypto} {KW : KeyWrap} {CL : ContentLib} {H : Host}.
Variable passphrase : string.
Variable config : Config.

(** The [n] bytes of the random source from position [pos] on. *)
Definition draw (pos n : nat) : bytes := map random (seq pos n).

(** [crypto.randomBytes(n)]: the next [n] bytes of the random source. *)
Definition randomBytes (n : nat) : M bytes :=
  fun w => (with_drawn (drawn w + n) w, Done (draw (drawn w) n)).

(** Modelled from the spec: [CleanDirectory] of lib/Utils is not part of
    the sources at hand. The spec gives the CLEAN step as: remove prior
    build output directory contents; a failed clean is a fatal file
    system error. *)
Definition CleanDirectory (dir : string) : M unit :=
  fun w =>
    match cleanFault with
    | Some e => (w, Thrown e)
    | None => (with_output ∅ w, Done tt)
    end.

(** [fs.createWriteStream(path.join(distDir, name))]: the file is created
    empty, or truncated if it exists. The stream is known by its name. *)
Definition createWriteStream (name : string) : M string :=
  fun w => (with_output (<[name := []]> (output w)) w, Done name).

(** *** [_encryptStream] *)

(** The objects wired together inside the promise: what the output stream
    has been given, the cipher, which pipes are still connected, and the
    promise itself. *)
Record pipeline := {
  written : bytes;
  enc : cipher;
  inOpen : bool;
  outOpen : bool;
  settled : promise
}.

(** The event handlers: [inStream.pipe(cipher).pipe(outStream)] moves each
    chunk through the cipher into the output; the cipher's ['end'] handler
    resolves with the tag; both ['error'] handlers reject. A failed
    output stream is unpiped and receives nothing more. *)
Definition handle (p : pipeline) (ev : event) : pipeline :=
  match ev with
  | InData chunk =>
      if inOpen p && outOpen p then
        let (c, o) := update (enc p) chunk in
        {| written := written p ++ o; enc := c; inOpen := true;
           outOpen := true; settled := settled p |}
      else p
  | InEnd =>
      if inOpen p then
        {| written := written p; enc := enc p; inOpen := false;
           outOpen := outOpen p;
           settled := if outOpen p then resolve (getAuthTag (enc p)) (settled p)
                      else settled p |}
      else p
  | InError e =>
      if inOpen p then
        {| written := written p; enc := enc p; inOpen := false;
           outOpen := outOpen p; settled := reject e (settled p) |}
      else p
  | OutError e =>
      {| written := written p; enc := enc p; inOpen := inOpen p;
         outOpen := false; settled := reject e (settled p) |}
  end.

(** The promise executor: header first, then the handlers are installed
    and the pipes started. *)
Definition start (wrappedKey fileKey fileIV : bytes) : pipeline :=
  {| written := wrappedKey ++ fileIV;
     enc := createCipheriv "aes-256-gcm" fileKey fileIV;
     inOpen := true; outOpen := true; settled := Pending |}.

Definition pump (wrappedKey fileKey fileIV : bytes) (evs : list event) : pipeline :=
  fold_left handle evs (start wrappedKey fileKey fileIV).

(** Encrypts a stream using aes-256-gcm; the result is the
    authentication tag. The call settles with the promise: the bytes
    recorded under the stream's name are what the output stream has been
    handed, whether or not it reported an error. *)
Definition _encryptStream (masterKey : bytes) (inStream : Readable)
    (outStream : string) : M bytes :=
  fileKey <- randomBytes 32 ;;
  fileIV <- randomBytes 12 ;;
  let wrappedKey := kw_encrypt masterKey fileKey in
  fun w =>
    let p := pump wrappedKey fileKey fileIV
               (schedule inStream (outFault outStream)) in
    (with_output (<[outStream := written p]> (output w)) w, await (settled p)).

(** *** [_scanContent] *)

(** The loop of [scanFolder] over one directory listing; [scan] is the
    recursive call and [result] the list being built. *)
Definition scanList
    (scan : string -> entry -> list ContentFile.t -> outcome (list ContentFile.t))
    (folder : string) :=
  fix each (l : list (string * entry)) (result : list ContentFile.t)
    {struct l} : outcome (list ContentFile.t) :=
    match l with
    | [] => Done result
    | (name, child) :: rest =>
        let el := folder +:+ name in
        if negb (includePath el) then each rest result
        else
          match child with
          | File sz => each rest (result ++ [ContentFile.scanned el sz])
          | _ =>
              match scan (el +:+ "/") child result with
              | Done result' => each rest result'
              | Thrown e => Thrown e
              | Hang => Hang
              end
          end
    end.

(** The recursive [scanFolder]: [readdir] gives the listing of a directory
    and fails on anything else; then the loop runs over the listing. *)
Fixpoint scanFolder (folder : string) (d : entry) (result : list ContentFile.t)
    {struct d} : outcome (list ContentFile.t) :=
  match d with
  | Dir l => scanList scanFolder folder l result
  | Unreadable e => Thrown e
  | File _ => Thrown "ENOTDIR: not a directory, scandir"
  end.

(** Recursively scans the content directory, listing files. *)
Definition _scanContent : M loc :=
  result <- lift (scanFolder "" contentRoot []) ;;
  new_content result.

(** *** [_deriveKey] *)

(** Derives a 256 bit key from the passphrase and the salt. *)
Definition _deriveKey (pass : string) (salt : bytes) : M bytes :=
  let kdf := kdf config in
  if String.eqb kdf "pbkdf2" then
    ret (pbkdf2 pass salt (pbkdf2_iterations config) 32 "sha512")
  else if String.eqb kdf "argon2" then
    ret (argon2_hash {| pass := pass; salt := salt; type := Argon2id;
                        time := 1; mem := argon2_memory config;
                        hashLen := 32; parallelism := 1 |})
  else throw "Invalid key derivation function requested".

(** *** [_encryptContent] *)

(** [new Content(el, config)] followed by [await content.process()]: the
    element is updated where it is, and the stream to encrypt is ready. *)
Definition Content_process (el : loc) : M (loc * Readable) :=
  r <- get_record el ;;
  x <- lift (process config r) ;;
  store el (ORecord (fst x)) ;;
  ret (el, snd x).

Definition set_property (f : ContentFile.t -> ContentFile.t) (el : loc) : M unit :=
  r <- get_record el ;;
  store el (ORecord (f r)).

(** The body of the loop over [result]. *)
Definition encryptItem (masterKey : bytes) (result : loc) (i : nat) : M unit :=
  rnd <- randomBytes 12 ;;
  let dist := Encoding.hex rnd in
  outStream <- createWriteStream dist ;;
  el <- array_get result i ;;
  content <- Content_process el ;;
  array_set result i (fst content) ;;
  tagBuf <- _encryptStream masterKey (snd content) outStream ;;
  let tag := Encoding.base64 tagBuf in
  el1 <- array_get result i ;;
  set_property (ContentFile.set_dist dist) el1 ;;
  el2 <- array_get result i ;;
  set_property (ContentFile.set_tag tag) el2.

(** Encrypts all the content. *)
Definition _encryptContent (masterKey : bytes) (content : loc) : M loc :=
  result <- JSON_clone content ;;
  items <- get_items result ;;
  for_each (seq 0 (length items)) (encryptItem masterKey result) ;;
  ret result.

(** *** [_createIndex] *)

(** The plaintext of the index for the content list at [content]. *)
Definition indexData (content : loc) : M string :=
  rs <- read_content content ;;
  ret (JSON.stringify rs).

(** Creates an index file and encrypts it on disk. *)
Definition _createIndex (masterKey : bytes) (content : loc) : M bytes :=
  data <- indexData content ;;
  let inStream := {| chunks := [Encoding.utf8 data]; failure := None |} in
  outStream <- createWriteStream "_index" ;;
  _encryptStream masterKey inStream outStream.

(** *** [build] *)

Definition set_keySalt (v : value) : M unit :=
  fun w => (with_this {| keySalt := v; indexTag := indexTag (this w);
                         hasErrors := hasErrors (this w) |} w, Done tt).

Definition set_indexTag (v : value) : M unit :=
  fun w => (with_this {| keySalt := keySalt (this w); indexTag := v;
                         hasErrors := hasErrors (this w) |} w, Done tt).

Definition set_hasErrors (b : bool) : M unit :=
  fun w => (with_this {| keySalt := keySalt (this w); indexTag := indexTag (this w);
                         hasErrors := b |} w, Done tt).

Definition appParams (w : world) : AppParams :=
  {| app_distDir := distDir config;
     authIssuer := "https://" +:+ auth0_domain config;
     authClientId := auth0_hereditasClientId config;
     idTokenNamespace := "https://hereditas.app";
     app_indexTag := indexTag (this w);
     app_keySalt := keySalt (this w);
     app_kdf := kdf config;
     pbkdf2Iterations := pbkdf2_iterations config;
     argon2Memory := argon2_memory config |}.

(** Step 7: build the app with webpack; errors only raise the flag. *)
Definition bundle : M unit :=
  stats <- (fun w => (w, webpack (appParams w))) ;;
  match errors stats with
  | [] => ret tt
  | _ :: _ => set_hasErrors true
  end.

(** Steps 1 to 4: clean, scan, salt, master key. *)
Definition prepare : M (loc * bytes) :=
  CleanDirectory (distDir config) ;;
  content <- _scanContent ;;
  salt <- randomBytes 64 ;;
  set_keySalt (VBuffer salt) ;;
  masterKey <- _deriveKey (passphrase +:+ appToken config) salt ;;
  ret (content, masterKey).

(** Steps 5 to 7: encrypt the files, write the index, bundle the app. *)
Definition finish (content : loc) (masterKey : bytes) : M unit :=
  content <- _encryptContent masterKey content ;;
  tag <- _createIndex masterKey content ;;
  set_indexTag (VBuffer tag) ;;
  bundle.

(** Performs a full build. *)
Definition build : M unit :=
  CleanDirectory (distDir config) ;;
  content <- _scanContent ;;
  salt <- randomBytes 64 ;;
  set_keySalt (VBuffer salt) ;;
  masterKey <- _deriveKey (passphrase +:+ appToken config) salt ;;
  content <- _encryptContent masterKey content ;;
  tag <- _createIndex masterKey content ;;
  set_indexTag (VBuffer tag) ;;
  bundle.

End Builder.

(** ** A small concrete environment

    Stand-ins with the right shapes for the libraries and the host, used to
    run the builder on examples. *)

Module Sample.

Definition byte_of_nat (n : nat) : byte :=
  match Byte.of_nat (n mod 256) with Some b => b | None => x00%byte end.

(** A transform that keeps lengths, with a tag that depends on what it was
    fed. *)
Definition crypto : Crypto := {|
  pbkdf2 := fun p s i n d => repeat x2a%byte n;
  argon2_hash := fun o => repeat x07%byte (hashLen o);
  cipher := nat;
  createCipheriv := fun alg key iv => 0;
  update := fun c d => (c + length d, map (fun b => byte_of_nat (S (Byte.to_nat b))) d);
  getAuthTag := fun c => repeat (byte_of_nat c) 16
|}.

Definition keywrap : KeyWrap := {|
  kw_encrypt := fun masterKey key => repeat xa6%byte 8 ++ key;
  kw_length := fun masterKey key =>
    eq_trans (length_app (repeat xa6%byte 8) key) (Nat.add_comm 8 (length key))
|}.

(** Two files, one of them in a folder, and one entry the filter drops. *)
Definition tree : entry :=
  Dir [("a.txt", File 5);
       (".DS_Store", File 1);
       ("sub", Dir [("b.txt", File 3)])].

Definition file_bytes (p : string) : bytes :=
  if String.eqb p "a.txt" then Encoding.utf8 "hello"
  else if String.eqb p "sub/b.txt" then Encoding.utf8 "bye"
  else [].

Definition contentlib : ContentLib := {|
  process := fun cfg r =>
    Done (ContentFile.mk (ContentFile.path r) (ContentFile.size r) (Some attach)
            (ContentFile.processed r) (ContentFile.dist r) (ContentFile.tag r),
          {| chunks := [file_bytes (ContentFile.path r)]; failure := None |})
|}.

(** Random bytes that count upwards. *)
Definition host : Host := {|
  random := byte_of_nat;
  contentRoot := tree;
  cleanFault := None;
  outFault := fun _ => None;
  webpack := fun _ => Done {| errors := []; warnings := [] |}
|}.

(** The same host with a random source that always gives zero. *)
Definition stuck_host : Host := {|
  random := fun _ => x00%byte;
  contentRoot := tree;
  cleanFault := None;
  outFault := fun _ => None;
  webpack := fun _ => Done {| errors := []; warnings := [] |}
|}.

(** The same host with an output directory on a full disk: every output
    stream fails after [k] events of its input. *)
Definition full_disk (k : nat) : Host := {|
  random := byte_of_nat;
  contentRoot := tree;
  cleanFault := None;
  outFault := fun _ => Some (k, "ENOSPC: no space left on device");
  webpack := fun _ => Done {| errors := []; warnings := [] |}
|}.

Definition config (kdf : string) : Config := {|
  distDir := "dist";
  contentDir := "content";
  appToken := "token";
  kdf := kdf;
  pbkdf2_iterations := 100000;
  argon2_memory := 65536;
  auth0_domain := "example.auth0.com";
  auth0_hereditasClientId := "client"
|}.

(** An output directory that still holds a file of an earlier build. *)
Definition stale : gmap string bytes := {[ "old" := [x01%byte] ]}.

End Sample.

(** ** Descriptions used to state the properties *)

(** The deny-list in words: the exact names, the backup suffix and the
    resource-fork prefix. *)
Definition deny_names : list string :=
  [".DS_Store"; "Thumbs.db"; "Thumbs.db:encryptable"; "desktop.ini";
   "Desktop.ini"; ".directory"; ".AppleDouble"; ".LSOverride"].

Definition denied (base : string) : Prop :=
  In base deny_names
  \/ (exists s, base = s +:+ "~")
  \/ (exists s, base = "._" +:+ s).

(** The ciphertext of a sequence of chunks and the cipher after them. *)
Fixpoint encrypt_chunks `{Crypto} (c : cipher) (l : list bytes) : cipher * bytes :=
  match l with
  | [] => (c, [])
  | d :: rest =>
      let (c1, o) := update c d in
      let (c2, os) := encrypt_chunks c1 rest in
      (c2, o ++ os)
  end.

(** The chunks that arrive before anything else happens, and the first
    event that is not a chunk. *)
Fixpoint leading_chunks (evs : list event) : list bytes :=
  match evs with
  | InData d :: rest => d :: leading_chunks rest
  | _ => []
  end.

Fixpoint first_signal (evs : list event) : option event :=
  match evs with
  | [] => None
  | InData _ :: rest => first_signal rest
  | ev :: _ => Some ev
  end.

(** A failure during the encryption: an ['error'] of either stream that
    arrives while the cipher has not ended yet. *)
Definition failure_during (evs : list event) : option error :=
  match first_signal evs with
  | Some (InError e) => Some e
  | Some (OutError e) => Some e
  | _ => None
  end.

(** The event with which an input stream finishes. *)
Definition closing (s : Readable) : event :=
  match failure s with None => InEnd | Some e => InError e end.

(** A pipeline in which nothing observable happens any more: the promise
    is settled and one of the pipes is gone. *)
Definition quiet `{Crypto} (p : pipeline) : Prop :=
  settled p <> Pending /\ inOpen p && outOpen p = false.

(** Depth-first traversal in listing order: every file that passes the
    filter, a directory that passes it replaced by the traversal of its
    listing, everything rejected by the filter left out. *)
Fixpoint walk (folder : string) (d : entry) : list ContentFile.t :=
  match d with
  | Dir l =>
      flat_map
        (fun ne =>
           let '(name, child) := ne in
           if includePath (folder +:+ name) then
             match child with
             | File sz => [ContentFile.scanned (folder +:+ name) sz]
             | sub => walk ((folder +:+ name) +:+ "/") sub
             end
           else [])
        l
  | _ => []
  end.

(** No directory on the way of the traversal fails to list. *)
Fixpoint listable (folder : string) (d : entry) : bool :=
  match d with
  | Dir l =>
      forallb
        (fun ne =>
           let '(name, child) := ne in
           if includePath (folder +:+ name) then
             match child with
             | File _ => true
             | sub => listable ((folder +:+ name) +:+ "/") sub
             end
           else true)
        l
  | _ => false
  end.

Section Description.

Context {C : Crypto} {KW : KeyWrap} {CL : ContentLib} {H : Host}.
Variable config : Config.

(** What one pass of the encryption loop makes of the record [r] when
    [pos] bytes of the random source have been used: the pre-processed
    record with its output name and its tag, or the failure of the
    pre-processing or of the stream. *)
Definition encrypted_record (masterKey : bytes) (pos : nat) (r : ContentFile.t)
    : outcome ContentFile.t :=
  let dist := Encoding.hex (draw pos 12) in
  match process config r with
  | Done (r1, inStream) =>
      let fileKey := draw (pos + 12) 32 in
      let fileIV := draw (pos + 12 + 32) 12 in
      match await (settled (pump (kw_encrypt masterKey fileKey) fileKey fileIV
                              (schedule inStream (outFault dist)))) with
      | Done tagBuf =>
          Done (ContentFile.set_tag (Encoding.base64 tagBuf)
                  (ContentFile.set_dist dist r1))
      | Thrown e => Thrown e
      | Hang => Hang
      end
  | Thrown e => Thrown e
  | Hang => Hang
  end.

(** The loop over a list of records, one after the other; each pass uses
    56 random bytes (name, file key, nonce). *)
Fixpoint encrypted_records (masterKey : bytes) (pos : nat) (rs : list ContentFile.t)
    : outcome (list ContentFile.t) :=
  match rs with
  | [] => Done []
  | r :: rest =>
      match encrypted_record masterKey pos r with
      | Done r1 =>
          match encrypted_records masterKey (pos + 56) rest with
          | Done rs1 => Done (r1 :: rs1)
          | Thrown e => Thrown e
          | Hang => Hang
          end
      | Thrown e => Thrown e
      | Hang => Hang
      end
  end.

(** A record as the encryption stage leaves it: pre-processed, then given
    an output name and a tag. *)
Definition enriched (r r' : ContentFile.t) : Prop :=
  exists r1 inStream d t,
    process config r = Done (r1, inStream)
    /\ r' = ContentFile.set_tag t (ContentFile.set_dist d r1).

End Description.

(** The world in which the key is derived: output directory emptied, the
    scanned list allocated, 64 random bytes taken as the salt. *)
Definition salted `{Host} (h : gmap loc object) (w : world) : world :=
  with_this {| keySalt := VBuffer (draw (drawn w) 64);
               indexTag := indexTag (this w);
               hasErrors := hasErrors (this w) |}
    (with_drawn (drawn w + 64) (with_heap h (with_output ∅ w))).

(** A record with both [dist] and [tag] set. *)
Definition complete (r : ContentFile.t) : Prop :=
  is_Some (ContentFile.dist r) /\ is_Some (ContentFile.tag r).

(** A JSON object with string properties [dist] and [tag]. *)
Definition has_dist_and_tag (v : JSON.value) : Prop :=
  exists fs d t,
    v = JSON.Obj fs
    /\ JSON.field "dist" fs = Some (JSON.Str d)
    /\ JSON.field "tag" fs = Some (JSON.Str t).

(** The stream the index builder encrypts for a list of records. *)
Definition index_stream (rs : list ContentFile.t) : Readable :=
  {| chunks := [Encoding.utf8 (JSON.stringify rs)]; failure := None |}.

(** ** Reading the index text back

    What a client does with the decrypted index: a reader for JSON texts
    of the shape the builder writes, an array of objects whose properties
    are strings and numbers, without white space. It is used to say what
    an index plaintext holds, and in which order. *)

Module Reader.

(** The character a one-letter escape stands for. *)
Definition unescape (c : ascii) : option ascii :=
  if Ascii.eqb c JSON.dquote then Some JSON.dquote
  else if Ascii.eqb c "\"%char then Some "\"%char
  else if Ascii.eqb c "/"%char then Some "/"%char
  else if Ascii.eqb c "b"%char then Some (ascii_of_nat 8)
  else if Ascii.eqb c "t"%char then Some (ascii_of_nat 9)
  else if Ascii.eqb c "n"%char then Some (ascii_of_nat 10)
  else if Ascii.eqb c "f"%char then Some (ascii_of_nat 12)
  else if Ascii.eqb c "r"%char then Some (ascii_of_nat 13)
  else None.

(** The characters of a string literal, from behind its opening quotation
    mark up to the closing one, and the text that follows. A raw control
    character is not allowed inside. *)
Fixpoint chars (t : list ascii) : option (list ascii * list ascii) :=
  match t with
  | [] => None
  | c :: rest =>
      if Ascii.eqb c JSON.dquote then Some ([], rest)
      else if Ascii.eqb c "\"%char then
        match rest with
        | [] => None
        | e :: rest1 =>
            if Ascii.eqb e "u"%char then
              match rest1 with
              | z1 :: z2 :: hi :: lo :: rest2 =>
                  if Ascii.eqb z1 "0"%char && Ascii.eqb z2 "0"%char then
                    match Encoding.unhex_digit hi, Encoding.unhex_digit lo,
                          chars rest2 with
                    | Some h, Some l, Some (s, r) =>
                        Some (ascii_of_N (16 * h + l) :: s, r)
                    | _, _, _ => None
                    end
                  else None
              | _ => None
              end
            else
              match unescape e, chars rest1 with
              | Some x, Some (s, r) => Some (x :: s, r)
              | _, _ => None
              end
        end
      else if (N_of_ascii c <? 32)%N then None
      else
        match chars rest with
        | Some (s, r) => Some (c :: s, r)
        | None => None
        end
  end.

Definition is_digit (c : ascii) : bool :=
  ((48 <=? N_of_ascii c) && (N_of_ascii c <=? 57))%N.

(** The longest run of digits at the front of a text, and the rest. *)
Fixpoint digits (t : list ascii) : list ascii * list ascii :=
  match t with
  | [] => ([], [])
  | c :: rest =>
      if is_digit c then let (ds, r) := digits rest in (c :: ds, r)
      else ([], t)
  end.

Definition number (t : list ascii) : option (N * list ascii) :=
  let (ds, r) := digits t in
  match NilZero.uint_of_string (string_of_list_ascii ds) with
  | Some d => Some (N.of_uint d, r)
  | None => None
  end.

(** A string or a number. *)
Definition scalar (t : list ascii) : option (JSON.value * list ascii) :=
  match t with
  | [] => None
  | c :: rest =>
      if Ascii.eqb c JSON.dquote then
        match chars rest with
        | Some (s, r) => Some (JSON.Str (string_of_list_ascii s), r)
        | None => None
        end
      else
        match number t with
        | Some (n, r) => Some (JSON.Num n, r)
        | None => None
        end
  end.

(** The properties of an object, from its first key up to the closing
    brace; [fuel] bounds their number. *)
Fixpoint fields (fuel : nat) (t : list ascii)
    : option (list (string * JSON.value) * list ascii) :=
  match fuel with
  | 0 => None
  | S k =>
      match t with
      | [] => None
      | q :: t1 =>
          if Ascii.eqb q JSON.dquote then
            match chars t1 with
            | Some (key, c :: t2) =>
                if Ascii.eqb c ":"%char then
                  match scalar t2 with
                  | Some (v, s :: t3) =>
                      if Ascii.eqb s ","%char then
                        match fields k t3 with
                        | Some (fs, r) =>
                            Some ((string_of_list_ascii key, v) :: fs, r)
                        | None => None
                        end
                      else if Ascii.eqb s "}"%char then
                        Some ([(string_of_list_ascii key, v)], t3)
                      else None
                  | _ => None
                  end
                else None
            | _ => None
            end
          else None
      end
  end.

Definition object (t : list ascii) : option (JSON.value * list ascii) :=
  match t with
  | o :: c :: t1 =>
      if Ascii.eqb o "{"%char then
        if Ascii.eqb c "}"%char then Some (JSON.Obj [], t1)
        else
          match fields (length t) (c :: t1) with
          | Some (fs, r) => Some (JSON.Obj fs, r)
          | None => None
          end
      else None
  | _ => None
  end.

(** The objects of an array, from the first one up to the closing
    bracket; [fuel] bounds their number. *)
Fixpoint items (fuel : nat) (t : list ascii)
    : option (list JSON.value * list ascii) :=
  match fuel with
  | 0 => None
  | S k =>
      match object t with
      | Some (v, s :: t1) =>
          if Ascii.eqb s ","%char then
            match items k t1 with
            | Some (vs, r) => Some (v :: vs, r)
            | None => None
            end
          else if Ascii.eqb s "]"%char then Some ([v], t1)
          else None
      | _ => None
      end
  end.

(** Values the reader knows: strings and numbers, objects made of them,
    and a text position at which a number ends. *)
Definition flat (v : JSON.value) : bool :=
  match v with JSON.Str _ | JSON.Num _ => true | _ => false end.

Definition flat_object (v : JSON.value) : bool :=
  match v with
  | JSON.Obj fs => forallb (fun kv => flat (snd kv)) fs
  | _ => false
  end.

Definition stops (t : list ascii) : bool :=
  match t with c :: _ => negb (is_digit c) | [] => true end.

(** A whole text: an array of objects and nothing after it. *)
Definition read (text : string) : option JSON.value :=
  match list_ascii_of_string text with
  | o :: c :: t1 =>
      if Ascii.eqb o "["%char then
        if Ascii.eqb c "]"%char then
          match t1 with [] => Some (JSON.Arr []) | _ => None end
        else
          match items (String.length text) (c :: t1) with
          | Some (vs, []) => Some (JSON.Arr vs)
          | _ => None
          end
      else None
  | _ => None
  end.

(** The content list of an index text. *)
Definition content (text : string) : option (list ContentFile.t) :=
  match read text with
  | Some v => JSON.to_content v
  | None => None
  end.

End Reader.

(** ** Descriptions used for further properties *)

(** A name as [readdir] gives it: not empty, no separator in it. *)
Definition plain_name (n : string) : bool :=
  negb (String.eqb n "")
  && forallb (fun c => negb (Path.is_sep c)) (list_ascii_of_string n).

(** A tree in which every listing holds plain names, each of them once. *)
Fixpoint proper (d : entry) : bool :=
  match d with
  | Dir l =>
      bool_decide (NoDup (map fst l))
      && forallb
           (fun ne => let '(name, child) := ne in plain_name name && proper child)
           l
  | _ => true
  end.

(** The entry listed under the name [n], if there is one. *)
Fixpoint child (n : string) (l : list (string * entry)) : option entry :=
  match l with
  | [] => None
  | (n', c) :: rest => if String.eqb n n' then Some c else child n rest
  end.

(** Following a chain of names from [d]; the empty chain stays at [d]. *)
Fixpoint resolve_path (d : entry) (names : list string) : option entry :=
  match names with
  | [] => Some d
  | n :: rest =>
      match d with
      | Dir l =>
          match child n l with
          | Some c => resolve_path c rest
          | None => None
          end
      | _ => None
      end
  end.

(** The path of a chain of names: the names with a separator between. *)
Definition path_of (names : list string) : string := JSON.join "/" names.

(** The [folder] argument of [scanFolder]: empty at the root, and ending
    in a separator below it. *)
Definition is_folder (folder : string) : Prop :=
  folder = "" \/ exists parent, folder = parent +:+ "/".

(** A computation that leaves the fields of the builder as they are. *)
Definition keeps_this {A} (m : M A) : Prop :=
  forall w, this (fst (m w)) = this w.

Section MoreDescription.

Context {C : Crypto} {KW : KeyWrap} {CL : ContentLib} {H : Host}.
Variable config : Config.

(** The bytes [_encryptStream] hands to the output stream [name] for the
    stream [inStream] when [pos] bytes of the random source are used up. *)
Definition encrypted_file (masterKey : bytes) (pos : nat) (inStream : Readable)
    (name : string) : bytes :=
  let fileKey := draw pos 32 in
  let fileIV := draw (pos + 32) 12 in
  written (pump (kw_encrypt masterKey fileKey) fileKey fileIV
             (schedule inStream (outFault name))).

(** The output name drawn for the record at index [i] of a loop that
    starts at position [pos] of the random source. *)
Definition dist_name (pos i : nat) : string :=
  Encoding.hex (draw (pos + 56 * i) 12).

(** The output directory after the encryption loop over [rs]: one file
    per pass, created empty when the pass begins and filled by the stream
    cipher; the loop stops with the first pass that fails. *)
Fixpoint written_files (masterKey : bytes) (pos : nat) (rs : list ContentFile.t)
    (out : gmap string bytes) : gmap string bytes :=
  match rs with
  | [] => out
  | r :: rest =>
      let dist := Encoding.hex (draw pos 12) in
      match process config r with
      | Done (r1, inStream) =>
          let out1 := <[dist := encrypted_file masterKey (pos + 12) inStream dist]> out in
          match encrypted_record config masterKey pos r with
          | Done _ => written_files masterKey (pos + 56) rest out1
          | _ => out1
          end
      | _ => <[dist := []]> out
      end
  end.

(** The file [name] of the output directory holds [data]: these are the
    bytes its write stream was handed, and the stream did not fail. What
    a stream that failed has left on disk is not known. *)
Definition file_holds (out : gmap string bytes) (name : string) (data : bytes)
    : Prop :=
  outFault name = None /\ out !! name = Some data.

(** A record and the file its [dist] names fit together: the record is
    the pre-processed form of [r] with a name and a tag; the file holds the
    wrapped file key, the nonce and the ciphertext of the record's stream
    under that key and nonce; the tag is the base64 text of the tag of that
    encryption. *)
Definition fits (masterKey : bytes) (out : gmap string bytes)
    (r r' : ContentFile.t) : Prop :=
  exists r1 inStream d fileKey fileIV,
    process config r = Done (r1, inStream)
    /\ length fileKey = 32 /\ length fileIV = 12
    /\ let run := encrypt_chunks (createCipheriv "aes-256-gcm" fileKey fileIV)
                    (chunks inStream) in
       r' = ContentFile.set_tag (Encoding.base64 (getAuthTag (fst run)))
              (ContentFile.set_dist d r1)
       /\ file_holds out d (kw_encrypt masterKey fileKey ++ fileIV ++ snd run).

End MoreDescription.

(** The parameters a build hands to webpack, from the salt and the tag of
    the index. *)
Definition build_params (config : Config) (salt tag : bytes) : AppParams :=
  {| app_distDir := distDir config;
     authIssuer := "https://" +:+ auth0_domain config;
     authClientId := auth0_hereditasClientId config;
     idTokenNamespace := "https://hereditas.app";
     app_indexTag := VBuffer tag;
     app_keySalt := VBuffer salt;
     app_kdf := kdf config;
     pbkdf2Iterations := pbkdf2_iterations config;
     argon2Memory := argon2_memory config |}.

(** ** More concrete environments *)

Module Trial.

(** A pre-processing step that cannot read the file in the folder. *)
Definition failing_lib : ContentLib := {|
  process := fun cfg r =>
    if String.eqb (ContentFile.path r) "sub/b.txt"
    then Thrown "EACCES: permission denied"
    else @process Sample.contentlib cfg r
|}.

(** A content directory with a folder that cannot be listed. *)
Definition locked_host : Host := {|
  random := Sample.byte_of_nat;
  contentRoot := Dir [("a.txt", File 5);
                      ("private", Unreadable "EACCES: permission denied")];
  cleanFault := None;
  outFault := fun _ => None;
  webpack := fun _ => Done {| errors := []; warnings := [] |}
|}.

(** A content directory where nothing passes the filter. *)
Definition bare_host : Host := {|
  random := Sample.byte_of_nat;
  contentRoot := Dir [(".DS_Store", File 1); ("notes.txt~", File 7)];
  cleanFault := None;
  outFault := fun _ => None;
  webpack := fun _ => Done {| errors := []; warnings := [] |}
|}.

(** A webpack run that compiles with an error and a warning. *)
Definition failing_webpack : Host := {|
  random := Sample.byte_of_nat;
  contentRoot := Sample.tree;
  cleanFault := None;
  outFault := fun _ => None;
  webpack := fun _ => Done {| errors := ["Module not found"];
                              warnings := ["asset size limit"] |}
|}.

(** An output directory where every write fails at once. *)
Definition full_disk : Host := Sample.full_disk 0.

End Trial.

(** * Properties *)

(** ** The path filter *)

Lemma endsWith_cons c s suf :
  String.length suf = 1 ->
  endsWith (String c s) suf =
    match s with
    | EmptyString => String.eqb (String c EmptyString) suf
    | String _ _ => endsWith s suf
    end.
Proof.
  intros Hk. unfold endsWith. rewrite Hk.
  destruct s as [|d s]; simpl.
  - reflexivity.
  - rewrite Nat.sub_0_r. reflexivity.
Qed.

Lemma append_nil_l (s : string) : "" +:+ s = s.
Proof. reflexivity. Qed.

Lemma append_cons_l c (t s : string) : String c t +:+ s = String c (t +:+ s).
Proof. reflexivity. Qed.

Lemma endsWith_tilde s : endsWith s "~" = true <-> exists t, s = t +:+ "~".
Proof.
  induction s as [|c s IH].
  - split; [discriminate|]. intros [[|d t] Ht]; discriminate.
  - rewrite endsWith_cons by reflexivity.
    destruct s as [|d s].
    + rewrite String.eqb_eq. split.
      * intros ->. exists EmptyString. reflexivity.
      * intros [[|e t] Ht].
        -- exact Ht.
        -- rewrite append_cons_l in Ht. destruct t; discriminate.
    + rewrite IH. split.
      * intros [t ->]. exists (String c t). reflexivity.
      * intros [[|e t] Ht]; [discriminate|].
        rewrite append_cons_l in Ht.
        injection Ht as _ Ht. exists t. exact Ht.
Qed.

Lemma startsWith_dot_underscore s :
  startsWith s "._" = true <-> exists t, s = "._" +:+ t.
Proof.
  unfold startsWith. rewrite String.eqb_eq. split.
  - destruct s as [|a [|b s]]; simpl; intros Hp; try discriminate Hp.
    injection Hp as -> -> _. exists s. reflexivity.
  - intros [t ->]. destruct t; reflexivity.
Qed.

Lemma denied_decide base :
  denied base <->
  (endsWith base "~"
   || String.eqb base ".directory"
   || String.eqb base ".DS_Store"
   || String.eqb base ".AppleDouble"
   || String.eqb base ".LSOverride"
   || startsWith base "._"
   || String.eqb base "Thumbs.db"
   || String.eqb base "Thumbs.db:encryptable"
   || String.eqb base "desktop.ini"
   || String.eqb base "Desktop.ini") = true.
Proof.
  unfold denied, deny_names.
  rewrite !orb_true_iff, endsWith_tilde, startsWith_dot_underscore,
    !String.eqb_eq.
  simpl. intuition congruence.
Qed.

(** C10. The filter is a function of the path string alone: it answers
    [false] exactly for the paths whose base name is on the deny-list
    ([.DS_Store], [Thumbs.db], [Thumbs.db:encryptable], [desktop.ini],
    [Desktop.ini], [.directory], [.AppleDouble], [.LSOverride]), ends in a
    tilde or starts with [._], and [true] for every other path, among them
    [notes.txt]. *)
Theorem includePath_deny_list :
  (forall p, denied (Path.basename p) -> includePath p = false)
  /\ (forall p, ~ denied (Path.basename p) -> includePath p = true)
  /\ includePath "notes.txt" = true.
Proof.
  split; [|split].
  - intros p Hd. apply denied_decide in Hd.
    unfold includePath. cbv zeta. rewrite Hd. reflexivity.
  - intros p Hd. rewrite denied_decide in Hd.
    unfold includePath. cbv zeta.
    destruct (_ || _); [contradiction Hd; reflexivity | reflexivity].
  - reflexivity.
Qed.

Lemma includePath_deny_list_witness :
  includePath "content/.DS_Store" = false
  /\ includePath "content/report.pdf~" = false
  /\ includePath "sub/._cache" = false
  /\ includePath "sub/notes.txt" = true.
Proof.
  destruct includePath_deny_list as (Hno & Hyes & _).
  split; [|split; [|split]].
  - apply Hno. left. simpl. tauto.
  - apply Hno. right. left. exists "report.pdf". reflexivity.
  - apply Hno. right. right. exists "cache". reflexivity.
  - apply Hyes. intros Hd. apply denied_decide in Hd. discriminate Hd.
Defined.

(** ** The hexadecimal encoding *)

Lemma unhex_hex_byte b rest :
  Encoding.unhex_chars (Encoding.hex_byte b ++ rest) =
    match Encoding.unhex_chars rest with
    | Some r => Some (b :: r)
    | None => None
    end.
Proof.
  destruct b; cbn [Encoding.hex_byte app Encoding.unhex_chars];
    destruct (Encoding.unhex_chars rest); reflexivity.
Qed.

Lemma unhex_hex b : Encoding.unhex (Encoding.hex b) = Some b.
Proof.
  unfold Encoding.unhex, Encoding.hex.
  rewrite list_ascii_of_string_of_list_ascii.
  induction b as [|x b IH]; cbn [map concat].
  - reflexivity.
  - rewrite unhex_hex_byte, IH. reflexivity.
Qed.

(** Two buffers with the same hexadecimal text are the same buffer. *)
Lemma hex_inj b1 b2 : Encoding.hex b1 = Encoding.hex b2 -> b1 = b2.
Proof.
  intros Hh. pose proof (unhex_hex b1) as H1.
  rewrite Hh, unhex_hex in H1. congruence.
Qed.

Lemma append_assoc (a b c : string) : (a +:+ b) +:+ c = a +:+ (b +:+ c).
Proof.
  induction a as [|x a IH]; [reflexivity|].
  rewrite !append_cons_l, IH. reflexivity.
Qed.

Lemma list_ascii_of_append (a b : string) :
  list_ascii_of_string (a +:+ b) = list_ascii_of_string a ++ list_ascii_of_string b.
Proof.
  induction a as [|c a IH]; [reflexivity|].
  rewrite append_cons_l. cbn [list_ascii_of_string app]. rewrite IH. reflexivity.
Qed.

Lemma length_string_of_list_ascii l :
  String.length (string_of_list_ascii l) = length l.
Proof. induction l as [|c l IH]; simpl; [reflexivity | by rewrite IH]. Qed.

Lemma hex_length b : String.length (Encoding.hex b) = 2 * length b.
Proof.
  unfold Encoding.hex. rewrite length_string_of_list_ascii.
  induction b as [|x b IH]; cbn [map concat length].
  - reflexivity.
  - rewrite length_app, IH. cbn [Encoding.hex_byte length]. lia.
Qed.

Lemma NoDup_map_inj {A B} (f : A -> B) (l : list A) :
  (forall x y, f x = f y -> x = y) -> NoDup l -> NoDup (map f l).
Proof.
  intros Hinj. induction 1 as [|x l Hx Hl IH]; cbn [map]; constructor.
  - intros Hin. apply list_elem_of_In, in_map_iff in Hin as (y & Hy & Hin).
    apply Hinj in Hy. subst y. apply Hx, list_elem_of_In. exact Hin.
  - exact IH.
Qed.

Lemma NoDup_map_source {A B} (f : A -> B) (l : list A) :
  NoDup (map f l) -> NoDup l.
Proof.
  induction l as [|x l IH]; cbn [map]; intros Hnd.
  - constructor.
  - apply NoDup_cons in Hnd as [Hx Hl]. constructor.
    + intros Hin. apply Hx. apply list_elem_of_In, in_map, list_elem_of_In.
      exact Hin.
    + apply IH. exact Hl.
Qed.

(** ** The stream cipher *)

Lemma sample_lengths : CryptoLengths Sample.crypto.
Proof.
  split; simpl; intros.
  - apply repeat_length.
  - apply repeat_length.
  - apply length_map.
Qed.

Section Stream.

Context {C : Crypto}.

Lemma encrypt_chunks_length `{!CryptoLengths C} c l :
  length (snd (encrypt_chunks c l)) = length (concat l).
Proof.
  revert c. induction l as [|d l IH]; intros c; simpl.
  - reflexivity.
  - pose proof (update_length c d) as Hu.
    destruct (update c d) as [c1 o]. specialize (IH c1).
    destruct (encrypt_chunks c1 l) as [c2 os]. simpl in *.
    rewrite !length_app. congruence.
Qed.

Lemma handle_quiet p ev :
  quiet p ->
  quiet (handle p ev)
  /\ written (handle p ev) = written p
  /\ settled (handle p ev) = settled p.
Proof.
  intros [Hs Hio]. unfold quiet.
  destruct ev; simpl.
  - rewrite Hio. auto.
  - destruct (inOpen p) eqn:Hi; simpl; [|rewrite Hi; auto].
    simpl in Hio. rewrite Hio. auto.
  - destruct (inOpen p) eqn:Hi; simpl; [|rewrite Hi; auto].
    destruct (settled p); simpl; try congruence; auto.
  - rewrite andb_false_r.
    destruct (settled p); simpl; try congruence; auto.
Qed.

Lemma fold_quiet evs p :
  quiet p ->
  written (fold_left handle evs p) = written p
  /\ settled (fold_left handle evs p) = settled p.
Proof.
  revert p. induction evs as [|ev evs IH]; intros p Hq; simpl.
  - auto.
  - destruct (handle_quiet p ev Hq) as (Hq' & Hw & Hs).
    destruct (IH _ Hq') as [Hw' Hs']. split; congruence.
Qed.

(** What the handlers make of a sequence of events, starting with both
    pipes connected and the promise pending. *)
Lemma fold_running evs p :
  inOpen p = true -> outOpen p = true -> settled p = Pending ->
  let (c, ct) := encrypt_chunks (enc p) (leading_chunks evs) in
  written (fold_left handle evs p) = written p ++ ct
  /\ settled (fold_left handle evs p) =
       match first_signal evs with
       | Some InEnd => Resolved (getAuthTag c)
       | Some (InError e) => Rejected e
       | Some (OutError e) => Rejected e
       | _ => Pending
       end.
Proof.
  revert p. induction evs as [|ev evs IH]; intros p Hi Ho Hs.
  - simpl. rewrite app_nil_r. auto.
  - destruct ev as [d| |e|e].
    + simpl. rewrite Hi, Ho. simpl.
      destruct (update (enc p) d) as [c1 o] eqn:Hu.
      specialize (IH {| written := written p ++ o; enc := c1; inOpen := true;
                        outOpen := true; settled := settled p |}
                    eq_refl eq_refl Hs).
      simpl in IH.
      destruct (encrypt_chunks c1 (leading_chunks evs)) as [c2 os].
      rewrite <- app_assoc in IH. exact IH.
    + cbn [leading_chunks encrypt_chunks first_signal fold_left].
      rewrite app_nil_r.
      destruct (fold_quiet evs (handle p InEnd)) as [Hw Hs'].
      { split; simpl; rewrite Hi, Ho, Hs; simpl; congruence. }
      rewrite Hw, Hs'. simpl. rewrite Hi, Ho, Hs. auto.
    + cbn [leading_chunks encrypt_chunks first_signal fold_left].
      rewrite app_nil_r.
      destruct (fold_quiet evs (handle p (InError e))) as [Hw Hs'].
      { split; simpl; rewrite Hi, Hs; simpl; congruence. }
      rewrite Hw, Hs'. simpl. rewrite Hi, Hs. auto.
    + cbn [leading_chunks encrypt_chunks first_signal fold_left].
      rewrite app_nil_r.
      destruct (fold_quiet evs (handle p (OutError e))) as [Hw Hs'].
      { split; simpl; rewrite ?Hs; simpl; try congruence.
        apply andb_false_r. }
      rewrite Hw, Hs'. simpl. rewrite Hs. auto.
Qed.

Lemma pump_spec wrappedKey fileKey fileIV evs :
  let (c, ct) := encrypt_chunks (createCipheriv "aes-256-gcm" fileKey fileIV)
                   (leading_chunks evs) in
  written (pump wrappedKey fileKey fileIV evs) = wrappedKey ++ fileIV ++ ct
  /\ settled (pump wrappedKey fileKey fileIV evs) =
       match first_signal evs with
       | Some InEnd => Resolved (getAuthTag c)
       | Some (InError e) => Rejected e
       | Some (OutError e) => Rejected e
       | _ => Pending
       end.
Proof.
  unfold pump.
  pose proof (fold_running evs (start wrappedKey fileKey fileIV)
                eq_refl eq_refl eq_refl) as Hr.
  simpl in Hr.
  destruct (encrypt_chunks _ _) as [c ct].
  rewrite <- app_assoc in Hr. exact Hr.
Qed.

(** The events of a scheduled run. *)
Lemma leading_chunks_data l rest :
  leading_chunks (map InData l ++ rest) = l ++ leading_chunks rest.
Proof. induction l as [|d l IH]; simpl; [reflexivity | by rewrite IH]. Qed.

Lemma first_signal_data l rest :
  first_signal (map InData l ++ rest) = first_signal rest.
Proof. induction l as [|d l IH]; simpl; [reflexivity | exact IH]. Qed.

Lemma closing_not_data s : leading_chunks [closing s] = []
  /\ first_signal [closing s] = Some (closing s).
Proof. unfold closing. destruct (failure s); auto. Qed.

Lemma schedule_none s :
  leading_chunks (schedule s None) = chunks s
  /\ first_signal (schedule s None) = Some (closing s).
Proof.
  unfold schedule, in_events. fold (closing s).
  rewrite leading_chunks_data, first_signal_data.
  destruct (closing_not_data s) as [-> ->]. rewrite app_nil_r. auto.
Qed.

Lemma schedule_early s k e :
  k <= length (chunks s) ->
  leading_chunks (schedule s (Some (k, e))) = take k (chunks s)
  /\ first_signal (schedule s (Some (k, e))) = Some (OutError e).
Proof.
  intros Hk. unfold schedule, in_events. fold (closing s).
  rewrite take_app_le by (rewrite length_map; lia).
  rewrite firstn_map.
  rewrite leading_chunks_data, first_signal_data. simpl.
  rewrite app_nil_r. auto.
Qed.

Lemma schedule_late s k e :
  length (chunks s) < k ->
  leading_chunks (schedule s (Some (k, e))) = chunks s
  /\ first_signal (schedule s (Some (k, e))) = Some (closing s).
Proof.
  intros Hk. unfold schedule, in_events. fold (closing s).
  rewrite take_ge by (rewrite length_app, length_map; simpl; lia).
  rewrite <- app_assoc.
  rewrite leading_chunks_data, first_signal_data.
  destruct (closing_not_data s) as [Hl Hf].
  unfold closing in *. destruct (failure s); simpl; rewrite app_nil_r; auto.
Qed.

End Stream.

Section EncryptStream.

Context {C : Crypto} {KW : KeyWrap} {H : Host}.

Lemma draw_length pos n : length (draw pos n) = n.
Proof. unfold draw. rewrite length_map. apply length_seq. Qed.

(** One invocation, with the binds computed away. *)
Lemma encryptStream_run masterKey inStream outStream w :
  let fileKey := draw (drawn w) 32 in
  let fileIV := draw (drawn w + 32) 12 in
  let p := pump (kw_encrypt masterKey fileKey) fileKey fileIV
             (schedule inStream (outFault outStream)) in
  _encryptStream masterKey inStream outStream w =
    (with_output (<[outStream := written p]> (output w))
       (with_drawn (drawn w + 32 + 12) w),
     await (settled p)).
Proof. reflexivity. Qed.

(** The promise of a scheduled run is settled by the first event that is
    not a chunk, and there always is one. *)
Lemma schedule_cases s fault :
  (leading_chunks (schedule s fault) = chunks s
   /\ first_signal (schedule s fault) = Some (closing s))
  \/ (exists k e, fault = Some (k, e) /\ k <= length (chunks s)
      /\ leading_chunks (schedule s fault) = take k (chunks s)
      /\ first_signal (schedule s fault) = Some (OutError e)).
Proof.
  destruct fault as [[k e]|].
  - destruct (le_lt_dec k (length (chunks s))) as [Hk|Hk].
    + right. exists k, e. destruct (schedule_early s k e Hk). auto.
    + left. apply schedule_late. exact Hk.
  - left. apply schedule_none.
Qed.

(** How the promise of a scheduled run is settled: rejected with the
    failure if there is one during the encryption, resolved with the tag
    of the whole plaintext if not. It never stays pending. *)
Lemma pump_outcome wrappedKey fileKey fileIV inStream fault :
  await (settled (pump wrappedKey fileKey fileIV (schedule inStream fault))) =
    match failure_during (schedule inStream fault) with
    | Some e => Thrown e
    | None =>
        Done (getAuthTag
                (fst (encrypt_chunks (createCipheriv "aes-256-gcm" fileKey fileIV)
                        (chunks inStream))))
    end.
Proof.
  pose proof (pump_spec wrappedKey fileKey fileIV (schedule inStream fault)) as Hp.
  unfold failure_during.
  destruct (schedule_cases inStream fault)
    as [[Hl Hf]|(k & e & _ & _ & Hl & Hf)]; rewrite Hl, Hf in *.
  - destruct (encrypt_chunks _ (chunks inStream)) as [c ct].
    destruct Hp as [_ ->]. unfold closing.
    destruct (failure inStream); reflexivity.
  - destruct (encrypt_chunks _ (take k (chunks inStream))) as [c ct].
    destruct Hp as [_ ->]. reflexivity.
Qed.

Lemma encryptStream_outcome masterKey inStream outStream w :
  let fileKey := draw (drawn w) 32 in
  let fileIV := draw (drawn w + 32) 12 in
  snd (_encryptStream masterKey inStream outStream w) =
    match failure_during (schedule inStream (outFault outStream)) with
    | Some e => Thrown e
    | None =>
        Done (getAuthTag
                (fst (encrypt_chunks (createCipheriv "aes-256-gcm" fileKey fileIV)
                        (chunks inStream))))
    end.
Proof.
  intros fileKey fileIV. rewrite encryptStream_run. cbn [snd].
  apply pump_outcome.
Qed.

(** C1. In every invocation of [_encryptStream] the output stream is given
    the wrapped file key (40 bytes for the 32-byte file key), then the
    12-byte nonce, then ciphertext and nothing else: the ciphertext of the
    chunks handled so far and, when the invocation completes, of the whole
    plaintext and as long as it. The authentication tag is the value the
    call returns; it is not part of what is written. *)
Theorem encryptStream_layout {L : CryptoLengths C} masterKey inStream outStream w :
  let fileKey := draw (drawn w) 32 in
  let fileIV := draw (drawn w + 32) 12 in
  let wrappedKey := kw_encrypt masterKey fileKey in
  let cipher0 := createCipheriv "aes-256-gcm" fileKey fileIV in
  let run := _encryptStream masterKey inStream outStream w in
  length fileKey = 32 /\ length wrappedKey = 40 /\ length fileIV = 12
  /\ (exists n, n <= length (chunks inStream)
      /\ output (fst run) !! outStream =
           Some (wrappedKey ++ fileIV
                 ++ snd (encrypt_chunks cipher0 (take n (chunks inStream)))))
  /\ (forall tag, snd run = Done tag ->
      output (fst run) !! outStream =
        Some (wrappedKey ++ fileIV
              ++ snd (encrypt_chunks cipher0 (chunks inStream)))
      /\ length (snd (encrypt_chunks cipher0 (chunks inStream))) =
           length (content_of inStream)
      /\ tag = getAuthTag (fst (encrypt_chunks cipher0 (chunks inStream)))).
Proof.
  intros fileKey fileIV wrappedKey cipher0 run.
  assert (Hrun : run = _encryptStream masterKey inStream outStream w)
    by reflexivity.
  rewrite encryptStream_run in Hrun. fold fileKey fileIV wrappedKey in Hrun.
  pose proof (pump_spec wrappedKey fileKey fileIV
                (schedule inStream (outFault outStream))) as Hp.
  fold cipher0 in Hp.
  split; [apply draw_length|].
  split; [unfold wrappedKey, fileKey; rewrite kw_length, draw_length; reflexivity|].
  split; [apply draw_length|].
  assert (Hout : output (fst run) !! outStream =
                 Some (written (pump wrappedKey fileKey fileIV
                                  (schedule inStream (outFault outStream))))).
  { rewrite Hrun. cbn [fst with_output output]. apply lookup_insert_eq. }
  destruct (schedule_cases inStream (outFault outStream))
    as [[Hl Hf]|(k & e & _ & Hk & Hl & Hf)]; rewrite Hl, Hf in Hp.
  - destruct (encrypt_chunks cipher0 (chunks inStream)) as [c ct] eqn:Hc.
    destruct Hp as [Hw Hs]. split.
    + exists (length (chunks inStream)). split; [lia|].
      rewrite firstn_all, Hc, Hout, Hw. reflexivity.
    + intros tag Htag. split; [rewrite Hout, Hw; reflexivity|].
      split.
      * change ct with (snd (c, ct)). rewrite <- Hc.
        apply encrypt_chunks_length.
      * rewrite Hrun in Htag. cbn [snd] in Htag. rewrite Hs in Htag.
        unfold closing in Htag. cbn [fst].
        destruct (failure inStream); simpl in Htag; congruence.
  - destruct (encrypt_chunks cipher0 (take k (chunks inStream)))
      as [c ct] eqn:Hc.
    destruct Hp as [Hw Hs]. split.
    + exists k. split; [exact Hk|]. rewrite Hc, Hout, Hw. reflexivity.
    + intros tag Htag. rewrite Hrun in Htag. cbn [snd] in Htag.
      rewrite Hs in Htag. discriminate Htag.
Qed.

(** C8, where the code departs from it. The promise of [_encryptStream]
    is resolved with the tag when the cipher ends, not when the output
    stream has finished: an ['error'] of the output stream rejects the
    call only when it is emitted before the cipher's ['end'], that is
    after at most as many events as the input has chunks. Emitted later
    it finds the promise settled, and the call returns the tag of the
    whole plaintext as if the file had been written. *)
Theorem late_output_error_returns_tag masterKey inStream outStream w k e :
  failure inStream = None ->
  outFault outStream = Some (k, e) ->
  snd (_encryptStream masterKey inStream outStream w) =
    if (k <=? length (chunks inStream))%nat then Thrown e
    else
      Done (getAuthTag
              (fst (encrypt_chunks
                      (createCipheriv "aes-256-gcm" (draw (drawn w) 32)
                         (draw (drawn w + 32) 12))
                      (chunks inStream)))).
Proof.
  intros Hin Hout. rewrite encryptStream_outcome, Hout. unfold failure_during.
  destruct (Nat.leb_spec k (length (chunks inStream))) as [Hk|Hk].
  - destruct (schedule_early inStream k e Hk) as [_ ->]. reflexivity.
  - destruct (schedule_late inStream k e Hk) as [_ ->].
    unfold closing. rewrite Hin. reflexivity.
Qed.

End EncryptStream.

Section StreamRuns.

#[local] Existing Instances Sample.crypto Sample.keywrap Sample.contentlib Sample.host.

Lemma encryptStream_layout_witness :
  CryptoLengths Sample.crypto
  /\ let inStream := {| chunks := [Encoding.utf8 "hello"]; failure := None |} in
     let run := _encryptStream [x01; x02]%byte inStream "out"
                  (new_Builder ∅) in
     snd run = Done (repeat x05%byte 16)
     /\ exists ct,
          output (fst run) !! "out" =
            Some (kw_encrypt [x01; x02]%byte (draw 0 32) ++ draw 32 12 ++ ct)
          /\ length ct = 5.
Proof.
  split; [exact sample_lengths|].
  intros inStream run.
  assert (Hdone : snd run = Done (repeat x05%byte 16)) by reflexivity.
  split; [exact Hdone|].
  destruct (encryptStream_layout (L := sample_lengths)
              [x01; x02]%byte inStream "out" (new_Builder ∅))
    as (_ & _ & _ & _ & Hlay).
  destruct (Hlay _ Hdone) as (Hout & Hlen & _).
  eexists. split; [exact Hout | exact Hlen].
Defined.

End StreamRuns.

(** ** The monad and the store *)

Lemma bind_done {A B} (m : M A) (k : A -> M B) w w1 a :
  m w = (w1, Done a) -> bind m k w = k a w1.
Proof. intros Hm. unfold bind. rewrite Hm. reflexivity. Qed.

Lemma bind_thrown {A B} (m : M A) (k : A -> M B) w w1 e :
  m w = (w1, Thrown e) -> bind m k w = (w1, Thrown e).
Proof. intros Hm. unfold bind. rewrite Hm. reflexivity. Qed.

Lemma bind_hang {A B} (m : M A) (k : A -> M B) w w1 :
  m w = (w1, Hang) -> bind m k w = (w1, Hang).
Proof. intros Hm. unfold bind. rewrite Hm. reflexivity. Qed.

Lemma alloc_run o w :
  alloc o w = (with_heap (<[fresh (dom (heap w)) := o]> (heap w)) w,
               Done (fresh (dom (heap w))))
  /\ heap w !! fresh (dom (heap w)) = None.
Proof.
  split; [reflexivity|]. apply not_elem_of_dom. apply is_fresh.
Qed.

(** Allocating the objects of a list: the store only grows, the new
    objects are distinct from each other and from everything that was
    there, and they hold the records in order. *)
Lemma alloc_records_spec rs w :
  exists h ls,
    alloc_records rs w = (with_heap h w, Done ls)
    /\ heap w ⊆ h
    /\ Forall (fun l => heap w !! l = None) ls
    /\ NoDup ls
    /\ Forall2 (fun l r => h !! l = Some (ORecord r)) ls rs.
Proof.
  revert w. induction rs as [|r rs IH]; intros w.
  - exists (heap w), []. simpl. unfold ret.
    destruct w; repeat split; auto using NoDup_nil_2.
  - destruct (alloc_run (ORecord r) w) as [Ha Hfresh].
    set (l := fresh (dom (heap w))) in *.
    set (w1 := with_heap (<[l := ORecord r]> (heap w)) w) in *.
    destruct (IH w1) as (h & ls & Hrun & Hsub & Hnew & Hnd & Hrec).
    exists h, (l :: ls). simpl alloc_records.
    rewrite (bind_done _ _ _ _ _ Ha), (bind_done _ _ _ _ _ Hrun).
    assert (Hl : h !! l = Some (ORecord r)).
    { eapply lookup_weaken; [|exact Hsub]. apply lookup_insert_eq. }
    assert (Hold : heap w ⊆ h).
    { etrans; [|exact Hsub]. apply insert_subseteq. exact Hfresh. }
    split; [reflexivity|]. split; [exact Hold|].
    split; [|split].
    + constructor; [exact Hfresh|].
      eapply Forall_impl; [exact Hnew|]. intros l' Hl'. simpl in Hl'.
      destruct (decide (l = l')) as [<-|Hne].
      * rewrite lookup_insert_eq in Hl'. discriminate.
      * rewrite lookup_insert_ne in Hl' by exact Hne. exact Hl'.
    + constructor; [|exact Hnd].
      intros Hin. rewrite Forall_forall in Hnew.
      specialize (Hnew _ Hin). simpl in Hnew.
      rewrite lookup_insert_eq in Hnew. discriminate.
    + constructor; [exact Hl | exact Hrec].
Qed.

Lemma new_content_spec rs w :
  exists h ls a,
    new_content rs w = (with_heap h w, Done a)
    /\ heap w ⊆ h
    /\ heap w !! a = None
    /\ h !! a = Some (OArray ls)
    /\ Forall (fun l => heap w !! l = None) ls
    /\ NoDup ls
    /\ Forall2 (fun l r => h !! l = Some (ORecord r)) ls rs.
Proof.
  destruct (alloc_records_spec rs w) as (h1 & ls & Hrun & Hsub & Hnew & Hnd & Hrec).
  destruct (alloc_run (OArray ls) (with_heap h1 w)) as [Ha Hfresh].
  simpl in Ha, Hfresh.
  set (a := fresh (dom h1)) in *.
  exists (<[a := OArray ls]> h1), ls, a.
  unfold new_content. rewrite (bind_done _ _ _ _ _ Hrun), Ha.
  split; [reflexivity|].
  split; [etrans; [exact Hsub|]; apply insert_subseteq; exact Hfresh|].
  split.
  { destruct (heap w !! a) eqn:Hw; [|reflexivity].
    eapply lookup_weaken in Hw; [|exact Hsub]. congruence. }
  split; [apply lookup_insert_eq|].
  split; [exact Hnew|]. split; [exact Hnd|].
  eapply Forall2_impl; [exact Hrec|]. intros l r Hl. simpl in Hl.
  rewrite lookup_insert_ne; [exact Hl|]. intros <-. congruence.
Qed.

(** Reading a list back. *)
Lemma content_at_intro (h : gmap loc object) a ls rs :
  h !! a = Some (OArray ls) ->
  Forall2 (fun l r => h !! l = Some (ORecord r)) ls rs ->
  content_at h a = Some rs.
Proof.
  intros Ha Hrec. unfold content_at. rewrite Ha.
  apply mapM_Some. eapply Forall2_impl; [exact Hrec|].
  intros l r Hl. unfold record_at. rewrite Hl. reflexivity.
Qed.

Lemma content_at_elim (h : gmap loc object) a rs :
  content_at h a = Some rs ->
  exists ls, h !! a = Some (OArray ls)
    /\ Forall2 (fun l r => h !! l = Some (ORecord r)) ls rs.
Proof.
  unfold content_at. destruct (h !! a) as [[r|ls]|] eqn:Ha; try discriminate.
  intros Hm. exists ls. split; [reflexivity|].
  apply mapM_Some in Hm. eapply Forall2_impl; [exact Hm|].
  intros l r Hl. unfold record_at in Hl.
  destruct (h !! l) as [[r'|]|]; congruence.
Qed.

Lemma get_records_run w ls rs :
  Forall2 (fun l r => heap w !! l = Some (ORecord r)) ls rs ->
  get_records ls w = (w, Done rs).
Proof.
  induction 1 as [|l r ls rs Hl _ IH]; simpl.
  - reflexivity.
  - unfold bind, get_record, bind, load. rewrite Hl. simpl.
    fold (get_records ls). rewrite IH. reflexivity.
Qed.

Lemma get_items_run w a ls :
  heap w !! a = Some (OArray ls) -> get_items a w = (w, Done ls).
Proof. intros Ha. unfold get_items, bind, load. rewrite Ha. reflexivity. Qed.

Lemma read_content_run w a rs :
  content_at (heap w) a = Some rs -> read_content a w = (w, Done rs).
Proof.
  intros Hc. apply content_at_elim in Hc as (ls & Ha & Hrec).
  unfold read_content.
  rewrite (bind_done _ _ _ _ _ (get_items_run w a ls Ha)).
  apply get_records_run. exact Hrec.
Qed.

(** ** The content scanner *)

Lemma entry_nested_ind (P : entry -> Prop) :
  (forall sz, P (File sz)) ->
  (forall e, P (Unreadable e)) ->
  (forall l, Forall (fun ne => P (snd ne)) l -> P (Dir l)) ->
  forall d, P d.
Proof.
  intros HF HU HD. fix IH 1. intros [sz|l|e].
  - apply HF.
  - apply HD. induction l as [|[n c] l IHl]; constructor.
    + apply IH.
    + exact IHl.
  - apply HU.
Qed.

(** The scanner against the traversal: when every directory on the way
    lists, the result is what was there followed by the traversal; if not,
    the scan throws. It never leaves its caller waiting. *)
Lemma scanFolder_walk d :
  forall folder acc,
    if listable folder d
    then scanFolder folder d acc = Done (acc ++ walk folder d)
    else exists e, scanFolder folder d acc = Thrown e.
Proof.
  induction d as [sz|e|l IHl] using entry_nested_ind; intros folder acc.
  - simpl. eauto.
  - simpl. eauto.
  - cbn [listable walk scanFolder].
    revert acc. induction IHl as [|[n c] l Hc _ IH]; intros acc.
    + simpl. rewrite app_nil_r. reflexivity.
    + cbn [forallb flat_map scanList]. fold (scanList scanFolder folder).
      cbn [snd] in Hc.
      destruct (includePath (folder +:+ n)) eqn:Hinc; cbn [negb].
      * destruct c as [sz|l'|e].
        -- cbn [andb]. specialize (IH (acc ++ [ContentFile.scanned (folder +:+ n) sz])).
           destruct (forallb _ l).
           ++ rewrite IH, <- app_assoc. reflexivity.
           ++ exact IH.
        -- specialize (Hc ((folder +:+ n) +:+ "/") acc).
           destruct (listable ((folder +:+ n) +:+ "/") (Dir l')); cbn [andb].
           ++ rewrite Hc. specialize (IH (acc ++ walk ((folder +:+ n) +:+ "/") (Dir l'))).
              destruct (forallb _ l).
              ** rewrite IH, <- app_assoc. reflexivity.
              ** exact IH.
           ++ destruct Hc as [e ->]. eauto.
        -- cbn [listable andb scanFolder]. eauto.
      * cbn [andb]. specialize (IH acc).
        destruct (forallb _ l).
        -- rewrite IH. reflexivity.
        -- exact IH.
Qed.

Lemma scanFolder_done folder d acc rs :
  scanFolder folder d acc = Done rs -> rs = acc ++ walk folder d.
Proof.
  intros Hs. pose proof (scanFolder_walk d folder acc) as Hw.
  destruct (listable folder d).
  - congruence.
  - destruct Hw as [e He]. congruence.
Qed.

Lemma scanFolder_settles folder d acc : scanFolder folder d acc <> Hang.
Proof.
  pose proof (scanFolder_walk d folder acc) as Hw.
  destruct (listable folder d).
  - congruence.
  - destruct Hw as [e He]. congruence.
Qed.

(** The JSON round trip gives back the records it was given. *)
Lemma to_record_of_record r : JSON.to_record (JSON.of_record r) = Some r.
Proof.
  destruct r as [p n [[| |]|] [pr|] [di|] [t|]]; reflexivity.
Qed.

Lemma to_content_of_content rs :
  JSON.to_content (JSON.of_content rs) = Some rs.
Proof.
  unfold JSON.to_content, JSON.of_content.
  induction rs as [|r rs IH]; cbn [map JSON.to_records].
  - reflexivity.
  - rewrite to_record_of_record, IH. reflexivity.
Qed.

(** ** The encryption loop *)

Section Loop.

Context {C : Crypto} {KW : KeyWrap} {CL : ContentLib} {H : Host}.
Variable config : Config.

Lemma with_heap_same w : with_heap (heap w) w = w.
Proof. destruct w. reflexivity. Qed.

Lemma get_record_run w l r :
  heap w !! l = Some (ORecord r) -> get_record l w = (w, Done r).
Proof. intros Hl. unfold get_record, bind, load. rewrite Hl. reflexivity. Qed.

Lemma array_get_run w a ls i l :
  heap w !! a = Some (OArray ls) -> ls !! i = Some l ->
  array_get a i w = (w, Done l).
Proof.
  intros Ha Hi. unfold array_get.
  rewrite (bind_done _ _ _ _ _ (get_items_run w a ls Ha)), Hi. reflexivity.
Qed.

(** Writing back the element that is already there changes nothing. *)
Lemma array_set_same w a ls i l :
  heap w !! a = Some (OArray ls) -> ls !! i = Some l ->
  array_set a i l w = (w, Done tt).
Proof.
  intros Ha Hi. unfold array_set.
  rewrite (bind_done _ _ _ _ _ (get_items_run w a ls Ha)).
  unfold store. rewrite list_insert_id by exact Hi.
  rewrite insert_id by exact Ha. rewrite with_heap_same. reflexivity.
Qed.

Lemma set_property_run f w l r :
  heap w !! l = Some (ORecord r) ->
  set_property f l w = (with_heap (<[l := ORecord (f r)]> (heap w)) w, Done tt).
Proof.
  intros Hl. unfold set_property.
  rewrite (bind_done _ _ _ _ _ (get_record_run w l r Hl)). reflexivity.
Qed.

Lemma Content_process_run w l r :
  heap w !! l = Some (ORecord r) ->
  Content_process config l w =
    match process config r with
    | Done x => (with_heap (<[l := ORecord (fst x)]> (heap w)) w, Done (l, snd x))
    | Thrown e => (w, Thrown e)
    | Hang => (w, Hang)
    end.
Proof.
  intros Hl. unfold Content_process.
  rewrite (bind_done _ _ _ _ _ (get_record_run w l r Hl)).
  unfold bind, lift. destruct (process config r) as [x|e|]; reflexivity.
Qed.

(** One pass of the loop on the element [l] at index [i]: no other object
    changes, and the element becomes what [encrypted_record] says. *)
Lemma encryptItem_spec masterKey result i w ls l r :
  heap w !! result = Some (OArray ls) ->
  ls !! i = Some l ->
  heap w !! l = Some (ORecord r) ->
  let run := encryptItem config masterKey result i w in
  (forall l', l' <> l -> heap (fst run) !! l' = heap w !! l')
  /\ match encrypted_record config masterKey (drawn w) r with
     | Done r' =>
         snd run = Done tt
         /\ heap (fst run) !! l = Some (ORecord r')
         /\ drawn (fst run) = drawn w + 56
     | Thrown e => snd run = Thrown e
     | Hang => snd run = Hang
     end.
Proof.
  intros Hres Hi Hl run.
  assert (Hne : l <> result) by (intros ->; congruence).
  unfold encrypted_record.
  assert (Hrun : run = encryptItem config masterKey result i w) by reflexivity.
  clearbody run. unfold encryptItem in Hrun.
  set (dist := Encoding.hex (draw (drawn w) 12)) in *.
  set (w1 := with_drawn (drawn w + 12) w).
  rewrite (bind_done _ _ w w1 (draw (drawn w) 12)) in Hrun by reflexivity.
  fold dist in Hrun.
  set (w2 := with_output (<[dist := []]> (output w1)) w1).
  rewrite (bind_done _ _ w1 w2 dist) in Hrun by reflexivity.
  rewrite (bind_done _ _ w2 w2 l) in Hrun by (eapply array_get_run; eauto).
  unfold bind at 1 in Hrun. rewrite (Content_process_run w2 l r) in Hrun by exact Hl.
  destruct (process config r) as [[r1 inStream]|e|].
  2: { subst run. split; [intros; reflexivity | reflexivity]. }
  2: { subst run. split; [intros; reflexivity | reflexivity]. }
  cbn [fst snd] in Hrun.
  set (w3 := with_heap (<[l := ORecord r1]> (heap w2)) w2) in Hrun.
  assert (Hres3 : heap w3 !! result = Some (OArray ls)).
  { simpl. rewrite lookup_insert_ne by exact Hne. exact Hres. }
  rewrite (bind_done _ _ w3 w3 tt) in Hrun by (eapply array_set_same; eauto).
  unfold bind at 1 in Hrun. rewrite encryptStream_run in Hrun.
  change (drawn w3) with (drawn w + 12) in Hrun.
  set (fileKey := draw (drawn w + 12) 32) in *.
  set (fileIV := draw (drawn w + 12 + 32) 12) in *.
  set (p := pump (kw_encrypt masterKey fileKey) fileKey fileIV
              (schedule inStream (outFault dist))) in *.
  set (w4 := with_output _ _) in Hrun.
  destruct (await (settled p)) as [tagBuf|e|].
  2: { subst run. split; [|reflexivity]. intros l' Hl'. simpl.
       rewrite lookup_insert_ne by congruence. reflexivity. }
  2: { subst run. split; [|reflexivity]. intros l' Hl'. simpl.
       rewrite lookup_insert_ne by congruence. reflexivity. }
  assert (Hres4 : heap w4 !! result = Some (OArray ls)) by exact Hres3.
  assert (Hl4 : heap w4 !! l = Some (ORecord r1)) by apply lookup_insert_eq.
  rewrite (bind_done _ _ w4 w4 l) in Hrun by (eapply array_get_run; eauto).
  set (r2 := ContentFile.set_dist dist r1) in *.
  set (w5 := with_heap (<[l := ORecord r2]> (heap w4)) w4).
  rewrite (bind_done _ _ w4 w5 tt) in Hrun by (eapply set_property_run; eauto).
  assert (Hres5 : heap w5 !! result = Some (OArray ls)).
  { simpl. rewrite !lookup_insert_ne by exact Hne. exact Hres. }
  assert (Hl5 : heap w5 !! l = Some (ORecord r2)) by apply lookup_insert_eq.
  rewrite (bind_done _ _ w5 w5 l) in Hrun by (eapply array_get_run; eauto).
  rewrite (set_property_run _ w5 l r2 Hl5) in Hrun.
  subst run. cbn [fst snd]. split; [|split; [reflexivity|split]].
  - intros l' Hl'. simpl. rewrite !lookup_insert_ne by congruence. reflexivity.
  - simpl. apply lookup_insert_eq.
  - simpl. lia.
Qed.

(** Replacing one object of a list of distinct objects. *)
Lemma records_update (h h' : gmap loc object) ls (xs : list ContentFile.t) i l r' :
  NoDup ls ->
  ls !! i = Some l ->
  Forall2 (fun l r => h !! l = Some (ORecord r)) ls xs ->
  h' !! l = Some (ORecord r') ->
  (forall l', l' <> l -> h' !! l' = h !! l') ->
  Forall2 (fun l r => h' !! l = Some (ORecord r)) ls (<[i := r']> xs).
Proof.
  intros Hnd Hi Hrec Hl Hframe.
  apply Forall2_same_length_lookup in Hrec as [Hlen Hrec].
  apply Forall2_same_length_lookup. split.
  - rewrite length_insert. exact Hlen.
  - intros j x y Hx Hy.
    destruct (decide (j = i)) as [->|Hji].
    + rewrite list_lookup_insert_eq in Hy
        by (rewrite <- Hlen; eapply lookup_lt_Some; eauto).
      congruence.
    + rewrite list_lookup_insert_ne in Hy by congruence.
      assert (x <> l).
      { intros ->. apply Hji. eapply NoDup_lookup; eauto. }
      rewrite Hframe by assumption. eapply Hrec; eauto.
Qed.

(** The loop from index [length done] on: objects outside the array are
    not touched, and the remaining records become what
    [encrypted_records] says, or the loop stops with the first failure. *)
Lemma encrypt_loop masterKey result ls todo :
  forall done w,
    NoDup ls ->
    heap w !! result = Some (OArray ls) ->
    Forall2 (fun l r => heap w !! l = Some (ORecord r)) ls (done ++ todo) ->
    let run := for_each (seq (length done) (length todo))
                 (encryptItem config masterKey result) w in
    (forall l', l' ∉ ls -> heap (fst run) !! l' = heap w !! l')
    /\ match encrypted_records config masterKey (drawn w) todo with
       | Done todo' =>
           snd run = Done tt
           /\ Forall2 (fun l r => heap (fst run) !! l = Some (ORecord r))
                ls (done ++ todo')
           /\ drawn (fst run) = drawn w + 56 * length todo
       | Thrown e => snd run = Thrown e
       | Hang => snd run = Hang
       end.
Proof.
  induction todo as [|r rest IH]; intros done w Hnd Hres Hrec run.
  - subst run. simpl. split; [reflexivity|].
    split; [reflexivity|]. split; [exact Hrec | lia].
  - assert (Hi : exists l, ls !! length done = Some l
                           /\ heap w !! l = Some (ORecord r)).
    { pose proof (Forall2_length _ _ _ Hrec) as Hlen.
      rewrite length_app in Hlen. simpl in Hlen.
      destruct (lookup_lt_is_Some_2 ls (length done)) as [l Hl]; [lia|].
      exists l. split; [exact Hl|].
      destruct (Forall2_lookup_l _ _ _ _ _ Hrec Hl) as (y & Hy & Hly).
      rewrite lookup_app_r in Hy by lia.
      rewrite Nat.sub_diag in Hy. injection Hy as <-. exact Hly. }
    destruct Hi as (l & Hi & Hl).
    assert (Hin : l ∈ ls) by (eapply list_elem_of_lookup_2; eauto).
    destruct (encryptItem_spec masterKey result (length done) w ls l r
                Hres Hi Hl) as [Hframe Hitem].
    subst run. cbn [length seq for_each encrypted_records].
    destruct (encryptItem config masterKey result (length done) w)
      as [w1 o] eqn:Hrun.
    cbn [fst snd] in Hframe, Hitem.
    destruct (encrypted_record config masterKey (drawn w) r) as [r'|e|].
    2: { subst o. rewrite (bind_thrown _ _ _ _ _ Hrun). cbn [fst snd].
         split; [|reflexivity]. intros l' Hl'. apply Hframe.
         intros ->. contradiction. }
    2: { subst o. rewrite (bind_hang _ _ _ _ Hrun). cbn [fst snd].
         split; [|reflexivity]. intros l' Hl'. apply Hframe.
         intros ->. contradiction. }
    destruct Hitem as (-> & Hl1 & Hd1).
    rewrite (bind_done _ _ _ _ _ Hrun).
    assert (Hres1 : heap w1 !! result = Some (OArray ls)).
    { rewrite Hframe; [exact Hres|]. intros ->. congruence. }
    assert (Hrec1 : Forall2 (fun l r => heap w1 !! l = Some (ORecord r))
                      ls ((done ++ [r']) ++ rest)).
    { rewrite <- app_assoc. cbn [app].
      replace (done ++ r' :: rest)
        with (<[length done := r']> (done ++ r :: rest)).
      - eapply records_update; eauto.
      - replace (length done) with (length done + 0) at 1 by lia.
        rewrite insert_app_r. reflexivity. }
    specialize (IH (done ++ [r']) w1 Hnd Hres1 Hrec1).
    rewrite length_app, Nat.add_comm in IH. cbn [length Nat.add] in IH.
    destruct IH as [Hframe' Hloop]. rewrite Hd1 in Hloop.
    split.
    + intros l' Hl'. rewrite Hframe' by exact Hl'. apply Hframe.
      intros ->. contradiction.
    + destruct (encrypted_records config masterKey (drawn w + 56) rest)
        as [rest'|e|]; [|exact Hloop|exact Hloop].
      destruct Hloop as (Hdone & Hrec' & Hd').
      split; [exact Hdone|]. split.
      * rewrite <- app_assoc in Hrec'. exact Hrec'.
      * rewrite Hd'. lia.
Qed.

End Loop.

(** ** The stages of a build *)

Section Stages.

Context {C : Crypto} {KW : KeyWrap} {CL : ContentLib} {H : Host}.
Variable passphrase : string.
Variable config : Config.

(** Key derivation does not touch the world, and its answer depends on
    the configuration and its two arguments only. *)
Lemma deriveKey_pure secret salt w :
  _deriveKey config secret salt w =
    (w, snd (_deriveKey config secret salt (new_Builder ∅))).
Proof.
  unfold _deriveKey.
  destruct (String.eqb (kdf config) "pbkdf2"); [reflexivity|].
  destruct (String.eqb (kdf config) "argon2"); reflexivity.
Qed.


(** Steps 1 to 4, case by case. *)
Lemma prepare_cases w :
  (exists e, cleanFault = Some e /\ prepare passphrase config w = (w, Thrown e))
  \/ (cleanFault = None
      /\ exists e, scanFolder "" contentRoot [] = Thrown e
         /\ prepare passphrase config w = (with_output ∅ w, Thrown e))
  \/ (cleanFault = None
      /\ exists h ls content,
         scanFolder "" contentRoot [] = Done (walk "" contentRoot)
         /\ heap w ⊆ h
         /\ heap w !! content = None
         /\ h !! content = Some (OArray ls)
         /\ Forall (fun l => heap w !! l = None) ls
         /\ NoDup ls
         /\ Forall2 (fun l r => h !! l = Some (ORecord r)) ls (walk "" contentRoot)
         /\ prepare passphrase config w =
              (salted h w,
               match snd (_deriveKey config (passphrase +:+ appToken config)
                            (draw (drawn w) 64) (new_Builder ∅)) with
               | Done masterKey => Done (content, masterKey)
               | Thrown e => Thrown e
               | Hang => Hang
               end)).
Proof.
  assert (Hclean : forall e, cleanFault = Some e ->
            CleanDirectory (distDir config) w = (w, Thrown e)).
  { intros e He. unfold CleanDirectory. rewrite He. reflexivity. }
  assert (Hclean' : cleanFault = None ->
            CleanDirectory (distDir config) w = (with_output ∅ w, Done tt)).
  { intros He. unfold CleanDirectory. rewrite He. reflexivity. }
  unfold prepare.
  destruct cleanFault as [e|].
  { left. exists e. split; [reflexivity|].
    apply bind_thrown. apply Hclean. reflexivity. }
  right. rewrite (bind_done _ _ _ _ _ (Hclean' eq_refl)).
  unfold _scanContent.
  destruct (scanFolder "" contentRoot []) as [rs|e|] eqn:Hscan.
  - right. split; [reflexivity|].
    pose proof (scanFolder_done _ _ _ _ Hscan) as Hrs. simpl in Hrs. subst rs.
    destruct (new_content_spec (walk "" contentRoot) (with_output ∅ w))
      as (h & ls & a & Hnew & Hsub & Hfresh & Ha & Hls & Hnd & Hrec).
    exists h, ls, a. split; [reflexivity|].
    repeat (split; [assumption|]).
    rewrite (bind_done _ _ _ (with_heap h (with_output ∅ w)) a).
    2: { rewrite (bind_done _ _ _ (with_output ∅ w) (walk "" contentRoot))
           by reflexivity. exact Hnew. }
    rewrite (bind_done _ _ _ _ _ eq_refl).
    rewrite (bind_done _ _ _ _ _ eq_refl).
    unfold bind. rewrite deriveKey_pure. cbn [fst snd].
    destruct (snd (_deriveKey _ _ _ _)); reflexivity.
  - left. split; [reflexivity|]. exists e. split; [reflexivity|].
    apply bind_thrown. apply bind_thrown. reflexivity.
  - contradiction (scanFolder_settles _ _ _ Hscan).
Qed.

(** [build] is [prepare] followed by [finish]. *)
Lemma build_stages w :
  build passphrase config w =
    (x <- prepare passphrase config ;; finish config (fst x) (snd x)) w.
Proof.
  unfold build, prepare, finish, bind.
  destruct (CleanDirectory _ w) as [w1 [[]|e|]]; try reflexivity.
  destruct (_scanContent w1) as [w2 [content|e|]]; try reflexivity.
  destruct (randomBytes 64 w2) as [w3 [salt|e|]]; try reflexivity.
  destruct (set_keySalt _ w3) as [w4 [[]|e|]]; try reflexivity.
  destruct (_deriveKey _ _ _ w4) as [w5 [masterKey|e|]]; reflexivity.
Qed.

End Stages.

(** ** Key derivation and the configuration error *)

Section Derive.

Context {C : Crypto} {KW : KeyWrap} {CL : ContentLib} {H : Host}.
Variable passphrase : string.
Variable config : Config.

(** C2. With the selector [pbkdf2] the derived key is the 32-byte output
    of PBKDF2 with SHA-512 and the configured iteration count; with the
    selector [argon2] it is the 32-byte Argon2id hash with time cost 1,
    parallelism 1 and the configured memory cost. In a build the secret is
    the passphrase followed by the configured token, and the salt is the
    64 random bytes drawn for this build and kept in [keySalt]. *)
Theorem deriveKey_selected {L : CryptoLengths C} :
  (kdf config = "pbkdf2" -> forall secret salt w,
     _deriveKey config secret salt w =
       (w, Done (pbkdf2 secret salt (pbkdf2_iterations config) 32 "sha512"))
     /\ length (pbkdf2 secret salt (pbkdf2_iterations config) 32 "sha512") = 32)
  /\ (kdf config = "argon2" -> forall secret salt w,
     let options := {| pass := secret; salt := salt; type := Argon2id;
                       time := 1; mem := argon2_memory config;
                       hashLen := 32; parallelism := 1 |} in
     _deriveKey config secret salt w = (w, Done (argon2_hash options))
     /\ length (argon2_hash options) = 32)
  /\ (forall w w1 content masterKey,
     prepare passphrase config w = (w1, Done (content, masterKey)) ->
     let salt := draw (drawn w) 64 in
     length salt = 64
     /\ keySalt (this w1) = VBuffer salt
     /\ _deriveKey config (passphrase +:+ appToken config) salt w1 =
          (w1, Done masterKey)
     /\ length masterKey = 32)
  /\ (forall w,
     build passphrase config w =
       (x <- prepare passphrase config ;; finish config (fst x) (snd x)) w).
Proof.
  split; [|split; [|split]].
  - intros Hk secret salt w. split; [|apply pbkdf2_length].
    unfold _deriveKey. rewrite Hk. reflexivity.
  - intros Hk secret salt w options. split; [|apply argon2_length].
    unfold _deriveKey. rewrite Hk. reflexivity.
  - intros w w1 content masterKey Hprep salt.
    destruct (prepare_cases passphrase config w)
      as [(e & _ & Hrun)|[(_ & e & _ & Hrun)|(_ & h & ls & a & _ & _ & _ & _ & _ & _ & _ & Hrun)]];
      rewrite Hrun in Hprep; try discriminate Hprep.
    injection Hprep as <- Hkey.
    split; [apply draw_length|]. split; [reflexivity|].
    fold salt in Hkey.
    assert (Hd : snd (_deriveKey config (passphrase +:+ appToken config) salt
                        (new_Builder ∅)) = Done masterKey).
    { destruct (snd (_deriveKey _ _ _ _)); congruence. }
    split; [rewrite deriveKey_pure, Hd; reflexivity|].
    revert Hd. unfold _deriveKey.
    destruct (String.eqb (kdf config) "pbkdf2").
    { intros [= <-]. apply pbkdf2_length. }
    destruct (String.eqb (kdf config) "argon2").
    { intros [= <-]. apply argon2_length. }
    discriminate.
  - apply build_stages.
Qed.


End Derive.

Section DeriveRuns.

#[local] Existing Instances Sample.crypto Sample.keywrap Sample.contentlib Sample.host.



End DeriveRuns.

(** ** Encrypting the content and writing the index *)

Section Content.

Context {C : Crypto} {KW : KeyWrap} {CL : ContentLib} {H : Host}.
Variable config : Config.

(** [_encryptContent] on a well-formed list: every object that existed
    before is left as it was, and the outcome is a new array of new objects
    holding what [encrypted_records] says, or the first failure. *)
Lemma encryptContent_spec masterKey content w rs :
  content_at (heap w) content = Some rs ->
  let run := _encryptContent config masterKey content w in
  heap w ⊆ heap (fst run)
  /\ match encrypted_records config masterKey (drawn w) rs with
     | Done rs' =>
         exists result ls,
           snd run = Done result
           /\ heap w !! result = None
           /\ heap (fst run) !! result = Some (OArray ls)
           /\ Forall (fun l => heap w !! l = None) ls
           /\ content_at (heap (fst run)) result = Some rs'
           /\ drawn (fst run) = drawn w + 56 * length rs
     | Thrown e => snd run = Thrown e
     | Hang => snd run = Hang
     end.
Proof.
  intros Hc run.
  assert (Hrun : run = _encryptContent config masterKey content w) by reflexivity.
  clearbody run. unfold _encryptContent, JSON_clone in Hrun.
  destruct (new_content_spec rs w)
    as (h & ls & a & Hnew & Hsub & Hfresh & Ha & Hls & Hnd & Hrec).
  set (w1 := with_heap h w) in *.
  rewrite (bind_done _ _ w w1 a) in Hrun.
  2: { rewrite (bind_done _ _ _ _ _ (read_content_run w content rs Hc)).
       rewrite to_content_of_content. exact Hnew. }
  rewrite (bind_done _ _ _ _ _ (get_items_run w1 a ls Ha)) in Hrun.
  pose proof (Forall2_length _ _ _ Hrec) as Hlen. rewrite Hlen in Hrun.
  destruct (encrypt_loop config masterKey a ls rs [] w1 Hnd Ha Hrec)
    as [Hframe Hloop].
  cbn [length app] in Hframe, Hloop.
  change (drawn w1) with (drawn w) in Hloop.
  destruct (for_each (seq 0 (length rs)) (encryptItem config masterKey a) w1)
    as [w2 o] eqn:Hfor.
  cbn [fst snd] in Hframe, Hloop.
  assert (Hold : heap w ⊆ heap w2).
  { apply map_subseteq_spec. intros l x Hl.
    rewrite Hframe.
    - eapply lookup_weaken; [exact Hl | exact Hsub].
    - intros Hin.
      pose proof (proj1 (Forall_forall _ _) Hls l Hin) as Hnone.
      simpl in Hnone. congruence. }
  assert (Hbind : run = (w2, match o with
                             | Done _ => Done a
                             | Thrown e => Thrown e
                             | Hang => Hang
                             end)).
  { rewrite Hrun. unfold bind. rewrite Hfor. destruct o as [[]|e|]; reflexivity. }
  rewrite Hbind. cbn [fst snd]. split; [exact Hold|].
  destruct (encrypted_records config masterKey (drawn w) rs) as [rs'|e|].
  - destruct Hloop as (-> & Hrec' & Hd).
    assert (Ha2 : heap w2 !! a = Some (OArray ls)).
    { rewrite Hframe; [exact Ha|]. intros Hin.
      apply list_elem_of_lookup in Hin as [i Hi].
      destruct (Forall2_lookup_l _ _ _ _ _ Hrec Hi) as (r & _ & Hr).
      simpl in Hr. congruence. }
    exists a, ls. split; [reflexivity|]. split; [exact Hfresh|].
    split; [exact Ha2|]. split; [exact Hls|].
    split; [eapply content_at_intro; eauto | exact Hd].
  - rewrite Hloop. reflexivity.
  - rewrite Hloop. reflexivity.
Qed.

(** What [encrypted_records] gives: same length, each record enriched and
    complete, in the order of the input. *)
Lemma encrypted_record_enriched masterKey pos r r' :
  encrypted_record config masterKey pos r = Done r' ->
  enriched config r r' /\ complete r'
  /\ ContentFile.dist r' = Some (Encoding.hex (draw pos 12)).
Proof.
  unfold encrypted_record.
  destruct (process config r) as [[r1 inStream]|e|] eqn:Hp; try discriminate.
  destruct (await _) as [tagBuf|e|]; try discriminate.
  intros [= <-]. split; [|split].
  - exists r1, inStream. eauto.
  - split; simpl; eauto.
  - reflexivity.
Qed.

Lemma encrypted_records_enriched masterKey rs :
  forall pos rs',
    encrypted_records config masterKey pos rs = Done rs' ->
    Forall2 (enriched config) rs rs'
    /\ Forall complete rs'
    /\ map ContentFile.dist rs' =
         map (fun i => Some (Encoding.hex (draw (pos + 56 * i) 12)))
           (seq 0 (length rs)).
Proof.
  induction rs as [|r rs IH]; intros pos rs' Hrs; simpl in Hrs.
  - injection Hrs as <-. repeat constructor.
  - destruct (encrypted_record config masterKey pos r) as [r1|e|] eqn:Hr;
      try discriminate.
    destruct (encrypted_records config masterKey (pos + 56) rs) as [rs1|e|]
      eqn:Hrest; try discriminate.
    injection Hrs as <-.
    destruct (encrypted_record_enriched _ _ _ _ Hr) as (He & Hc & Hd).
    destruct (IH _ _ Hrest) as (He' & Hc' & Hd').
    split; [constructor; assumption|]. split; [constructor; assumption|].
    cbn [length seq map]. rewrite Hd, Hd'. f_equal.
    + rewrite Nat.mul_0_r, Nat.add_0_r. reflexivity.
    + rewrite <- seq_shift, map_map. apply map_ext. intros i.
      do 3 f_equal. lia.
Qed.

(** The index builder on a well-formed list: the plaintext is the
    serialization of the list, and the call gives the tag of its
    encryption or fails with the stream. Objects are not touched. *)
Lemma createIndex_spec masterKey content w rs :
  content_at (heap w) content = Some rs ->
  let run := _createIndex masterKey content w in
  indexData content w = (w, Done (JSON.stringify rs))
  /\ heap (fst run) = heap w
  /\ this (fst run) = this w
  /\ snd run =
       snd (_encryptStream masterKey
              {| chunks := [Encoding.utf8 (JSON.stringify rs)]; failure := None |}
              "_index" w).
Proof.
  intros Hc run.
  assert (Hdata : indexData content w = (w, Done (JSON.stringify rs))).
  { unfold indexData.
    rewrite (bind_done _ _ _ _ _ (read_content_run w content rs Hc)).
    reflexivity. }
  split; [exact Hdata|].
  subst run. unfold _createIndex.
  rewrite (bind_done _ _ _ _ _ Hdata).
  rewrite (bind_done _ _ _ _ _ eq_refl).
  rewrite !encryptStream_run. cbn [fst snd]. auto.
Qed.

(** The plaintext of the index: the index builder is the stream cipher
    run on the one-chunk stream of the serialized list, into the file
    [_index]. *)
Lemma createIndex_stream masterKey content w rs :
  content_at (heap w) content = Some rs ->
  _createIndex masterKey content w =
    (outStream <- createWriteStream "_index" ;;
     _encryptStream masterKey
       {| chunks := [Encoding.utf8 (JSON.stringify rs)]; failure := None |}
       outStream) w.
Proof.
  intros Hc. unfold _createIndex, indexData.
  rewrite (bind_done _ _ _ _ _
             (bind_done _ _ _ _ _ (read_content_run w content rs Hc))).
  reflexivity.
Qed.

End Content.

(** ** The reader reads what [JSON.stringify] writes *)

Lemma length_list_ascii_of_string s :
  length (list_ascii_of_string s) = String.length s.
Proof. induction s as [|c s IH]; simpl; [reflexivity | by rewrite IH]. Qed.

Lemma chars_escape c t :
  Reader.chars (JSON.escape_char c ++ t) =
    match Reader.chars t with
    | Some (s, r) => Some (c :: s, r)
    | None => None
    end.
Proof. destruct c as [[] [] [] [] [] [] [] []]; reflexivity. Qed.

Lemma chars_escaped cs r :
  Reader.chars (concat (map JSON.escape_char cs) ++ JSON.dquote :: r) =
    Some (cs, r).
Proof.
  induction cs as [|c cs IH]; cbn [map concat app]; [reflexivity|].
  rewrite <- app_assoc, chars_escape, IH. reflexivity.
Qed.

Lemma list_of_quote s :
  list_ascii_of_string (JSON.quote s) =
    JSON.dquote :: concat (map JSON.escape_char (list_ascii_of_string s))
                   ++ [JSON.dquote].
Proof.
  unfold JSON.quote. cbn [list_ascii_of_string].
  rewrite list_ascii_of_append, list_ascii_of_string_of_list_ascii. reflexivity.
Qed.

Lemma digits_all ds r :
  forallb Reader.is_digit ds = true -> Reader.stops r = true ->
  Reader.digits (ds ++ r) = (ds, r).
Proof.
  intros Hds Hr. induction ds as [|d ds IH]; cbn [app Reader.digits].
  - destruct r as [|c r]; [reflexivity|]. cbn [Reader.stops] in Hr.
    apply negb_true_iff in Hr. cbn [Reader.digits]. rewrite Hr. reflexivity.
  - cbn [forallb] in Hds. apply andb_true_iff in Hds as [Hd Hds].
    rewrite Hd, (IH Hds). reflexivity.
Qed.

Lemma uint_digits d :
  forallb Reader.is_digit (list_ascii_of_string (NilEmpty.string_of_uint d)) = true.
Proof. induction d; simpl; auto. Qed.

Lemma to_uint_nonnil n : N.to_uint n <> Decimal.Nil.
Proof. destruct n; [discriminate | apply Unsigned.to_uint_nonnil]. Qed.

Lemma number_digits n :
  forallb Reader.is_digit (list_ascii_of_string (JSON.number n)) = true.
Proof.
  unfold JSON.number, NilZero.string_of_uint.
  pose proof (uint_digits (N.to_uint n)) as Hd.
  destruct (N.to_uint n); [reflexivity | exact Hd ..].
Qed.

Lemma number_head n :
  exists c t,
    list_ascii_of_string (JSON.number n) = c :: t /\ Reader.is_digit c = true.
Proof.
  pose proof (number_digits n) as Hd.
  pose proof (to_uint_nonnil n) as Hn.
  unfold JSON.number, NilZero.string_of_uint in *.
  destruct (N.to_uint n); [contradiction | ..];
    cbn [NilEmpty.string_of_uint list_ascii_of_string forallb] in *;
    apply andb_true_iff in Hd as [Hc _]; eauto.
Qed.

Lemma read_number n r :
  Reader.stops r = true ->
  Reader.number (list_ascii_of_string (JSON.number n) ++ r) = Some (n, r).
Proof.
  intros Hr. unfold Reader.number.
  rewrite (digits_all _ _ (number_digits n) Hr).
  rewrite string_of_list_ascii_of_string. unfold JSON.number.
  rewrite (NilZero.usu _ (to_uint_nonnil n)), DecimalN.Unsigned.of_to.
  reflexivity.
Qed.

Lemma scalar_print v r :
  Reader.flat v = true -> Reader.stops r = true ->
  Reader.scalar (list_ascii_of_string (JSON.print v) ++ r) = Some (v, r).
Proof.
  intros Hv Hr. destruct v as [n|s|fs|vs]; try discriminate Hv;
    cbn [JSON.print].
  - destruct (number_head n) as (c & t & Hn & Hc).
    pose proof (read_number n r Hr) as Hread.
    rewrite Hn in *. cbn [app] in *. unfold Reader.scalar.
    destruct (Ascii.eqb_spec c JSON.dquote) as [->|_]; [discriminate Hc|].
    rewrite Hread. reflexivity.
  - rewrite list_of_quote. cbn [app]. rewrite <- app_assoc. cbn [app].
    unfold Reader.scalar.
    replace (Ascii.eqb JSON.dquote JSON.dquote) with true by reflexivity.
    rewrite chars_escaped, string_of_list_ascii_of_string. reflexivity.
Qed.

Lemma join_cons2 sep (x y : string) l :
  JSON.join sep (x :: y :: l) = x +:+ sep +:+ JSON.join sep (y :: l).
Proof. reflexivity. Qed.

(** A joined text is at least as long as the number of its parts when no
    part is empty. *)
Lemma join_length {A} (f : A -> string) sep l :
  (forall x, 1 <= String.length (f x)) ->
  length l <= String.length (JSON.join sep (map f l)).
Proof.
  intros Hf. induction l as [|x l IH]; [simpl; lia|].
  destruct l as [|y l].
  - cbn [map JSON.join length]. apply Hf.
  - cbn [map]. rewrite join_cons2.
    rewrite <- !length_list_ascii_of_string, !list_ascii_of_append, !length_app.
    rewrite !length_list_ascii_of_string. cbn [map length] in *.
    pose proof (Hf x). lia.
Qed.

Lemma field_text_chars key v :
  list_ascii_of_string (JSON.quote key +:+ ":" +:+ JSON.print v) =
    JSON.dquote
    :: concat (map JSON.escape_char (list_ascii_of_string key))
       ++ JSON.dquote :: ":"%char :: list_ascii_of_string (JSON.print v).
Proof.
  rewrite !list_ascii_of_append, list_of_quote. cbn [app list_ascii_of_string].
  rewrite <- app_assoc. reflexivity.
Qed.

Lemma fields_step fuel key v s rest :
  Reader.flat v = true -> Reader.is_digit s = false ->
  Reader.fields (S fuel)
    (list_ascii_of_string (JSON.quote key +:+ ":" +:+ JSON.print v) ++ s :: rest) =
    if Ascii.eqb s ","%char then
      match Reader.fields fuel rest with
      | Some (fs, r) => Some ((key, v) :: fs, r)
      | None => None
      end
    else if Ascii.eqb s "}"%char then Some ([(key, v)], rest)
    else None.
Proof.
  intros Hv Hs. rewrite field_text_chars. cbn [app Reader.fields].
  replace (Ascii.eqb JSON.dquote JSON.dquote) with true by reflexivity.
  rewrite <- app_assoc. cbn [app]. rewrite chars_escaped.
  replace (Ascii.eqb ":" ":") with true by reflexivity.
  rewrite scalar_print; [|exact Hv|cbn [Reader.stops]; rewrite Hs; reflexivity].
  rewrite string_of_list_ascii_of_string. reflexivity.
Qed.

Lemma fields_print fs :
  forall fuel r,
    fs <> [] ->
    forallb (fun kv => Reader.flat (snd kv)) fs = true ->
    length fs <= fuel ->
    Reader.fields fuel
      (list_ascii_of_string
         (JSON.join ","
            (map (fun kv => JSON.quote (fst kv) +:+ ":" +:+ JSON.print (snd kv)) fs))
       ++ "}"%char :: r) = Some (fs, r).
Proof.
  induction fs as [|[key v] fs IH]; intros fuel r Hne Hflat Hfuel;
    [contradiction|].
  cbn [forallb snd] in Hflat. apply andb_true_iff in Hflat as [Hv Hflat].
  destruct fuel as [|fuel]; [simpl in Hfuel; lia|].
  destruct fs as [|kv fs].
  - cbn [map JSON.join fst snd]. rewrite fields_step by (exact Hv || reflexivity).
    reflexivity.
  - cbn [map]. rewrite join_cons2. cbn [fst snd].
    rewrite list_ascii_of_append, <- app_assoc.
    rewrite (list_ascii_of_append ","). cbn [list_ascii_of_string app].
    rewrite fields_step by (exact Hv || reflexivity).
    replace (Ascii.eqb "," ",") with true by reflexivity.
    change (JSON.join "," (_ :: map _ fs))
      with (JSON.join ","
              (map (fun kv => JSON.quote (fst kv) +:+ ":" +:+ JSON.print (snd kv))
                 (kv :: fs))).
    rewrite IH; [reflexivity | discriminate | exact Hflat |].
    cbn [length] in *. lia.
Qed.

Lemma field_text_length (kv : string * JSON.value) :
  1 <= String.length (JSON.quote (fst kv) +:+ ":" +:+ JSON.print (snd kv)).
Proof.
  rewrite <- length_list_ascii_of_string, field_text_chars. simpl. lia.
Qed.

Lemma fields_head kv fs :
  exists X,
    list_ascii_of_string
      (JSON.join ","
         (map (fun kv => JSON.quote (fst kv) +:+ ":" +:+ JSON.print (snd kv))
            (kv :: fs))) = JSON.dquote :: X.
Proof.
  destruct fs as [|kv' fs]; cbn [map].
  - cbn [JSON.join]. rewrite field_text_chars. eauto.
  - rewrite join_cons2, list_ascii_of_append, field_text_chars. cbn [app]. eauto.
Qed.

Lemma object_chars fs :
  list_ascii_of_string (JSON.print (JSON.Obj fs)) =
    "{"%char
    :: list_ascii_of_string
         (JSON.join ","
            (map (fun kv => JSON.quote (fst kv) +:+ ":" +:+ JSON.print (snd kv)) fs))
       ++ ["}"%char].
Proof.
  cbn [JSON.print].
  rewrite (list_ascii_of_append "{"), list_ascii_of_append. reflexivity.
Qed.

Lemma object_print fs rest :
  forallb (fun kv => Reader.flat (snd kv)) fs = true ->
  Reader.object (list_ascii_of_string (JSON.print (JSON.Obj fs)) ++ rest) =
    Some (JSON.Obj fs, rest).
Proof.
  intros Hflat. destruct fs as [|kv fs]; [reflexivity|].
  rewrite object_chars. cbn [app]. rewrite <- app_assoc. cbn [app].
  destruct (fields_head kv fs) as [X HX].
  set (J := list_ascii_of_string _) in *.
  assert (HT : J ++ "}"%char :: rest = JSON.dquote :: (X ++ "}"%char :: rest))
    by (rewrite HX; reflexivity).
  assert (Hlen : length (kv :: fs) <= length ("{"%char :: J ++ "}"%char :: rest)).
  { cbn [length]. rewrite length_app. subst J.
    rewrite length_list_ascii_of_string.
    pose proof (join_length
                  (fun kv => JSON.quote (fst kv) +:+ ":" +:+ JSON.print (snd kv))
                  "," (kv :: fs) field_text_length) as Hj.
    cbn [length] in Hj. lia. }
  pose proof (fields_print (kv :: fs) _ rest ltac:(discriminate) Hflat Hlen) as Hf.
  fold J in Hf. rewrite HT in *. unfold Reader.object.
  replace (Ascii.eqb "{" "{") with true by reflexivity.
  replace (Ascii.eqb JSON.dquote "}") with false by reflexivity.
  rewrite Hf. reflexivity.
Qed.

Lemma object_text_length v :
  Reader.flat_object v = true -> 1 <= String.length (JSON.print v).
Proof.
  destruct v as [n|s|fs|vs]; try discriminate. intros _.
  rewrite <- length_list_ascii_of_string, object_chars. simpl. lia.
Qed.

Lemma items_step fuel v s rest :
  Reader.flat_object v = true ->
  Reader.items (S fuel) (list_ascii_of_string (JSON.print v) ++ s :: rest) =
    if Ascii.eqb s ","%char then
      match Reader.items fuel rest with
      | Some (vs, r) => Some (v :: vs, r)
      | None => None
      end
    else if Ascii.eqb s "]"%char then Some ([v], rest)
    else None.
Proof.
  intros Hv. destruct v as [n|x|fs|vs]; try discriminate Hv.
  cbn [Reader.items]. rewrite object_print by exact Hv. reflexivity.
Qed.

Lemma items_print vs :
  forall fuel r,
    vs <> [] ->
    forallb Reader.flat_object vs = true ->
    length vs <= fuel ->
    Reader.items fuel
      (list_ascii_of_string (JSON.join "," (map JSON.print vs)) ++ "]"%char :: r) =
      Some (vs, r).
Proof.
  induction vs as [|v vs IH]; intros fuel r Hne Hflat Hfuel; [contradiction|].
  cbn [forallb] in Hflat. apply andb_true_iff in Hflat as [Hv Hflat].
  destruct fuel as [|fuel]; [simpl in Hfuel; lia|].
  destruct vs as [|v' vs].
  - cbn [map JSON.join]. rewrite items_step by exact Hv. reflexivity.
  - cbn [map]. rewrite join_cons2.
    rewrite list_ascii_of_append, <- app_assoc.
    rewrite (list_ascii_of_append ","). cbn [list_ascii_of_string app].
    rewrite items_step by exact Hv.
    replace (Ascii.eqb "," ",") with true by reflexivity.
    change (JSON.join "," (_ :: map _ vs))
      with (JSON.join "," (map JSON.print (v' :: vs))).
    rewrite IH; [reflexivity | discriminate | exact Hflat |].
    cbn [length] in *. lia.
Qed.

Lemma items_head v vs :
  Reader.flat_object v = true ->
  exists X,
    list_ascii_of_string (JSON.join "," (map JSON.print (v :: vs))) =
      "{"%char :: X.
Proof.
  intros Hv. destruct v as [n|x|fs|ws]; try discriminate Hv.
  destruct vs as [|v' vs]; cbn [map].
  - cbn [JSON.join]. rewrite object_chars. eauto.
  - rewrite join_cons2, list_ascii_of_append, object_chars. cbn [app]. eauto.
Qed.

(** An array of objects of strings and numbers is read back from its
    text. *)
Lemma read_print vs :
  forallb Reader.flat_object vs = true ->
  Reader.read (JSON.print (JSON.Arr vs)) = Some (JSON.Arr vs).
Proof.
  intros Hflat. destruct vs as [|v vs]; [reflexivity|].
  assert (Hv : Reader.flat_object v = true).
  { cbn [forallb] in Hflat. apply andb_true_iff in Hflat as [Hv _]. exact Hv. }
  unfold Reader.read.
  assert (Hlen : length (v :: vs) <= String.length (JSON.print (JSON.Arr (v :: vs)))).
  { cbn [JSON.print].
    rewrite <- length_list_ascii_of_string, (list_ascii_of_append "["),
      list_ascii_of_append, !length_app, !length_list_ascii_of_string.
    assert (Hj : length (v :: vs) <=
                 String.length (JSON.join "," (map JSON.print (v :: vs)))).
    { clear Hv. revert Hflat. generalize (v :: vs). intros l Hl.
      induction l as [|x l IHl]; [simpl; lia|].
      cbn [forallb] in Hl. apply andb_true_iff in Hl as [Hx Hl].
      destruct l as [|y l].
      - cbn [map JSON.join length]. apply object_text_length, Hx.
      - cbn [map]. rewrite join_cons2.
        rewrite <- !length_list_ascii_of_string, !list_ascii_of_append, !length_app.
        rewrite !length_list_ascii_of_string.
        pose proof (object_text_length x Hx). specialize (IHl Hl).
        cbn [map length] in *. lia. }
    lia. }
  pose proof (items_print (v :: vs) _ [] ltac:(discriminate) Hflat Hlen) as Hitems.
  destruct (items_head v vs Hv) as [X HX].
  set (fuel := String.length _) in *.
  assert (Htext : list_ascii_of_string (JSON.print (JSON.Arr (v :: vs))) =
                  "["%char
                  :: list_ascii_of_string (JSON.join "," (map JSON.print (v :: vs)))
                     ++ ["]"%char]).
  { cbn [JSON.print].
    rewrite (list_ascii_of_append "["), list_ascii_of_append. reflexivity. }
  rewrite Htext. rewrite HX in *. cbn [app] in *.
  replace (Ascii.eqb "[" "[") with true by reflexivity.
  replace (Ascii.eqb "{" "]") with false by reflexivity.
  rewrite Hitems. reflexivity.
Qed.

Lemma of_record_flat r : Reader.flat_object (JSON.of_record r) = true.
Proof.
  destruct r as [p n [d|] [pr|] [di|] [t|]]; reflexivity.
Qed.

(** The text of a content list reads back as that list, record by record
    and in the same order. *)
Lemma content_stringify rs : Reader.content (JSON.stringify rs) = Some rs.
Proof.
  unfold Reader.content, JSON.stringify, JSON.of_content.
  rewrite read_print.
  - apply to_content_of_content.
  - induction rs as [|r rs IH]; [reflexivity|].
    cbn [map forallb]. rewrite of_record_flat. exact IH.
Qed.

(** ** The pipeline *)

Section Pipeline.

Context {C : Crypto} {KW : KeyWrap} {CL : ContentLib} {H : Host}.
Variable passphrase : string.
Variable config : Config.

(** After steps 1 to 4 the scanned list is in the store, in the order of
    the traversal. *)
Lemma prepare_done w w1 content masterKey :
  prepare passphrase config w = (w1, Done (content, masterKey)) ->
  scanFolder "" contentRoot [] = Done (walk "" contentRoot)
  /\ content_at (heap w1) content = Some (walk "" contentRoot)
  /\ heap w !! content = None
  /\ drawn w1 = drawn w + 64.
Proof.
  intros Hprep.
  destruct (prepare_cases passphrase config w)
    as [(e & _ & Hrun)|[(_ & e & _ & Hrun)|(_ & h & ls & a & Hs & _ & Hfresh & Ha & _ & _ & Hrec & Hrun)]];
    rewrite Hrun in Hprep; try discriminate Hprep.
  injection Hprep as <- Hkey.
  assert (a = content) as <-.
  { destruct (snd (_deriveKey _ _ _ _)); congruence. }
  split; [exact Hs|]. split; [|split; [exact Hfresh | reflexivity]].
  eapply content_at_intro; [exact Ha | exact Hrec].
Qed.

Lemma build_after_prepare w w1 content masterKey :
  prepare passphrase config w = (w1, Done (content, masterKey)) ->
  build passphrase config w = finish config content masterKey w1.
Proof.
  intros Hprep. rewrite build_stages, (bind_done _ _ _ _ _ Hprep). reflexivity.
Qed.

(** The list handed to the index builder, seen from the start of the
    encryption stage. *)
Lemma encryptContent_done masterKey content w rs w2 result :
  content_at (heap w) content = Some rs ->
  _encryptContent config masterKey content w = (w2, Done result) ->
  exists final ls,
    encrypted_records config masterKey (drawn w) rs = Done final
    /\ content_at (heap w2) result = Some final
    /\ heap w ⊆ heap w2
    /\ heap w !! result = None
    /\ heap w2 !! result = Some (OArray ls)
    /\ Forall (fun l => heap w !! l = None) ls.
Proof.
  intros Hc Hrun.
  destruct (encryptContent_spec config masterKey content w rs Hc) as [Hsub Hres].
  rewrite Hrun in Hsub, Hres. cbn [fst snd] in Hsub, Hres.
  destruct (encrypted_records config masterKey (drawn w) rs) as [final|e|];
    try discriminate Hres.
  destruct Hres as (a & ls & [= <-] & Hfresh & Ha & Hls & Hfinal & _).
  exists final, ls. auto 10.
Qed.

Lemma of_record_complete r : complete r -> has_dist_and_tag (JSON.of_record r).
Proof.
  intros [[d Hd] [t Ht]].
  destruct r as [p n dis pr di ta]. simpl in Hd, Ht. subst di ta.
  eexists _, d, t. split; [reflexivity|].
  destruct dis as [dis|], pr as [pr|]; split; reflexivity.
Qed.

(** C3. In every build the index builder runs only after the encryption
    stage has returned, on the list that stage returned: every record of
    that list, and so every object serialized into the index plaintext, has
    [dist] and [tag]. When an earlier stage fails the build ends there and
    no index is made. *)
Theorem index_over_complete_content w :
  match prepare passphrase config w with
  | (w1, Done (content, masterKey)) =>
      match _encryptContent config masterKey content w1 with
      | (w2, Done result) =>
          (exists rs,
             content_at (heap w2) result = Some rs
             /\ Forall complete rs
             /\ indexData result w2 = (w2, Done (JSON.stringify rs))
             /\ Forall has_dist_and_tag (map JSON.of_record rs))
          /\ build passphrase config w =
               (tag <- _createIndex masterKey result ;;
                set_indexTag (VBuffer tag) ;;
                bundle config) w2
      | (w2, Thrown e) => build passphrase config w = (w2, Thrown e)
      | (w2, Hang) => build passphrase config w = (w2, Hang)
      end
  | (w1, Thrown e) => build passphrase config w = (w1, Thrown e)
  | (w1, Hang) => build passphrase config w = (w1, Hang)
  end.
Proof.
  destruct (prepare passphrase config w) as [w1 [[content masterKey]|e|]] eqn:Hprep.
  2: { rewrite build_stages. apply bind_thrown. exact Hprep. }
  2: { rewrite build_stages. apply bind_hang. exact Hprep. }
  rewrite (build_after_prepare _ _ _ _ Hprep). unfold finish.
  destruct (prepare_done _ _ _ _ Hprep) as (_ & Hc & _ & _).
  destruct (_encryptContent config masterKey content w1) as [w2 [result|e|]] eqn:Henc.
  2: { apply bind_thrown. exact Henc. }
  2: { apply bind_hang. exact Henc. }
  rewrite (bind_done _ _ _ _ _ Henc). split; [|reflexivity].
  destruct (encryptContent_done _ _ _ _ _ _ Hc Henc)
    as (final & ls & Hrecs & Hfinal & _).
  destruct (encrypted_records_enriched config _ _ _ _ Hrecs) as (_ & Hcomplete & _).
  exists final. split; [exact Hfinal|]. split; [exact Hcomplete|]. split.
  - apply (createIndex_spec masterKey result w2 final Hfinal).
  - rewrite Forall_map. eapply Forall_impl; [exact Hcomplete|].
    intros r. apply of_record_complete.
Qed.

(** C4. The plaintext of the index is the text of the list the
    encryption stage returned: [_createIndex] feeds the stream cipher the
    UTF-8 bytes of that text and nothing else, and the text reads back,
    record by record and in the same order, as that list. Its records
    are, position by position, the enriched forms of the records the
    scanner produced, and the scanner produced them by depth-first
    traversal in listing order. Where pre-processing keeps the path, the
    paths read from the index are the paths of the traversal in the same
    order. *)
Theorem index_in_scan_order w w1 content masterKey w2 result :
  prepare passphrase config w = (w1, Done (content, masterKey)) ->
  _encryptContent config masterKey content w1 = (w2, Done result) ->
  exists final,
    scanFolder "" contentRoot [] = Done (walk "" contentRoot)
    /\ content_at (heap w1) content = Some (walk "" contentRoot)
    /\ content_at (heap w2) result = Some final
    /\ Forall2 (enriched config) (walk "" contentRoot) final
    /\ build passphrase config w =
         (tag <- _createIndex masterKey result ;;
          set_indexTag (VBuffer tag) ;;
          bundle config) w2
    /\ (let text := JSON.stringify final in
          _createIndex masterKey result w2 =
            (outStream <- createWriteStream "_index" ;;
             _encryptStream masterKey
               {| chunks := [Encoding.utf8 text]; failure := None |}
               outStream) w2
          /\ Reader.content text = Some final
          /\ ((forall r r1 s, process config r = Done (r1, s) ->
                 ContentFile.path r1 = ContentFile.path r) ->
              option_map (map ContentFile.path) (Reader.content text) =
                Some (map ContentFile.path (walk "" contentRoot)))).
Proof.
  intros Hprep Henc.
  destruct (prepare_done _ _ _ _ Hprep) as (Hscan & Hc & _ & _).
  destruct (encryptContent_done _ _ _ _ _ _ Hc Henc)
    as (final & ls & Hrecs & Hfinal & _).
  destruct (encrypted_records_enriched config _ _ _ _ Hrecs) as (Henr & _ & _).
  exists final. split; [exact Hscan|]. split; [exact Hc|].
  split; [exact Hfinal|]. split; [exact Henr|]. split.
  - rewrite (build_after_prepare _ _ _ _ Hprep). unfold finish.
    rewrite (bind_done _ _ _ _ _ Henc). reflexivity.
  - cbv zeta.
    split; [apply createIndex_stream; exact Hfinal|].
    split; [apply content_stringify|].
    intros Hpath. rewrite content_stringify. cbn [option_map]. f_equal.
    clear -Henr Hpath.
    induction Henr as [|r r' rs rs' Hr _ IH]; [reflexivity|].
    cbn [map]. rewrite IH. f_equal.
    destruct Hr as (r1 & s & d & t & Hp & ->). simpl.
    eapply Hpath. exact Hp.
Qed.


End Pipeline.

(** ** Tags, output names and stream failures *)

Section Tags.

Context {C : Crypto} {KW : KeyWrap} {CL : ContentLib} {H : Host}.
Variable passphrase : string.
Variable config : Config.

(** Bundling only ever raises [hasErrors]. *)
Lemma bundle_fields w :
  heap (fst (bundle config w)) = heap w
  /\ indexTag (this (fst (bundle config w))) = indexTag (this w)
  /\ keySalt (this (fst (bundle config w))) = keySalt (this w).
Proof.
  unfold bundle, bind.
  destruct (webpack (appParams config w)) as [stats|e|]; cbn [fst]; auto.
  destruct (errors stats); cbn [fst]; auto.
Qed.

Lemma encrypted_records_tags masterKey rs :
  forall pos rs',
    encrypted_records config masterKey pos rs = Done rs' ->
    Forall (fun r => exists tagBuf,
              ContentFile.tag r = Some (Encoding.base64 tagBuf)) rs'.
Proof.
  induction rs as [|r rs IH]; intros pos rs' Hrs; simpl in Hrs.
  - injection Hrs as <-. constructor.
  - unfold encrypted_record in Hrs.
    destruct (process config r) as [[r1 inStream]|e|]; try discriminate.
    destruct (await _) as [tagBuf|e|]; try discriminate.
    destruct (encrypted_records config masterKey (pos + 56) rs) as [rs1|e|]
      eqn:Hrest; try discriminate.
    injection Hrs as <-. constructor; [|eapply IH; eauto].
    exists tagBuf. reflexivity.
Qed.

(** C5, as the code has it. After a successful build [indexTag] holds the
    authentication tag of the encrypted index as the buffer the cipher
    returned, not as text; the tags of the content files, in contrast, are
    stored as base64 text. *)
Theorem indexTag_is_raw_tag w w' :
  build passphrase config w = (w', Done tt) ->
  exists w1 content masterKey w2 result rs tag,
    prepare passphrase config w = (w1, Done (content, masterKey))
    /\ _encryptContent config masterKey content w1 = (w2, Done result)
    /\ content_at (heap w2) result = Some rs
    /\ snd (_createIndex masterKey result w2) = Done tag
    /\ tag = getAuthTag
               (fst (encrypt_chunks
                       (createCipheriv "aes-256-gcm" (draw (drawn w2) 32)
                          (draw (drawn w2 + 32) 12))
                       (chunks (index_stream rs))))
    /\ indexTag (this w') = VBuffer tag
    /\ Forall (fun r => exists tagBuf,
                 ContentFile.tag r = Some (Encoding.base64 tagBuf)) rs.
Proof.
  intros Hbuild.
  destruct (prepare passphrase config w) as [w1 [[content masterKey]|e|]] eqn:Hprep.
  2: { rewrite build_stages, (bind_thrown _ _ _ _ _ Hprep) in Hbuild.
       discriminate Hbuild. }
  2: { rewrite build_stages, (bind_hang _ _ _ _ Hprep) in Hbuild.
       discriminate Hbuild. }
  rewrite (build_after_prepare _ _ _ _ _ _ Hprep) in Hbuild.
  unfold finish in Hbuild.
  destruct (prepare_done _ _ _ _ _ _ Hprep) as (_ & Hc & _ & _).
  destruct (_encryptContent config masterKey content w1) as [w2 [result|e|]] eqn:Henc.
  2: { rewrite (bind_thrown _ _ _ _ _ Henc) in Hbuild. discriminate Hbuild. }
  2: { rewrite (bind_hang _ _ _ _ Henc) in Hbuild. discriminate Hbuild. }
  rewrite (bind_done _ _ _ _ _ Henc) in Hbuild.
  destruct (encryptContent_done _ _ _ _ _ _ _ Hc Henc)
    as (final & ls & Hrecs & Hfinal & _).
  destruct (createIndex_spec masterKey result w2 final Hfinal)
    as (_ & _ & _ & Hsnd).
  rewrite encryptStream_outcome in Hsnd.
  unfold bind at 1 in Hbuild.
  destruct (_createIndex masterKey result w2) as [w3 [tag|e|]] eqn:Hcreate;
    [|discriminate Hbuild|discriminate Hbuild].
  cbn [snd] in Hsnd.
  exists w1, content, masterKey, w2, result, final, tag.
  split; [reflexivity|]. split; [exact Henc|]. split; [exact Hfinal|].
  split; [rewrite Hcreate; reflexivity|]. split.
  { fold (index_stream final) in Hsnd.
    destruct (failure_during _); congruence. }
  split.
  - set (w4 := with_this {| keySalt := keySalt (this w3);
                            indexTag := VBuffer tag;
                            hasErrors := hasErrors (this w3) |} w3).
    change (bundle config w4 = (w', Done tt)) in Hbuild.
    destruct (bundle_fields w4) as (_ & Htag & _).
    rewrite Hbuild in Htag. exact Htag.
  - eapply encrypted_records_tags. exact Hrecs.
Qed.

(** C6, as the code has it. The output name of the file at position [i]
    is the hexadecimal text of twelve bytes of the random source; it is
    never the name of the index, and the names of a build are pairwise
    distinct exactly when those random draws are. Nothing in the code
    compares the names. *)
Theorem dist_names masterKey content w rs w' result :
  content_at (heap w) content = Some rs ->
  _encryptContent config masterKey content w = (w', Done result) ->
  let draws := map (fun i => draw (drawn w + 56 * i) 12) (seq 0 (length rs)) in
  exists final,
    content_at (heap w') result = Some final
    /\ map ContentFile.dist final = map (fun d => Some (Encoding.hex d)) draws
    /\ Forall (fun r => ContentFile.dist r <> Some "_index") final
    /\ (NoDup draws <-> NoDup (map ContentFile.dist final)).
Proof.
  intros Hc Henc draws.
  destruct (encryptContent_done _ _ _ _ _ _ _ Hc Henc)
    as (final & ls & Hrecs & Hfinal & _).
  destruct (encrypted_records_enriched config _ _ _ _ Hrecs) as (_ & _ & Hdist).
  assert (Hd : map ContentFile.dist final =
               map (fun d => Some (Encoding.hex d)) draws).
  { rewrite Hdist. subst draws. rewrite map_map. reflexivity. }
  exists final. split; [exact Hfinal|]. split; [exact Hd|]. split.
  - apply Forall_forall. intros r Hr Hidx.
    assert (Hin : In (ContentFile.dist r) (map ContentFile.dist final)).
    { apply in_map. apply list_elem_of_In. exact Hr. }
    rewrite Hd in Hin. apply in_map_iff in Hin as (d & Hhex & Hin).
    subst draws. apply in_map_iff in Hin as (i & <- & _).
    rewrite Hidx in Hhex.
    apply (f_equal (fun o => String.length (default "" o))) in Hhex.
    cbn [default from_option id] in Hhex.
    rewrite hex_length, draw_length in Hhex. discriminate Hhex.
  - rewrite Hd. split.
    + apply NoDup_map_inj. intros d1 d2 Hh. apply hex_inj.
      apply (f_equal (default "")) in Hh. exact Hh.
    + apply NoDup_map_source.
Qed.

Lemma encrypted_records_app masterKey xs ys :
  forall pos,
    encrypted_records config masterKey pos (xs ++ ys) =
      match encrypted_records config masterKey pos xs with
      | Done xs' =>
          match encrypted_records config masterKey (pos + 56 * length xs) ys with
          | Done ys' => Done (xs' ++ ys')
          | Thrown e => Thrown e
          | Hang => Hang
          end
      | Thrown e => Thrown e
      | Hang => Hang
      end.
Proof.
  induction xs as [|x xs IH]; intros pos; cbn [app encrypted_records length].
  - rewrite Nat.mul_0_r, Nat.add_0_r.
    destruct (encrypted_records config masterKey pos ys); reflexivity.
  - destruct (encrypted_record config masterKey pos x) as [x'|e|]; try reflexivity.
    rewrite IH.
    destruct (encrypted_records config masterKey (pos + 56) xs) as [xs'|e|];
      try reflexivity.
    replace (pos + 56 + 56 * length xs) with (pos + 56 * S (length xs)) by lia.
    destruct (encrypted_records config masterKey _ ys); reflexivity.
Qed.

(** Failures the promise notices. An ['error'] of the input stream or of
    the output stream that arrives before the cipher has ended rejects the
    promise of [_encryptStream] with that error, so the call gives no tag.
    Such a failure in the stream of a content file makes [_encryptContent]
    throw it, in the stream of the index makes [_createIndex] throw it,
    and either way [build] ends with that error. *)
Lemma stream_failure_aborts :
  (forall masterKey inStream outStream w e,
     failure_during (schedule inStream (outFault outStream)) = Some e ->
     snd (_encryptStream masterKey inStream outStream w) = Thrown e)
  /\ (forall masterKey content w rs i r r1 inStream e,
     content_at (heap w) content = Some rs ->
     rs !! i = Some r ->
     (exists done,
        encrypted_records config masterKey (drawn w) (take i rs) = Done done) ->
     process config r = Done (r1, inStream) ->
     failure_during
       (schedule inStream
          (outFault (Encoding.hex (draw (drawn w + 56 * i) 12)))) = Some e ->
     snd (_encryptContent config masterKey content w) = Thrown e)
  /\ (forall masterKey content w rs e,
     content_at (heap w) content = Some rs ->
     failure_during (schedule (index_stream rs) (outFault "_index")) = Some e ->
     snd (_createIndex masterKey content w) = Thrown e)
  /\ (forall w w1 content masterKey e,
     prepare passphrase config w = (w1, Done (content, masterKey)) ->
     (snd (_encryptContent config masterKey content w1) = Thrown e ->
      snd (build passphrase config w) = Thrown e)
     /\ (forall w2 result,
         _encryptContent config masterKey content w1 = (w2, Done result) ->
         snd (_createIndex masterKey result w2) = Thrown e ->
         snd (build passphrase config w) = Thrown e)).
Proof.
  split; [|split; [|split]].
  - intros masterKey inStream outStream w e Hf.
    rewrite encryptStream_outcome, Hf. reflexivity.
  - intros masterKey content w rs i r r1 inStream e Hc Hi [done Hdone] Hp Hf.
    destruct (encryptContent_spec config masterKey content w rs Hc) as [_ Hres].
    rewrite <- (take_drop_middle rs i r Hi) in Hres.
    rewrite encrypted_records_app, Hdone in Hres.
    rewrite length_take_le in Hres
      by (apply Nat.lt_le_incl; eapply lookup_lt_Some; eauto).
    cbn [encrypted_records] in Hres. unfold encrypted_record in Hres.
    rewrite Hp, pump_outcome, Hf in Hres. exact Hres.
  - intros masterKey content w rs e Hc Hf.
    destruct (createIndex_spec masterKey content w rs Hc) as (_ & _ & _ & ->).
    rewrite encryptStream_outcome. fold (index_stream rs). rewrite Hf.
    reflexivity.
  - intros w w1 content masterKey e Hprep.
    rewrite (build_after_prepare _ _ _ _ _ _ Hprep). unfold finish. split.
    + intros Henc.
      destruct (_encryptContent config masterKey content w1) as [w2 o] eqn:Hrun.
      cbn [snd] in Henc. subst o.
      rewrite (bind_thrown _ _ _ _ _ Hrun). reflexivity.
    + intros w2 result Henc Hidx.
      rewrite (bind_done _ _ _ _ _ Henc).
      destruct (_createIndex masterKey result w2) as [w3 o] eqn:Hrun.
      cbn [snd] in Hidx. subst o.
      rewrite (bind_thrown _ _ _ _ _ Hrun). reflexivity.
Qed.

End Tags.

(** ** The sample project, run *)

Section Runs.

#[local] Existing Instances Sample.crypto Sample.keywrap Sample.contentlib Sample.host.

Lemma sample_prepare :
  snd (prepare "pw" (Sample.config "pbkdf2") (new_Builder Sample.stale)) =
    Done (3%positive, repeat x2a%byte 32).
Proof. vm_compute. reflexivity. Qed.

Lemma sample_process_keeps_path r r1 s :
  process (Sample.config "pbkdf2") r = Done (r1, s) ->
  ContentFile.path r1 = ContentFile.path r.
Proof. simpl. intros Hp. inversion Hp. reflexivity. Qed.

Lemma deriveKey_selected_witness :
  CryptoLengths Sample.crypto
  /\ kdf (Sample.config "pbkdf2") = "pbkdf2"
  /\ _deriveKey (Sample.config "pbkdf2") "pwtoken" [x00%byte] (new_Builder ∅) =
       (new_Builder ∅, Done (pbkdf2 "pwtoken" [x00%byte] 100000 32 "sha512"))
  /\ length (pbkdf2 "pwtoken" [x00%byte] 100000 32 "sha512") = 32
  /\ let run := prepare "pw" (Sample.config "pbkdf2") (new_Builder Sample.stale) in
     snd run = Done (3%positive, repeat x2a%byte 32)
     /\ keySalt (this (fst run)) = VBuffer (draw 0 64)
     /\ length (draw 0 64) = 64.
Proof.
  split; [exact sample_lengths|]. split; [reflexivity|].
  destruct (deriveKey_selected "pw" (Sample.config "pbkdf2") (L := sample_lengths))
    as (Hpbkdf2 & _ & Hbuild & _).
  destruct (Hpbkdf2 eq_refl "pwtoken" [x00%byte] (new_Builder ∅)) as [Hkey Hlen32].
  split; [exact Hkey|]. split; [exact Hlen32|].
  intros run. split; [exact sample_prepare|].
  assert (Hprep : prepare "pw" (Sample.config "pbkdf2") (new_Builder Sample.stale) =
                  (fst run, Done (3%positive, repeat x2a%byte 32))).
  { rewrite <- sample_prepare. apply surjective_pairing. }
  destruct (Hbuild _ _ _ _ Hprep) as (Hlen & Hsalt & _).
  split; [exact Hsalt | exact Hlen].
Defined.

Lemma index_in_scan_order_witness :
  let cfg := Sample.config "pbkdf2" in
  let masterKey := repeat x2a%byte 32 in
  let w1 := fst (prepare "pw" cfg (new_Builder Sample.stale)) in
  let w2 := fst (_encryptContent cfg masterKey 3%positive w1) in
  prepare "pw" cfg (new_Builder Sample.stale) = (w1, Done (3%positive, masterKey))
  /\ _encryptContent cfg masterKey 3%positive w1 = (w2, Done 6%positive)
  /\ exists text,
       _createIndex masterKey 6%positive w2 =
         (outStream <- createWriteStream "_index" ;;
          _encryptStream masterKey
            {| chunks := [Encoding.utf8 text]; failure := None |} outStream) w2
       /\ option_map (map ContentFile.path) (Reader.content text) =
            Some ["a.txt"; "sub/b.txt"].
Proof.
  intros cfg masterKey w1 w2.
  assert (Hprep : prepare "pw" cfg (new_Builder Sample.stale) =
                  (w1, Done (3%positive, masterKey))).
  { unfold masterKey. rewrite <- sample_prepare. apply surjective_pairing. }
  assert (Henc : _encryptContent cfg masterKey 3%positive w1 = (w2, Done 6%positive)).
  { vm_compute. reflexivity. }
  split; [exact Hprep|]. split; [exact Henc|].
  destruct (index_in_scan_order "pw" cfg _ _ _ _ _ _ Hprep Henc)
    as (final & _ & _ & _ & _ & _ & Hindex & _ & Hpath).
  exists (JSON.stringify final). split; [exact Hindex|].
  rewrite (Hpath sample_process_keeps_path). reflexivity.
Defined.



(** C5 as stated does not hold: after a successful build [indexTag] is a
    buffer of 16 bytes, not the base64 text of the tag. *)
Lemma indexTag_not_base64 :
  let run := build "pw" (Sample.config "pbkdf2") (new_Builder ∅) in
  snd run = Done tt
  /\ exists tag,
       indexTag (this (fst run)) = VBuffer tag
       /\ length tag = 16
       /\ indexTag (this (fst run)) <> VString (Encoding.base64 tag).
Proof.
  intros run. split; [vm_compute; reflexivity|].
  exists (repeat (Sample.byte_of_nat 229) 16).
  split; [vm_compute; reflexivity|]. split; [reflexivity|].
  assert (Htag : indexTag (this (fst run)) = VBuffer (repeat (Sample.byte_of_nat 229) 16))
    by (vm_compute; reflexivity).
  rewrite Htag. discriminate.
Qed.

Lemma indexTag_is_raw_tag_witness :
  let run := build "pw" (Sample.config "pbkdf2") (new_Builder ∅) in
  run = (fst run, Done tt)
  /\ exists tag, indexTag (this (fst run)) = VBuffer tag.
Proof.
  intros run.
  assert (Hrun : run = (fst run, Done tt)).
  { replace (Done tt) with (snd run) by (vm_compute; reflexivity).
    apply surjective_pairing. }
  split; [exact Hrun|].
  destruct (indexTag_is_raw_tag "pw" (Sample.config "pbkdf2") _ _ Hrun)
    as (_ & _ & _ & _ & _ & _ & tag & _ & _ & _ & _ & _ & Htag & _).
  exists tag. exact Htag.
Defined.

(** C6 as stated does not hold: with a random source that repeats itself
    two files of one build get the same output name. *)
Lemma dist_collision :
  let run := build (H := Sample.stuck_host) "pw" (Sample.config "pbkdf2")
               (new_Builder ∅) in
  snd run = Done tt
  /\ exists r1 r2,
       content_at (heap (fst run)) 6%positive = Some [r1; r2]
       /\ ContentFile.path r1 <> ContentFile.path r2
       /\ ContentFile.dist r1 = Some "000000000000000000000000"
       /\ ContentFile.dist r2 = Some "000000000000000000000000".
Proof.
  intros run. split; [vm_compute; reflexivity|].
  eexists _, _. split; [vm_compute; reflexivity|].
  split; [discriminate|]. split; reflexivity.
Qed.

Lemma dist_names_witness :
  let cfg := Sample.config "pbkdf2" in
  let masterKey := repeat x2a%byte 32 in
  let w1 := fst (prepare "pw" cfg (new_Builder ∅)) in
  let w2 := fst (_encryptContent cfg masterKey 3%positive w1) in
  exists final,
    content_at (heap w2) 6%positive = Some final
    /\ Forall (fun r => ContentFile.dist r <> Some "_index") final
    /\ NoDup (map ContentFile.dist final).
Proof.
  intros cfg masterKey w1 w2.
  assert (Hc : content_at (heap w1) 3%positive =
               Some [ContentFile.scanned "a.txt" 5; ContentFile.scanned "sub/b.txt" 3])
    by (vm_compute; reflexivity).
  assert (Henc : _encryptContent cfg masterKey 3%positive w1 = (w2, Done 6%positive))
    by (vm_compute; reflexivity).
  destruct (dist_names cfg masterKey 3%positive w1 _ w2 6%positive Hc Henc)
    as (final & Hfinal & _ & Hidx & Hnd).
  exists final. split; [exact Hfinal|]. split; [exact Hidx|].
  apply Hnd. cbn [length seq map].
  apply NoDup_cons. split.
  - intros Hin. apply list_elem_of_singleton in Hin.
    apply (f_equal (fun l => nth 0 l x00%byte)) in Hin.
    vm_compute in Hin. discriminate Hin.
  - apply NoDup_singleton.
Defined.

Lemma stream_failure_aborts_witness :
  let e := "ENOSPC: no space left on device" in
  let cfg := Sample.config "pbkdf2" in
  let hello := {| chunks := [Encoding.utf8 "hello"]; failure := None |} in
  snd (_encryptStream (H := Sample.full_disk 0) [] hello "out" (new_Builder ∅)) =
    Thrown e
  /\ snd (build (H := Sample.full_disk 0) "pw" cfg (new_Builder ∅)) = Thrown e.
Proof.
  intros e cfg hello.
  destruct (stream_failure_aborts (H := Sample.full_disk 0) "pw" cfg)
    as (Hstream & Hcontent & _ & Hbuild).
  split.
  - apply Hstream. reflexivity.
  - set (w1 := fst (prepare (H := Sample.full_disk 0) "pw" cfg (new_Builder ∅))).
    assert (Hprep : prepare (H := Sample.full_disk 0) "pw" cfg (new_Builder ∅) =
                    (w1, Done (3%positive, repeat x2a%byte 32))).
    { replace (Done (3%positive, repeat x2a%byte 32))
        with (snd (prepare (H := Sample.full_disk 0) "pw" cfg (new_Builder ∅)))
        by (vm_compute; reflexivity).
      apply surjective_pairing. }
    destruct (Hbuild _ _ _ _ e Hprep) as [Habort _]. apply Habort.
    eapply (Hcontent _ _ _ _ 0).
    + vm_compute. reflexivity.
    + reflexivity.
    + exists []. reflexivity.
    + reflexivity.
    + reflexivity.
Defined.

Lemma late_output_error_returns_tag_witness :
  let e := "ENOSPC: no space left on device" in
  let cfg := Sample.config "pbkdf2" in
  let hello := {| chunks := [Encoding.utf8 "hello"]; failure := None |} in
  failure hello = None
  /\ outFault (Host := Sample.full_disk 2) "out" = Some (2, e)
  /\ snd (_encryptStream (H := Sample.full_disk 2) [] hello "out" (new_Builder ∅)) =
       Done (repeat x05%byte 16)
  /\ snd (build (H := Sample.full_disk 2) "pw" cfg (new_Builder ∅)) = Done tt.
Proof.
  intros e cfg hello.
  assert (Hin : failure hello = None) by reflexivity.
  assert (Hout : outFault (Host := Sample.full_disk 2) "out" = Some (2, e))
    by reflexivity.
  split; [exact Hin|]. split; [exact Hout|]. split.
  - rewrite (late_output_error_returns_tag (H := Sample.full_disk 2)
               [] hello "out" (new_Builder ∅) 2 e Hin Hout).
    reflexivity.
  - vm_compute. reflexivity.
Defined.

End Runs.

(** ** More on the scanner *)

Lemma until_sep_app (a b : list ascii) :
  forallb (fun c => negb (Path.is_sep c)) a = true ->
  Path.until_sep (a ++ b) = a ++ Path.until_sep b.
Proof.
  induction a as [|c a IH]; cbn [forallb app Path.until_sep]; [reflexivity|].
  intros Hc. apply andb_prop in Hc as [Hc Ha].
  destruct (Path.is_sep c); [discriminate Hc|]. rewrite IH by exact Ha. reflexivity.
Qed.

Lemma plain_name_chars n :
  plain_name n = true ->
  n <> "" /\ forallb (fun c => negb (Path.is_sep c)) (list_ascii_of_string n) = true.
Proof.
  unfold plain_name. intros Hp. apply andb_prop in Hp as [Hne Hc].
  split; [|exact Hc]. intros ->. discriminate Hne.
Qed.

Lemma forallb_rev {A} (f : A -> bool) (l : list A) :
  forallb f (rev l) = forallb f l.
Proof.
  induction l as [|x l IH]; [reflexivity|].
  cbn [rev forallb]. rewrite forallb_app, IH. cbn [forallb].
  rewrite andb_true_r. apply andb_comm.
Qed.

(** Inside a folder the base name of an entry's path is the entry's name. *)
Lemma basename_in_folder folder n :
  is_folder folder -> plain_name n = true ->
  Path.basename (folder +:+ n) = n.
Proof.
  intros Hf Hn. apply plain_name_chars in Hn as [Hne Hc].
  unfold Path.basename. rewrite list_ascii_of_append, rev_app_distr.
  rewrite <- forallb_rev in Hc.
  assert (Hdrop : forall rest,
            Path.drop_seps (rev (list_ascii_of_string n) ++ rest) =
            rev (list_ascii_of_string n) ++ rest).
  { intros rest. destruct (rev (list_ascii_of_string n)) as [|c t] eqn:Hr.
    - exfalso. apply Hne.
      apply (f_equal (@rev ascii)) in Hr. rewrite rev_involutive in Hr.
      rewrite <- (string_of_list_ascii_of_string n), Hr. reflexivity.
    - cbn [forallb] in Hc. apply andb_prop in Hc as [Hc _].
      cbn [app Path.drop_seps]. destruct (Path.is_sep c); [discriminate Hc|].
      reflexivity. }
  rewrite Hdrop, until_sep_app by exact Hc.
  assert (Hrest : Path.until_sep (rev (list_ascii_of_string folder)) = []).
  { destruct Hf as [->|[parent ->]]; [reflexivity|].
    rewrite list_ascii_of_append, rev_app_distr. reflexivity. }
  rewrite Hrest, app_nil_r, rev_involutive.
  apply string_of_list_ascii_of_string.
Qed.

Lemma includePath_in_folder folder n :
  is_folder folder -> plain_name n = true ->
  includePath (folder +:+ n) = includePath n.
Proof.
  intros Hf Hn. unfold includePath.
  rewrite (basename_in_folder folder n Hf Hn).
  rewrite <- (basename_in_folder "" n (or_introl eq_refl) Hn) at 1 2 3 4 5 6 7 8 9 10.
  reflexivity.
Qed.

(** X1. In [scanFolder] an entry is kept or dropped by its own name: for
    the name of a directory entry, the filter gives the same answer on the
    entry's path inside any folder as on the name alone. *)
Theorem filter_by_entry_name folder n :
  is_folder folder -> plain_name n = true ->
  includePath (folder +:+ n) = includePath n.
Proof. exact (includePath_in_folder folder n). Qed.

Lemma filter_by_entry_name_witness :
  is_folder "docs/" /\ plain_name "draft.txt~" = true
  /\ includePath "docs/draft.txt~" = includePath "draft.txt~".
Proof.
  assert (Hf : is_folder "docs/") by (right; exists "docs"; reflexivity).
  split; [exact Hf|]. split; [reflexivity|].
  exact (filter_by_entry_name "docs/" "draft.txt~" Hf eq_refl).
Defined.

Lemma append_cancel_l (a b c : string) : a +:+ b = a +:+ c -> b = c.
Proof.
  induction a as [|x a IH]; [auto|].
  rewrite !append_cons_l. intros [= Heq]. auto.
Qed.

Lemma path_of_cons n n' rest :
  path_of (n :: n' :: rest) = n +:+ "/" +:+ path_of (n' :: rest).
Proof. reflexivity. Qed.

Lemma child_In n c l : child n l = Some c -> In (n, c) l.
Proof.
  induction l as [|[n' c'] l IH]; cbn [child]; [discriminate|].
  destruct (String.eqb_spec n n') as [->|Hne].
  - intros [= ->]. left. reflexivity.
  - intros Hc. right. auto.
Qed.

Lemma child_of_In n c l :
  NoDup (map fst l) -> In (n, c) l -> child n l = Some c.
Proof.
  induction l as [|[n' c'] l IH]; cbn [child map fst]; [contradiction|].
  intros Hnd [Heq|Hin].
  - injection Heq as -> ->. rewrite String.eqb_refl. reflexivity.
  - apply NoDup_cons in Hnd as [Hn' Hnd].
    destruct (String.eqb_spec n n') as [->|Hne].
    + exfalso. apply Hn'. apply list_elem_of_In.
      change n' with (fst (n', c)). apply in_map. exact Hin.
    + auto.
Qed.

Lemma proper_Dir l :
  proper (Dir l) = true ->
  NoDup (map fst l)
  /\ forall n c, In (n, c) l -> plain_name n = true /\ proper c = true.
Proof.
  cbn [proper]. intros Hp. apply andb_prop in Hp as [Hnd Hall].
  split; [apply bool_decide_eq_true in Hnd; exact Hnd|].
  intros n c Hin. rewrite forallb_forall in Hall.
  specialize (Hall _ Hin). cbn in Hall. apply andb_prop in Hall. exact Hall.
Qed.

Lemma is_folder_below folder n : is_folder ((folder +:+ n) +:+ "/").
Proof. right. exists (folder +:+ n). reflexivity. Qed.

(** The scanner's traversal, entry by entry: a record is in the result
    exactly when a chain of accepted names leads from the scanned directory
    to a file, and then it holds the chain as its path and the file's
    size. *)
Lemma walk_resolves d :
  forall folder r,
    is_folder folder -> proper d = true ->
    (In r (walk folder d) <->
     exists names sz,
       names <> []
       /\ resolve_path d names = Some (File sz)
       /\ forallb includePath names = true
       /\ r = ContentFile.scanned (folder +:+ path_of names) sz).
Proof.
  induction d as [sz|e|l IHl] using entry_nested_ind; intros folder r Hf Hp.
  - split; [intros []|].
    intros ([|n rest] & sz' & Hne & Hres & _); [contradiction|discriminate Hres].
  - split; [intros []|].
    intros ([|n rest] & sz' & Hne & Hres & _); [contradiction|discriminate Hres].
  - destruct (proper_Dir l Hp) as [Hnd Hall].
    cbn [walk]. rewrite in_flat_map. split.
    + intros ([n c] & Hin & Hr).
      destruct (Hall n c Hin) as [Hn Hc].
      rewrite (includePath_in_folder folder n Hf Hn) in Hr.
      destruct (includePath n) eqn:Hinc; [|contradiction].
      assert (Hchild : child n l = Some c) by (apply child_of_In; assumption).
      assert (Hsub : In r (walk ((folder +:+ n) +:+ "/") c) ->
                exists names sz,
                  names <> [] /\ resolve_path (Dir l) names = Some (File sz)
                  /\ forallb includePath names = true
                  /\ r = ContentFile.scanned (folder +:+ path_of names) sz).
      { intros Hw. rewrite Forall_forall in IHl.
        apply (IHl (n, c) (proj2 (list_elem_of_In _ _) Hin)
                 ((folder +:+ n) +:+ "/") r (is_folder_below folder n) Hc) in Hw.
        destruct Hw as (names & sz & Hne & Hres & Hok & ->).
        exists (n :: names), sz. split; [discriminate|].
        split; [cbn [resolve_path]; rewrite Hchild; exact Hres|].
        split; [cbn [forallb]; rewrite Hinc, Hok; reflexivity|].
        destruct names as [|n' rest]; [contradiction|].
        rewrite path_of_cons, !append_assoc. reflexivity. }
      destruct c as [sz|l'|e]; [|exact (Hsub Hr)|exact (Hsub Hr)].
      destruct Hr as [<-|[]].
      exists [n], sz. split; [discriminate|].
      split; [cbn [resolve_path]; rewrite Hchild; reflexivity|].
      split; [cbn [forallb]; rewrite Hinc; reflexivity | reflexivity].
    + intros ([|n rest] & sz & Hne & Hres & Hok & ->); [contradiction|].
      cbn [resolve_path] in Hres.
      destruct (child n l) as [c|] eqn:Hchild; [|discriminate Hres].
      apply child_In in Hchild.
      destruct (Hall n c Hchild) as [Hn Hc].
      cbn [forallb] in Hok. apply andb_prop in Hok as [Hinc Hok].
      exists (n, c). split; [exact Hchild|].
      rewrite (includePath_in_folder folder n Hf Hn), Hinc.
      destruct rest as [|n' rest].
      * cbn [resolve_path] in Hres. injection Hres as ->. left. reflexivity.
      * assert (Hw : In (ContentFile.scanned
                           (((folder +:+ n) +:+ "/") +:+ path_of (n' :: rest)) sz)
                       (walk ((folder +:+ n) +:+ "/") c)).
        { rewrite Forall_forall in IHl.
          apply (IHl (n, c) (proj2 (list_elem_of_In _ _) Hchild)
                   ((folder +:+ n) +:+ "/") _ (is_folder_below folder n) Hc).
          exists (n' :: rest), sz. split; [discriminate|]. auto. }
        rewrite path_of_cons.
        replace (folder +:+ n +:+ "/" +:+ path_of (n' :: rest))
          with (((folder +:+ n) +:+ "/") +:+ path_of (n' :: rest))
          by (rewrite !append_assoc; reflexivity).
        destruct c as [sz'|l'|e]; [discriminate Hres|exact Hw|exact Hw].
Qed.

(** X2. What the scanner finds. For a content directory as [readdir]
    shows it (plain names, none twice), the list [scanFolder] returns holds
    exactly the files to which a chain of names leads that the filter
    accepts one by one: each such file is described by a record with the
    chain as its path and the size of the file, and there is no other
    record. A file below a rejected directory is not in the list. *)
Theorem scan_finds_accepted_files d rs :
  proper d = true ->
  scanFolder "" d [] = Done rs ->
  forall r,
    In r rs <->
    exists names sz,
      names <> []
      /\ resolve_path d names = Some (File sz)
      /\ forallb includePath names = true
      /\ r = ContentFile.scanned (path_of names) sz.
Proof.
  intros Hp Hscan r.
  apply scanFolder_done in Hscan. cbn [app] in Hscan. subst rs.
  apply (walk_resolves d "" r (or_introl eq_refl) Hp).
Qed.

Lemma scan_finds_accepted_files_witness :
  proper Sample.tree = true
  /\ scanFolder "" Sample.tree [] =
       Done [ContentFile.scanned "a.txt" 5; ContentFile.scanned "sub/b.txt" 3]
  /\ In (ContentFile.scanned "sub/b.txt" 3)
       [ContentFile.scanned "a.txt" 5; ContentFile.scanned "sub/b.txt" 3]
  /\ exists names sz,
       resolve_path Sample.tree names = Some (File sz)
       /\ forallb includePath names = true
       /\ ContentFile.scanned "sub/b.txt" 3 = ContentFile.scanned (path_of names) sz.
Proof.
  assert (Hp : proper Sample.tree = true) by reflexivity.
  assert (Hs : scanFolder "" Sample.tree [] =
               Done [ContentFile.scanned "a.txt" 5; ContentFile.scanned "sub/b.txt" 3])
    by reflexivity.
  assert (Hin : In (ContentFile.scanned "sub/b.txt" 3)
                  [ContentFile.scanned "a.txt" 5; ContentFile.scanned "sub/b.txt" 3])
    by (right; left; reflexivity).
  split; [exact Hp|]. split; [exact Hs|]. split; [exact Hin|].
  destruct (proj1 (scan_finds_accepted_files _ _ Hp Hs _) Hin)
    as (names & sz & _ & Hres & Hok & Heq).
  exists names, sz. auto.
Defined.

Lemma forallb_false {A} (f : A -> bool) (l : list A) :
  forallb f l = false <-> exists x, In x l /\ f x = false.
Proof.
  induction l as [|x l IH]; cbn [forallb].
  - split; [discriminate|]. intros (x & [] & _).
  - rewrite andb_false_iff, IH. split.
    + intros [Hx|(y & Hy & Hf)]; [exists x; split; [left; reflexivity|exact Hx]|].
      exists y. split; [right; exact Hy | exact Hf].
    + intros (y & [<-|Hy] & Hf); [left; exact Hf|]. right. eauto.
Qed.

(** When a directory does not list: only a directory reached through
    accepted names counts. *)
Lemma listable_resolves d :
  forall folder,
    is_folder folder -> proper d = true ->
    (listable folder d = false <->
     (exists sz, d = File sz)
     \/ exists names e,
          forallb includePath names = true
          /\ resolve_path d names = Some (Unreadable e)).
Proof.
  induction d as [sz|e|l IHl] using entry_nested_ind; intros folder Hf Hp.
  - split; [eauto|reflexivity].
  - split; [|reflexivity]. intros _. right. exists [], e. auto.
  - destruct (proper_Dir l Hp) as [Hnd Hall].
    cbn [listable]. rewrite forallb_false. split.
    + intros ([n c] & Hin & Hg). right.
      destruct (Hall n c Hin) as [Hn Hc].
      rewrite (includePath_in_folder folder n Hf Hn) in Hg.
      destruct (includePath n) eqn:Hinc; [|discriminate Hg].
      assert (Hchild : child n l = Some c) by (apply child_of_In; assumption).
      rewrite Forall_forall in IHl.
      pose proof (IHl (n, c) (proj2 (list_elem_of_In _ _) Hin)
                    ((folder +:+ n) +:+ "/") (is_folder_below folder n) Hc) as IH.
      cbn [snd] in IH.
      assert (Hsub : listable ((folder +:+ n) +:+ "/") c = false ->
                (forall sz, c <> File sz) ->
                exists names e,
                  forallb includePath names = true
                  /\ resolve_path (Dir l) names = Some (Unreadable e)).
      { intros Hl Hnf. apply IH in Hl as [[sz ->]|(names & e & Hok & Hres)].
        - contradiction (Hnf sz). reflexivity.
        - exists (n :: names), e. cbn [forallb resolve_path].
          rewrite Hinc, Hok, Hchild. auto. }
      destruct c as [sz|l'|e]; [discriminate Hg| |]; apply Hsub;
        try exact Hg; discriminate.
    + intros [[sz Hd]|(names & e & Hok & Hres)]; [discriminate Hd|].
      destruct names as [|n rest]; [discriminate Hres|].
      cbn [resolve_path] in Hres.
      destruct (child n l) as [c|] eqn:Hchild; [|discriminate Hres].
      apply child_In in Hchild.
      destruct (Hall n c Hchild) as [Hn Hc].
      cbn [forallb] in Hok. apply andb_prop in Hok as [Hinc Hok].
      exists (n, c). split; [exact Hchild|].
      rewrite (includePath_in_folder folder n Hf Hn), Hinc.
      rewrite Forall_forall in IHl.
      pose proof (IHl (n, c) (proj2 (list_elem_of_In _ _) Hchild)
                    ((folder +:+ n) +:+ "/") (is_folder_below folder n) Hc) as IH.
      cbn [snd] in IH.
      assert (Hl : listable ((folder +:+ n) +:+ "/") c = false).
      { apply IH. right. exists rest, e. auto. }
      destruct c as [sz|l'|e']; [|exact Hl|exact Hl].
      destruct rest; discriminate Hres.
Qed.

(** X3. When the scan fails. For a content directory as [readdir] shows
    it, [scanFolder] throws exactly when the root is not a directory or a
    chain of accepted names leads to a directory that cannot be listed; a
    directory that cannot be listed but lies below a rejected name is never
    opened and does not fail the scan. *)
Theorem scan_fails_on_reached_directories d :
  proper d = true ->
  ((exists e, scanFolder "" d [] = Thrown e) <->
   (exists sz, d = File sz)
   \/ exists names e,
        forallb includePath names = true
        /\ resolve_path d names = Some (Unreadable e)).
Proof.
  intros Hp.
  rewrite <- (listable_resolves d "" (or_introl eq_refl) Hp).
  pose proof (scanFolder_walk d "" []) as Hw.
  destruct (listable "" d); split.
  - intros [e He]. congruence.
  - discriminate.
  - reflexivity.
  - intros _. exact Hw.
Qed.

Lemma scan_fails_on_reached_directories_witness :
  let locked := Dir [("._trash", Unreadable "EACCES"); ("docs", Unreadable "EACCES")] in
  proper locked = true
  /\ exists e, scanFolder "" locked [] = Thrown e.
Proof.
  intros locked.
  assert (Hp : proper locked = true) by reflexivity.
  split; [exact Hp|].
  apply (proj2 (scan_fails_on_reached_directories locked Hp)).
  right. exists ["docs"], "EACCES". split; reflexivity.
Defined.

(** Where the path of a record below an entry starts. *)
Lemma until_sep_tail (x : string) :
  x = "" \/ (exists t, x = "/" +:+ t) ->
  Path.until_sep (list_ascii_of_string x) = [].
Proof. intros [->|[t ->]]; reflexivity. Qed.

Lemma name_of_path n1 n2 x y :
  plain_name n1 = true -> plain_name n2 = true ->
  x = "" \/ (exists t, x = "/" +:+ t) ->
  y = "" \/ (exists t, y = "/" +:+ t) ->
  n1 +:+ x = n2 +:+ y -> n1 = n2.
Proof.
  intros H1 H2 Hx Hy Heq.
  apply plain_name_chars in H1 as [_ H1]. apply plain_name_chars in H2 as [_ H2].
  apply (f_equal (fun s => Path.until_sep (list_ascii_of_string s))) in Heq.
  rewrite !list_ascii_of_append, !until_sep_app in Heq by assumption.
  rewrite (until_sep_tail x Hx), (until_sep_tail y Hy), !app_nil_r in Heq.
  rewrite <- (string_of_list_ascii_of_string n1), Heq.
  apply string_of_list_ascii_of_string.
Qed.

Lemma entry_paths folder n c r :
  is_folder folder -> plain_name n = true -> proper c = true ->
  In r (if includePath (folder +:+ n)
        then match c with
             | File sz => [ContentFile.scanned (folder +:+ n) sz]
             | sub => walk ((folder +:+ n) +:+ "/") sub
             end
        else []) ->
  exists x,
    (x = "" \/ exists t, x = "/" +:+ t)
    /\ ContentFile.path r = folder +:+ n +:+ x.
Proof.
  intros Hf Hn Hc Hin.
  destruct (includePath (folder +:+ n)); [|contradiction].
  assert (Hsub : In r (walk ((folder +:+ n) +:+ "/") c) ->
            exists x, (x = "" \/ exists t, x = "/" +:+ t)
                      /\ ContentFile.path r = folder +:+ n +:+ x).
  { intros Hw.
    apply (walk_resolves c _ r (is_folder_below folder n) Hc) in Hw
      as (names & sz & _ & _ & _ & ->).
    exists ("/" +:+ path_of names). split; [right; eauto|].
    cbn [ContentFile.scanned ContentFile.path]. rewrite !append_assoc. reflexivity. }
  destruct c as [sz|l'|e]; [|exact (Hsub Hin)|exact (Hsub Hin)].
  destruct Hin as [<-|[]]. exists "". split; [left; reflexivity|].
  cbn [ContentFile.scanned ContentFile.path].
  clear. induction folder as [|a folder IH]; [|rewrite !append_cons_l, <- IH; reflexivity].
  induction n as [|b n IHn]; [reflexivity|].
  rewrite !append_nil_l in *. rewrite append_cons_l, <- IHn. reflexivity.
Qed.

Lemma walk_paths_distinct d :
  forall folder,
    is_folder folder -> proper d = true ->
    NoDup (map ContentFile.path (walk folder d)).
Proof.
  induction d as [sz|e|l IHl] using entry_nested_ind; intros folder Hf Hp.
  - constructor.
  - constructor.
  - destruct (proper_Dir l Hp) as [Hnd Hall]. clear Hp. cbn [walk].
    induction IHl as [|[n c] l Hc _ IH]; [constructor|].
    cbn [flat_map map fst] in *. rewrite map_app.
    apply NoDup_cons in Hnd as [Hn Hnd].
    destruct (Hall n c (or_introl eq_refl)) as [Hplain Hproper].
    apply NoDup_app. split; [|split].
    + destruct (includePath (folder +:+ n)); [|constructor].
      destruct c as [sz|l'|e].
      * apply NoDup_singleton.
      * apply (Hc _ (is_folder_below folder n) Hproper).
      * constructor.
    + intros p Hp1 Hp2.
      apply list_elem_of_In, in_map_iff in Hp1 as (r1 & <- & Hr1).
      apply list_elem_of_In, in_map_iff in Hp2 as (r2 & Heq & Hr2).
      apply in_flat_map in Hr2 as ([n2 c2] & Hin2 & Hr2).
      destruct (Hall n2 c2 (or_intror Hin2)) as [Hplain2 Hproper2].
      destruct (entry_paths folder n c r1 Hf Hplain Hproper Hr1) as (x & Hx & Hpath1).
      destruct (entry_paths folder n2 c2 r2 Hf Hplain2 Hproper2 Hr2) as (y & Hy & Hpath2).
      rewrite Hpath1, Hpath2 in Heq. apply append_cancel_l in Heq.
      apply (name_of_path n2 n y x Hplain2 Hplain Hy Hx) in Heq. subst n2.
      apply Hn. apply list_elem_of_In.
      change n with (fst (n, c2)). apply in_map. exact Hin2.
    + apply IH; [exact Hnd|]. intros n' c' Hin. apply Hall. right. exact Hin.
Qed.

(** X4. The paths of a scan are pairwise distinct: for a content directory
    as [readdir] shows it, no two records of the list [scanFolder] returns
    have the same path. *)
Theorem scan_paths_distinct d rs :
  proper d = true ->
  scanFolder "" d [] = Done rs ->
  NoDup (map ContentFile.path rs).
Proof.
  intros Hp Hscan. apply scanFolder_done in Hscan. cbn [app] in Hscan. subst rs.
  apply (walk_paths_distinct d "" (or_introl eq_refl) Hp).
Qed.

Lemma scan_paths_distinct_witness :
  proper Sample.tree = true
  /\ scanFolder "" Sample.tree [] =
       Done [ContentFile.scanned "a.txt" 5; ContentFile.scanned "sub/b.txt" 3]
  /\ NoDup ["a.txt"; "sub/b.txt"].
Proof.
  assert (Hp : proper Sample.tree = true) by reflexivity.
  assert (Hs : scanFolder "" Sample.tree [] =
               Done [ContentFile.scanned "a.txt" 5; ContentFile.scanned "sub/b.txt" 3])
    by reflexivity.
  split; [exact Hp|]. split; [exact Hs|].
  exact (scan_paths_distinct _ _ Hp Hs).
Defined.

(** ** The files of the output directory *)

Section Files.

Context {C : Crypto} {KW : KeyWrap} {CL : ContentLib} {H : Host}.
Variable config : Config.

(** A resolved promise: the output stream was given header and whole
    ciphertext, and the tag is the one of that encryption. *)
Lemma pump_done wrappedKey fileKey fileIV inStream fault tagBuf :
  await (settled (pump wrappedKey fileKey fileIV (schedule inStream fault))) =
    Done tagBuf ->
  let run := encrypt_chunks (createCipheriv "aes-256-gcm" fileKey fileIV)
               (chunks inStream) in
  written (pump wrappedKey fileKey fileIV (schedule inStream fault)) =
    wrappedKey ++ fileIV ++ snd run
  /\ tagBuf = getAuthTag (fst run).
Proof.
  intros Hdone run. subst run.
  pose proof (pump_spec wrappedKey fileKey fileIV (schedule inStream fault)) as Hp.
  destruct (schedule_cases inStream fault)
    as [[Hl Hf]|(k & e & _ & _ & Hl & Hf)]; rewrite Hl, Hf in Hp.
  - destruct (encrypt_chunks _ (chunks inStream)) as [c ct].
    destruct Hp as [Hw Hs]. cbn [fst snd]. split; [exact Hw|].
    rewrite Hs in Hdone. unfold closing in Hdone.
    destruct (failure inStream); simpl in Hdone; congruence.
  - destruct (encrypt_chunks _ (take k (chunks inStream))) as [c ct].
    destruct Hp as [_ Hs]. rewrite Hs in Hdone. discriminate Hdone.
Qed.

(** The output directory after one pass of the loop. *)
Lemma encryptItem_output masterKey result i w ls l r :
  heap w !! result = Some (OArray ls) ->
  ls !! i = Some l ->
  heap w !! l = Some (ORecord r) ->
  let dist := Encoding.hex (draw (drawn w) 12) in
  output (fst (encryptItem config masterKey result i w)) =
    match process config r with
    | Done (r1, inStream) =>
        <[dist := encrypted_file masterKey (drawn w + 12) inStream dist]> (output w)
    | _ => <[dist := []]> (output w)
    end.
Proof.
  intros Hres Hi Hl dist.
  assert (Hne : l <> result) by (intros ->; congruence).
  remember (encryptItem config masterKey result i w) as run eqn:Hrun.
  unfold encryptItem in Hrun. fold dist in Hrun.
  set (w1 := with_drawn (drawn w + 12) w).
  rewrite (bind_done _ _ w w1 (draw (drawn w) 12)) in Hrun by reflexivity.
  fold dist in Hrun.
  set (w2 := with_output (<[dist := []]> (output w1)) w1).
  rewrite (bind_done _ _ w1 w2 dist) in Hrun by reflexivity.
  rewrite (bind_done _ _ w2 w2 l) in Hrun by (eapply array_get_run; eauto).
  unfold bind at 1 in Hrun.
  rewrite (Content_process_run config w2 l r) in Hrun by exact Hl.
  destruct (process config r) as [[r1 inStream]|e|].
  2: { subst run. reflexivity. }
  2: { subst run. reflexivity. }
  cbn [fst snd] in Hrun.
  set (w3 := with_heap (<[l := ORecord r1]> (heap w2)) w2) in Hrun.
  assert (Hres3 : heap w3 !! result = Some (OArray ls)).
  { simpl. rewrite lookup_insert_ne by exact Hne. exact Hres. }
  rewrite (bind_done _ _ w3 w3 tt) in Hrun by (eapply array_set_same; eauto).
  unfold bind at 1 in Hrun. rewrite encryptStream_run in Hrun.
  change (drawn w3) with (drawn w + 12) in Hrun.
  fold (encrypted_file masterKey (drawn w + 12) inStream dist) in Hrun.
  set (file := encrypted_file masterKey (drawn w + 12) inStream dist) in *.
  set (w4 := with_output _ _) in Hrun.
  assert (Hout4 : output w4 = <[dist := file]> (output w)).
  { subst w4. cbn [output with_output with_drawn with_heap w3 w2 w1].
    apply insert_insert_eq. }
  destruct (await _) as [tagBuf|e|].
  2: { subst run. exact Hout4. }
  2: { subst run. exact Hout4. }
  assert (Hres4 : heap w4 !! result = Some (OArray ls)) by exact Hres3.
  assert (Hl4 : heap w4 !! l = Some (ORecord r1)) by apply lookup_insert_eq.
  rewrite (bind_done _ _ w4 w4 l) in Hrun by (eapply array_get_run; eauto).
  set (r2 := ContentFile.set_dist dist r1) in *.
  set (w5 := with_heap (<[l := ORecord r2]> (heap w4)) w4).
  rewrite (bind_done _ _ w4 w5 tt) in Hrun by (eapply set_property_run; eauto).
  assert (Hres5 : heap w5 !! result = Some (OArray ls)).
  { simpl. rewrite !lookup_insert_ne by exact Hne. exact Hres. }
  assert (Hl5 : heap w5 !! l = Some (ORecord r2)) by apply lookup_insert_eq.
  rewrite (bind_done _ _ w5 w5 l) in Hrun by (eapply array_get_run; eauto).
  rewrite (set_property_run _ w5 l r2 Hl5) in Hrun.
  subst run. exact Hout4.
Qed.

(** The output directory after the loop from index [length done] on. *)
Lemma encrypt_loop_output masterKey result ls todo :
  forall done w,
    NoDup ls ->
    heap w !! result = Some (OArray ls) ->
    Forall2 (fun l r => heap w !! l = Some (ORecord r)) ls (done ++ todo) ->
    output (fst (for_each (seq (length done) (length todo))
                   (encryptItem config masterKey result) w)) =
      written_files config masterKey (drawn w) todo (output w).
Proof.
  induction todo as [|r rest IH]; intros done w Hnd Hres Hrec.
  - reflexivity.
  - assert (Hi : exists l, ls !! length done = Some l
                           /\ heap w !! l = Some (ORecord r)).
    { pose proof (Forall2_length _ _ _ Hrec) as Hlen.
      rewrite length_app in Hlen. simpl in Hlen.
      destruct (lookup_lt_is_Some_2 ls (length done)) as [l Hl]; [lia|].
      exists l. split; [exact Hl|].
      destruct (Forall2_lookup_l _ _ _ _ _ Hrec Hl) as (y & Hy & Hly).
      rewrite lookup_app_r in Hy by lia.
      rewrite Nat.sub_diag in Hy. injection Hy as <-. exact Hly. }
    destruct Hi as (l & Hi & Hl).
    destruct (encryptItem_spec config masterKey result (length done) w ls l r
                Hres Hi Hl) as [Hframe Hitem].
    pose proof (encryptItem_output masterKey result (length done) w ls l r
                  Hres Hi Hl) as Hout.
    cbn zeta in Hout.
    cbn [length seq for_each written_files].
    destruct (encryptItem config masterKey result (length done) w)
      as [w1 o] eqn:Hrun.
    cbn [fst snd] in Hframe, Hitem, Hout.
    destruct (encrypted_record config masterKey (drawn w) r) as [r'|e|] eqn:Hr.
    2: { subst o. rewrite (bind_thrown _ _ _ _ _ Hrun). cbn [fst].
         rewrite Hout. destruct (process config r) as [[r1 s]|e'|]; reflexivity. }
    2: { subst o. rewrite (bind_hang _ _ _ _ Hrun). cbn [fst].
         rewrite Hout. destruct (process config r) as [[r1 s]|e'|]; reflexivity. }
    destruct Hitem as (-> & Hl1 & Hd1).
    rewrite (bind_done _ _ _ _ _ Hrun).
    assert (Hres1 : heap w1 !! result = Some (OArray ls)).
    { rewrite Hframe; [exact Hres|]. intros ->. congruence. }
    assert (Hrec1 : Forall2 (fun l r => heap w1 !! l = Some (ORecord r))
                      ls ((done ++ [r']) ++ rest)).
    { rewrite <- app_assoc. cbn [app].
      replace (done ++ r' :: rest)
        with (<[length done := r']> (done ++ r :: rest)).
      - eapply records_update; eauto.
      - replace (length done) with (length done + 0) at 1 by lia.
        rewrite insert_app_r. reflexivity. }
    specialize (IH (done ++ [r']) w1 Hnd Hres1 Hrec1).
    rewrite length_app, Nat.add_comm in IH. cbn [length Nat.add] in IH.
    rewrite IH, Hd1, Hout.
    unfold encrypted_record in Hr.
    destruct (process config r) as [[r1 s]|e'|]; [reflexivity| |]; discriminate Hr.
Qed.

(** The output directory after [_encryptContent]. *)
Lemma encryptContent_output masterKey content w rs :
  content_at (heap w) content = Some rs ->
  output (fst (_encryptContent config masterKey content w)) =
    written_files config masterKey (drawn w) rs (output w).
Proof.
  intros Hc. unfold _encryptContent, JSON_clone.
  destruct (new_content_spec rs w)
    as (h & ls & a & Hnew & Hsub & Hfresh & Ha & Hls & Hnd & Hrec).
  set (w1 := with_heap h w) in *.
  rewrite (bind_done _ _ w w1 a).
  2: { rewrite (bind_done _ _ _ _ _ (read_content_run w content rs Hc)).
       rewrite to_content_of_content. exact Hnew. }
  rewrite (bind_done _ _ _ _ _ (get_items_run w1 a ls Ha)).
  pose proof (Forall2_length _ _ _ Hrec) as Hlen. rewrite Hlen.
  pose proof (encrypt_loop_output masterKey a ls rs [] w1 Hnd Ha Hrec) as Hout.
  cbn [length app] in Hout.
  unfold bind.
  destruct (for_each (seq 0 (length rs)) (encryptItem config masterKey a) w1)
    as [w2 [[]|e|]]; exact Hout.
Qed.

Lemma dist_name_zero pos : dist_name pos 0 = Encoding.hex (draw pos 12).
Proof. unfold dist_name. rewrite Nat.mul_0_r, Nat.add_0_r. reflexivity. Qed.

Lemma dist_name_succ pos i : dist_name (pos + 56) i = dist_name pos (S i).
Proof. unfold dist_name. do 2 f_equal. lia. Qed.

(** A name the loop does not draw names a file the loop does not touch. *)
Lemma written_files_other masterKey rs :
  forall pos out name,
    (forall i, i < length rs -> name <> dist_name pos i) ->
    written_files config masterKey pos rs out !! name = out !! name.
Proof.
  induction rs as [|r rest IH]; intros pos out name Hname; [reflexivity|].
  assert (Hhead : Encoding.hex (draw pos 12) <> name).
  { rewrite <- dist_name_zero. intros Heq. apply (Hname 0); [simpl; lia|].
    symmetry. exact Heq. }
  assert (Htail : forall i, i < length rest -> name <> dist_name (pos + 56) i).
  { intros i Hi. rewrite dist_name_succ. apply Hname. simpl. lia. }
  cbn [written_files].
  destruct (process config r) as [[r1 s]|e|].
  - destruct (encrypted_record config masterKey pos r).
    + rewrite (IH _ _ _ Htail). apply lookup_insert_ne. exact Hhead.
    + apply lookup_insert_ne. exact Hhead.
    + apply lookup_insert_ne. exact Hhead.
  - apply lookup_insert_ne. exact Hhead.
  - apply lookup_insert_ne. exact Hhead.
Qed.

Lemma written_files_app masterKey xs ys :
  forall pos out,
    written_files config masterKey pos (xs ++ ys) out =
      match encrypted_records config masterKey pos xs with
      | Done _ =>
          written_files config masterKey (pos + 56 * length xs) ys
            (written_files config masterKey pos xs out)
      | _ => written_files config masterKey pos xs out
      end.
Proof.
  induction xs as [|x xs IH]; intros pos out;
    cbn [app written_files encrypted_records length].
  - rewrite Nat.mul_0_r, Nat.add_0_r. reflexivity.
  - destruct (process config x) as [[r1 s]|e|] eqn:Hp.
    + destruct (encrypted_record config masterKey pos x) as [x'|e|]; try reflexivity.
      rewrite IH.
      replace (pos + 56 + 56 * length xs) with (pos + 56 * S (length xs)) by lia.
      destruct (encrypted_records config masterKey (pos + 56) xs); reflexivity.
    + unfold encrypted_record. rewrite Hp. reflexivity.
    + unfold encrypted_record. rewrite Hp. reflexivity.
Qed.

(** After a loop that went through, with names that do not repeat and
    output streams that do not fail, every record and its file fit
    together. *)
Lemma written_files_fit masterKey rs :
  forall pos out final,
    encrypted_records config masterKey pos rs = Done final ->
    (forall i, i < length rs -> outFault (dist_name pos i) = None) ->
    NoDup (map ContentFile.dist final) ->
    Forall2 (fits config masterKey (written_files config masterKey pos rs out))
      rs final.
Proof.
  induction rs as [|r rest IH]; intros pos out final Hrecs Hfault Hnd.
  - cbn [encrypted_records] in Hrecs. injection Hrecs as <-. constructor.
  - assert (Hhere : outFault (Encoding.hex (draw pos 12)) = None).
    { rewrite <- dist_name_zero. apply Hfault. simpl. lia. }
    assert (Hlater : forall i, i < length rest ->
                               outFault (dist_name (pos + 56) i) = None).
    { intros i Hi. rewrite dist_name_succ. apply Hfault. simpl. lia. }
    cbn [encrypted_records written_files] in *.
    destruct (encrypted_record config masterKey pos r) as [r'|e|] eqn:Hr;
      try discriminate Hrecs.
    destruct (encrypted_records config masterKey (pos + 56) rest) as [final'|e|]
      eqn:Hrest; try discriminate Hrecs.
    injection Hrecs as <-.
    destruct (encrypted_records_enriched config _ _ _ _ Hrest) as (_ & _ & Hdist).
    cbn [map] in Hnd. apply NoDup_cons in Hnd as [Hhead Hnd].
    unfold encrypted_record in Hr.
    destruct (process config r) as [[r1 s]|e|] eqn:Hp; try discriminate Hr.
    destruct (await _) as [tagBuf|e|] eqn:Hawait; try discriminate Hr.
    injection Hr as <-.
    destruct (pump_done _ _ _ _ _ _ Hawait) as [Hwritten Htag].
    set (d := Encoding.hex (draw pos 12)) in *.
    set (out1 := <[d := _]> out).
    constructor; [|apply IH; assumption].
    exists r1, s, d, (draw (pos + 12) 32), (draw (pos + 12 + 32) 12).
    split; [exact Hp|]. split; [apply draw_length|]. split; [apply draw_length|].
    cbn zeta. split; [rewrite Htag; reflexivity|].
    split; [exact Hhere|].
    rewrite written_files_other.
    + subst out1. rewrite lookup_insert_eq. unfold encrypted_file.
      rewrite Hwritten. reflexivity.
    + intros i Hi Heq. apply Hhead. cbn [ContentFile.set_tag ContentFile.set_dist ContentFile.dist].
      rewrite Hdist. apply list_elem_of_In, in_map_iff.
      exists i. split; [|apply in_seq; lia].
      rewrite Heq. reflexivity.
Qed.

(** X5. Records and files fit together. When no output stream of the
    stage fails, [_encryptContent] returns and the output names it drew do
    not repeat, every record of the returned list names a file of the
    output directory that holds the wrapped file key, the nonce and the
    ciphertext of that record's stream under that very key and nonce, and
    the record's tag is the base64 text of the authentication tag of that
    same encryption. *)
Theorem files_fit_records masterKey content w rs w' result :
  content_at (heap w) content = Some rs ->
  (forall i, i < length rs -> outFault (dist_name (drawn w) i) = None) ->
  _encryptContent config masterKey content w = (w', Done result) ->
  exists final,
    content_at (heap w') result = Some final
    /\ (NoDup (map ContentFile.dist final) ->
        Forall2 (fits config masterKey (output w')) rs final).
Proof.
  intros Hc Hfault Henc.
  destruct (encryptContent_done config _ _ _ _ _ _ Hc Henc)
    as (final & ls & Hrecs & Hfinal & _).
  exists final. split; [exact Hfinal|]. intros Hnd.
  pose proof (encryptContent_output masterKey content w rs Hc) as Hout.
  rewrite Henc in Hout. cbn [fst] in Hout. rewrite Hout.
  apply written_files_fit; assumption.
Qed.

(** X6. The encryption stage creates or overwrites only files with the
    names it drew: whatever the outcome, every other file of the output
    directory is as it was before. *)
Theorem encryptContent_touches_named_files masterKey content w rs name :
  content_at (heap w) content = Some rs ->
  (forall i, i < length rs -> name <> dist_name (drawn w) i) ->
  output (fst (_encryptContent config masterKey content w)) !! name =
    output w !! name.
Proof.
  intros Hc Hname.
  rewrite (encryptContent_output masterKey content w rs Hc).
  apply written_files_other. exact Hname.
Qed.

(** X7. A failed pre-processing leaves an empty file behind. The output
    file of a record is created before the record is pre-processed: when
    the records before index [i] went through and pre-processing of the
    record at [i] fails, [_encryptContent] throws that error and the file
    with the name drawn for that record is in the output directory,
    empty. *)
Theorem failed_processing_leaves_empty_file masterKey content w rs i r e :
  content_at (heap w) content = Some rs ->
  rs !! i = Some r ->
  (exists done,
     encrypted_records config masterKey (drawn w) (take i rs) = Done done) ->
  process config r = Thrown e ->
  let run := _encryptContent config masterKey content w in
  snd run = Thrown e
  /\ output (fst run) !! dist_name (drawn w) i = Some [].
Proof.
  intros Hc Hi [done Hdone] Hp run.
  assert (Hlen : length (take i rs) = i).
  { apply length_take_le, Nat.lt_le_incl. eapply lookup_lt_Some; eauto. }
  split.
  - destruct (encryptContent_spec config masterKey content w rs Hc) as [_ Hres].
    rewrite <- (take_drop_middle rs i r Hi) in Hres.
    rewrite encrypted_records_app, Hdone, Hlen in Hres.
    cbn [encrypted_records] in Hres. unfold encrypted_record in Hres.
    rewrite Hp in Hres. exact Hres.
  - subst run. rewrite (encryptContent_output masterKey content w rs Hc).
    rewrite <- (take_drop_middle rs i r Hi) at 1.
    rewrite written_files_app, Hdone, Hlen.
    cbn [written_files]. rewrite Hp. apply lookup_insert_eq.
Qed.

End Files.

(** ** The index file and the end of a build *)

Lemma keeps_ret {A} (a : A) : keeps_this (ret a).
Proof. intros w. reflexivity. Qed.

Lemma keeps_throw {A} e : keeps_this (@throw A e).
Proof. intros w. reflexivity. Qed.

Lemma keeps_lift {A} (o : outcome A) : keeps_this (lift o).
Proof. intros w. reflexivity. Qed.

Lemma keeps_bind {A B} (m : M A) (k : A -> M B) :
  keeps_this m -> (forall a, keeps_this (k a)) -> keeps_this (bind m k).
Proof.
  intros Hm Hk w. unfold bind. specialize (Hm w).
  destruct (m w) as [w1 [a|e|]]; cbn [fst] in *; [|exact Hm|exact Hm].
  rewrite (Hk a w1). exact Hm.
Qed.

Lemma keeps_for_each {A} (xs : list A) (body : A -> M unit) :
  (forall x, keeps_this (body x)) -> keeps_this (for_each xs body).
Proof.
  intros Hb. induction xs as [|x xs IH]; cbn [for_each].
  - apply keeps_ret.
  - apply keeps_bind; [apply Hb | intros _; exact IH].
Qed.

Lemma keeps_load l : keeps_this (load l).
Proof. intros w. unfold load. destruct (heap w !! l); reflexivity. Qed.

Lemma keeps_get_record l : keeps_this (get_record l).
Proof.
  apply keeps_bind; [apply keeps_load|].
  intros [r|ls]; [apply keeps_ret | apply keeps_throw].
Qed.

Lemma keeps_get_items a : keeps_this (get_items a).
Proof.
  apply keeps_bind; [apply keeps_load|].
  intros [r|ls]; [apply keeps_throw | apply keeps_ret].
Qed.

Lemma keeps_array_get a i : keeps_this (array_get a i).
Proof.
  apply keeps_bind; [apply keeps_get_items|].
  intros ls. destruct (ls !! i); [apply keeps_ret | apply keeps_throw].
Qed.

Lemma keeps_store l o : keeps_this (store l o).
Proof. intros w. reflexivity. Qed.

Lemma keeps_alloc o : keeps_this (alloc o).
Proof. intros w. reflexivity. Qed.

Lemma keeps_alloc_records rs : keeps_this (alloc_records rs).
Proof.
  induction rs as [|r rs IH]; cbn [alloc_records]; [apply keeps_ret|].
  apply keeps_bind; [apply keeps_alloc|]. intros l.
  apply keeps_bind; [exact IH|]. intros ls. apply keeps_ret.
Qed.

Lemma keeps_get_records ls : keeps_this (get_records ls).
Proof.
  induction ls as [|l ls IH]; cbn [get_records]; [apply keeps_ret|].
  apply keeps_bind; [apply keeps_get_record|]. intros r.
  apply keeps_bind; [exact IH|]. intros rs. apply keeps_ret.
Qed.

Lemma keeps_JSON_clone content : keeps_this (JSON_clone content).
Proof.
  apply keeps_bind.
  - apply keeps_bind; [apply keeps_get_items|]. intros ls. apply keeps_get_records.
  - intros rs. destruct (JSON.to_content _); [|apply keeps_throw].
    apply keeps_bind; [apply keeps_alloc_records|]. intros ls. apply keeps_alloc.
Qed.

Lemma length_utf8 s : length (Encoding.utf8 s) = String.length s.
Proof.
  unfold Encoding.utf8. induction s as [|c s IH]; [reflexivity|].
  cbn. f_equal. exact IH.
Qed.

Section Index.

Context {C : Crypto} {KW : KeyWrap} {CL : ContentLib} {H : Host}.
Variable passphrase : string.
Variable config : Config.

Lemma keeps_encryptStream masterKey inStream outStream :
  keeps_this (_encryptStream masterKey inStream outStream).
Proof. intros w. rewrite encryptStream_run. reflexivity. Qed.

Lemma keeps_encryptItem masterKey result i :
  keeps_this (encryptItem config masterKey result i).
Proof.
  unfold encryptItem.
  apply keeps_bind; [intros w; reflexivity|]. intros rnd.
  apply keeps_bind; [intros w; reflexivity|]. intros outStream.
  apply keeps_bind; [apply keeps_array_get|]. intros el.
  apply keeps_bind.
  { unfold Content_process.
    apply keeps_bind; [apply keeps_get_record|]. intros r.
    apply keeps_bind; [apply keeps_lift|]. intros x.
    apply keeps_bind; [apply keeps_store|]. intros _. apply keeps_ret. }
  intros content.
  apply keeps_bind.
  { apply keeps_bind; [apply keeps_get_items|]. intros ls. apply keeps_store. }
  intros _.
  apply keeps_bind; [apply keeps_encryptStream|]. intros tagBuf.
  apply keeps_bind; [apply keeps_array_get|]. intros el1.
  apply keeps_bind.
  { apply keeps_bind; [apply keeps_get_record|]. intros r. apply keeps_store. }
  intros _.
  apply keeps_bind; [apply keeps_array_get|]. intros el2.
  apply keeps_bind; [apply keeps_get_record|]. intros r. apply keeps_store.
Qed.

(** The encryption stage does not assign any field of the builder. *)
Lemma keeps_encryptContent masterKey content :
  keeps_this (_encryptContent config masterKey content).
Proof.
  unfold _encryptContent.
  apply keeps_bind; [apply keeps_JSON_clone|]. intros result.
  apply keeps_bind; [apply keeps_get_items|]. intros items.
  apply keeps_bind; [|intros _; apply keeps_ret].
  apply keeps_for_each. intros i. apply keeps_encryptItem.
Qed.

(** The index builder with its binds computed away. *)
Lemma createIndex_run masterKey content w rs :
  content_at (heap w) content = Some rs ->
  let fileKey := draw (drawn w) 32 in
  let fileIV := draw (drawn w + 32) 12 in
  let p := pump (kw_encrypt masterKey fileKey) fileKey fileIV
             (schedule (index_stream rs) (outFault "_index")) in
  _createIndex masterKey content w =
    (with_output (<["_index" := written p]> (output w))
       (with_drawn (drawn w + 32 + 12) w),
     await (settled p)).
Proof.
  intros Hc fileKey fileIV p.
  destruct (createIndex_spec masterKey content w rs Hc) as (Hdata & _).
  unfold _createIndex.
  rewrite (bind_done _ _ _ _ _ Hdata).
  rewrite (bind_done _ _ _ _ _ eq_refl).
  rewrite encryptStream_run.
  cbn [drawn with_output output heap this with_drawn].
  fold fileKey fileIV. fold (index_stream rs). fold p.
  f_equal. unfold with_output, with_drawn. cbn. f_equal.
  apply insert_insert_eq.
Qed.

(** An input that ends and an output that does not fail: nothing fails
    during the encryption. *)
Lemma failure_during_none inStream :
  failure inStream = None -> failure_during (schedule inStream None) = None.
Proof.
  intros Hf. unfold failure_during.
  destruct (schedule_none inStream) as [_ ->]. unfold closing. rewrite Hf.
  reflexivity.
Qed.

(** X8. The index file. [_createIndex] opens the file [_index] and no
    other: every other file of the output directory, the encrypted content
    among it, is as it was, and no object changes. When the output stream
    of the index does not fail, the call returns the authentication tag of
    the encryption of the serialized list, and [_index] holds the wrapped
    file key, the nonce and the ciphertext of that text, as many bytes as
    the JSON text has. *)
Theorem index_file {L : CryptoLengths C} masterKey content w rs :
  content_at (heap w) content = Some rs ->
  let run := _createIndex masterKey content w in
  let fileKey := draw (drawn w) 32 in
  let fileIV := draw (drawn w + 32) 12 in
  let enc := encrypt_chunks (createCipheriv "aes-256-gcm" fileKey fileIV)
               [Encoding.utf8 (JSON.stringify rs)] in
  (forall name, name <> "_index" -> output (fst run) !! name = output w !! name)
  /\ heap (fst run) = heap w
  /\ (outFault "_index" = None ->
      snd run = Done (getAuthTag (fst enc))
      /\ file_holds (output (fst run)) "_index"
           (kw_encrypt masterKey fileKey ++ fileIV ++ snd enc)
      /\ length (snd enc) = String.length (JSON.stringify rs)).
Proof.
  intros Hc run fileKey fileIV enc.
  assert (Hrun : run = _createIndex masterKey content w) by reflexivity.
  rewrite (createIndex_run masterKey content w rs Hc) in Hrun.
  fold fileKey fileIV in Hrun. rewrite Hrun. cbn [fst snd output with_output heap with_drawn].
  split; [|split; [reflexivity|]].
  - intros name Hname. apply lookup_insert_ne. congruence.
  - intros Hfault. rewrite Hfault.
    assert (Htag : await (settled (pump (kw_encrypt masterKey fileKey) fileKey fileIV
                                     (schedule (index_stream rs) None))) =
                   Done (getAuthTag (fst enc))).
    { rewrite pump_outcome, failure_during_none by reflexivity. reflexivity. }
    destruct (pump_done _ _ _ _ _ _ Htag) as [Hwritten _].
    cbn [index_stream chunks] in Hwritten. fold enc in Hwritten.
    split; [exact Htag|]. split.
    + split; [exact Hfault|]. rewrite lookup_insert_eq, Hwritten. reflexivity.
    + subst enc. rewrite encrypt_chunks_length. cbn [concat].
      rewrite app_nil_r. apply length_utf8.
Qed.

End Index.

(** ** The whole build: what it reports and where it stops *)

Section Reports.

Context {C : Crypto} {KW : KeyWrap} {CL : ContentLib} {H : Host}.
Variable passphrase : string.
Variable config : Config.

(** The builder's fields after steps 1 to 4. *)
Lemma prepare_this w w1 content masterKey :
  prepare passphrase config w = (w1, Done (content, masterKey)) ->
  this w1 = {| keySalt := VBuffer (draw (drawn w) 64);
               indexTag := indexTag (this w);
               hasErrors := hasErrors (this w) |}
  /\ output w1 = ∅.
Proof.
  intros Hprep.
  destruct (prepare_cases passphrase config w)
    as [(e & _ & Hrun)|[(_ & e & _ & Hrun)|(_ & h & ls & a & _ & _ & _ & _ & _ & _ & _ & Hrun)]];
    rewrite Hrun in Hprep; try discriminate Hprep.
  injection Hprep as <- _. split; reflexivity.
Qed.

(** X9. What a build reports. When steps 1 to 6 succeed, webpack is handed
    the salt drawn in step 3 and the tag of the index as buffers, next to
    the configured values, and both are left in [keySalt] and [indexTag].
    Compilation errors do not fail the build: it returns normally and only
    [hasErrors] is raised; warnings change nothing. Only a webpack call
    that throws makes the build throw. *)
Theorem build_reports w w1 content masterKey w2 result w3 tag :
  prepare passphrase config w = (w1, Done (content, masterKey)) ->
  _encryptContent config masterKey content w1 = (w2, Done result) ->
  _createIndex masterKey result w2 = (w3, Done tag) ->
  let run := build passphrase config w in
  keySalt (this (fst run)) = VBuffer (draw (drawn w) 64)
  /\ indexTag (this (fst run)) = VBuffer tag
  /\ output (fst run) = output w3
  /\ match webpack (build_params config (draw (drawn w) 64) tag) with
     | Done stats =>
         snd run = Done tt
         /\ hasErrors (this (fst run)) =
              match errors stats with
              | [] => hasErrors (this w)
              | _ :: _ => true
              end
     | Thrown e => snd run = Thrown e /\ hasErrors (this (fst run)) = hasErrors (this w)
     | Hang => snd run = Hang /\ hasErrors (this (fst run)) = hasErrors (this w)
     end.
Proof.
  intros Hprep Henc Hidx run.
  destruct (prepare_this _ _ _ _ Hprep) as [Hthis1 _].
  destruct (prepare_done passphrase config _ _ _ _ Hprep) as (_ & Hc & _ & _).
  destruct (encryptContent_done config _ _ _ _ _ _ Hc Henc)
    as (final & ls & _ & Hfinal & _).
  pose proof (keeps_encryptContent config masterKey content w1) as Hthis2.
  rewrite Henc in Hthis2. cbn [fst] in Hthis2.
  destruct (createIndex_spec masterKey result w2 final Hfinal) as (_ & _ & Hthis3 & _).
  rewrite Hidx in Hthis3. cbn [fst] in Hthis3.
  rewrite Hthis2, Hthis1 in Hthis3.
  assert (Hrun : run = build passphrase config w) by reflexivity.
  rewrite (build_after_prepare passphrase config _ _ _ _ Hprep) in Hrun.
  unfold finish in Hrun.
  rewrite (bind_done _ _ _ _ _ Henc), (bind_done _ _ _ _ _ Hidx) in Hrun.
  rewrite (bind_done _ _ _ _ _ eq_refl) in Hrun.
  unfold bundle, bind, appParams in Hrun.
  destruct w3 as [h3 o3 d3 t3]. cbn [this] in Hthis3. subst t3.
  cbn [this with_this indexTag keySalt hasErrors] in Hrun.
  fold (build_params config (draw (drawn w) 64) tag) in Hrun.
  destruct (webpack (build_params config (draw (drawn w) 64) tag)) as [stats|e|].
  - destruct (errors stats); rewrite Hrun; cbn [fst snd this with_this keySalt indexTag hasErrors output]; auto.
  - rewrite Hrun; cbn [fst snd this with_this keySalt indexTag hasErrors output]; auto.
  - rewrite Hrun; cbn [fst snd this with_this keySalt indexTag hasErrors output]; auto.
Qed.

(** X10. A build stops at a failed scan. When the content directory cannot
    be scanned the build fails with the scanner's error; by then the output
    directory has been emptied, and nothing else has happened: no random
    byte is drawn, no field of the builder is set, no object is made and
    nothing is written. *)
Theorem build_stops_at_failed_scan w e :
  cleanFault = None ->
  scanFolder "" contentRoot [] = Thrown e ->
  build passphrase config w = (with_output ∅ w, Thrown e).
Proof.
  intros Hclean Hscan.
  rewrite build_stages.
  destruct (prepare_cases passphrase config w)
    as [(e' & Hc & _)|[(_ & e' & Hs & Hrun)|(_ & _ & _ & _ & Hs & _)]].
  - congruence.
  - rewrite Hs in Hscan. injection Hscan as ->.
    apply bind_thrown. exact Hrun.
  - congruence.
Qed.


End Reports.

(** ** The output directory as a whole *)

Section Output.

Context {C : Crypto} {KW : KeyWrap} {CL : ContentLib} {H : Host}.
Variable passphrase : string.
Variable config : Config.

(** When the loop goes through, the files it leaves are the ones that were
    there and one for each record. *)
Lemma written_files_names masterKey rs :
  forall pos out final,
    encrypted_records config masterKey pos rs = Done final ->
    forall name,
      is_Some (written_files config masterKey pos rs out !! name) <->
      is_Some (out !! name) \/ exists i, i < length rs /\ name = dist_name pos i.
Proof.
  induction rs as [|r rest IH]; intros pos out final Hrecs name.
  - cbn [written_files length]. split; [auto|].
    intros [Hs|(i & Hi & _)]; [exact Hs | lia].
  - cbn [encrypted_records written_files length] in *.
    destruct (encrypted_record config masterKey pos r) as [r'|e|] eqn:Hr;
      try discriminate Hrecs.
    destruct (encrypted_records config masterKey (pos + 56) rest) as [final'|e|]
      eqn:Hrest; try discriminate Hrecs.
    assert (Hp : exists r1 s, process config r = Done (r1, s)).
    { unfold encrypted_record in Hr.
      destruct (process config r) as [[r1 s]|e|]; try discriminate Hr. eauto. }
    destruct Hp as (r1 & s & Hp). rewrite Hp.
    rewrite (IH _ _ _ Hrest), lookup_insert_is_Some, <- dist_name_zero.
    split.
    + intros [[Hn|[_ Hs]]|(i & Hi & Hn)].
      * right. exists 0. split; [lia | auto].
      * left. exact Hs.
      * right. exists (S i). split; [lia|]. rewrite <- dist_name_succ. exact Hn.
    + intros [Hs|(i & Hi & Hn)].
      * destruct (decide (dist_name pos 0 = name)); auto.
      * destruct i as [|i].
        -- left. left. auto.
        -- right. exists i. split; [lia|]. rewrite dist_name_succ. exact Hn.
Qed.

Lemma bundle_output w : output (fst (bundle config w)) = output w.
Proof.
  unfold bundle, bind.
  destruct (webpack (appParams config w)) as [stats|e|]; cbn [fst]; auto.
  destruct (errors stats); reflexivity.
Qed.

(** The output directory at the end of steps 6 and 7 is the one the index
    builder leaves. *)
Lemma finish_output masterKey result w2 rs :
  content_at (heap w2) result = Some rs ->
  output (fst ((tag <- _createIndex masterKey result ;;
                set_indexTag (VBuffer tag) ;;
                bundle config) w2)) =
    output (fst (_createIndex masterKey result w2)).
Proof.
  intros Hc. unfold bind at 1.
  destruct (_createIndex masterKey result w2) as [w3 [tag|e|]]; try reflexivity.
  unfold bind. cbn [set_indexTag fst snd].
  rewrite bundle_output. reflexivity.
Qed.

(** X12. The files of a build. When steps 1 to 5 succeed, the output
    directory holds at the end of the build, before what webpack adds, the
    file [_index] and one file for each scanned record under the name drawn
    for it, and no other file: nothing of an earlier build is left. The
    index file is there even when writing it failed. *)
Theorem build_output_files w w1 content masterKey w2 result :
  prepare passphrase config w = (w1, Done (content, masterKey)) ->
  _encryptContent config masterKey content w1 = (w2, Done result) ->
  forall name,
    is_Some (output (fst (build passphrase config w)) !! name) <->
    name = "_index"
    \/ exists i, i < length (walk "" contentRoot)
                 /\ name = dist_name (drawn w + 64) i.
Proof.
  intros Hprep Henc name.
  destruct (prepare_this passphrase config _ _ _ _ Hprep) as [_ Hout1].
  destruct (prepare_done passphrase config _ _ _ _ Hprep) as (_ & Hc & _ & Hd1).
  destruct (encryptContent_done config _ _ _ _ _ _ Hc Henc)
    as (final & ls & Hrecs & Hfinal & _).
  pose proof (encryptContent_output config masterKey content w1 _ Hc) as Hout2.
  rewrite Henc, Hout1, Hd1 in Hout2. cbn [fst] in Hout2.
  rewrite (build_after_prepare passphrase config _ _ _ _ Hprep).
  unfold finish. rewrite (bind_done _ _ _ _ _ Henc).
  rewrite (finish_output masterKey result w2 final Hfinal).
  rewrite (createIndex_run masterKey result w2 final Hfinal).
  cbn [fst output with_output].
  rewrite lookup_insert_is_Some, Hout2.
  rewrite Hd1 in Hrecs.
  rewrite (written_files_names masterKey _ _ ∅ _ Hrecs name).
  rewrite lookup_empty. split.
  - intros [Hn|[_ [Hs|Hn]]]; [left; auto | destruct Hs as [x Hx]; discriminate Hx | right; exact Hn].
  - intros [Hn|Hn].
    + left. auto.
    + destruct (decide ("_index" = name)); auto.
Qed.

(** X13. The encryption stage stops at the first failure. When the
    records before index [i] went through and the record at [i] fails, in
    its pre-processing or in its stream, [_encryptContent] throws that
    error, and only files named for the records up to [i] can have been
    written: no file is created for a later record, and what was written
    for the earlier ones is not removed. *)
Theorem encryption_stops_at_first_failure masterKey content w rs i r e :
  content_at (heap w) content = Some rs ->
  rs !! i = Some r ->
  (exists done,
     encrypted_records config masterKey (drawn w) (take i rs) = Done done) ->
  encrypted_record config masterKey (drawn w + 56 * i) r = Thrown e ->
  let run := _encryptContent config masterKey content w in
  snd run = Thrown e
  /\ (forall name,
        (forall k, k <= i -> name <> dist_name (drawn w) k) ->
        output (fst run) !! name = output w !! name)
  /\ (forall k, k < i ->
        dist_name (drawn w) i <> dist_name (drawn w) k ->
        output (fst run) !! dist_name (drawn w) k =
          written_files config masterKey (drawn w) (take i rs) (output w)
            !! dist_name (drawn w) k).
Proof.
  intros Hc Hi [done Hdone] Hr run.
  assert (Hlen : length (take i rs) = i).
  { apply length_take_le, Nat.lt_le_incl. eapply lookup_lt_Some; eauto. }
  assert (Hout : exists data,
            output (fst run) =
              <[dist_name (drawn w) i := data]>
                (written_files config masterKey (drawn w) (take i rs) (output w))).
  { assert (Hw : written_files config masterKey (drawn w) rs (output w) =
                 written_files config masterKey (drawn w + 56 * i)
                   (r :: drop (S i) rs)
                   (written_files config masterKey (drawn w) (take i rs) (output w))).
    { rewrite <- (take_drop_middle rs i r Hi) at 1.
      rewrite written_files_app, Hdone, Hlen. reflexivity. }
    subst run. rewrite (encryptContent_output config masterKey content w rs Hc), Hw.
    cbn [written_files]. rewrite Hr.
    unfold dist_name.
    destruct (process config r) as [[r1 s]|e'|]; eauto. }
  destruct Hout as [data Hout].
  split; [|split].
  - destruct (encryptContent_spec config masterKey content w rs Hc) as [_ Hres].
    rewrite <- (take_drop_middle rs i r Hi) in Hres.
    rewrite encrypted_records_app, Hdone, Hlen in Hres.
    cbn [encrypted_records] in Hres. rewrite Hr in Hres. exact Hres.
  - intros name Hname. rewrite Hout.
    rewrite lookup_insert_ne.
    2: { intros Heq. apply (Hname i); [lia | auto]. }
    apply written_files_other. rewrite Hlen.
    intros k Hk. apply Hname. lia.
  - intros k Hk Hne. rewrite Hout. apply lookup_insert_ne. exact Hne.
Qed.

End Output.

(** ** More runs *)

Section FileRuns.

#[local] Existing Instances Sample.crypto Sample.keywrap Sample.contentlib Sample.host.

Lemma files_fit_records_witness :
  let cfg := Sample.config "pbkdf2" in
  let masterKey := repeat x2a%byte 32 in
  let w1 := fst (prepare "pw" cfg (new_Builder ∅)) in
  let w2 := fst (_encryptContent cfg masterKey 3%positive w1) in
  let scanned := [ContentFile.scanned "a.txt" 5; ContentFile.scanned "sub/b.txt" 3] in
  content_at (heap w1) 3%positive = Some scanned
  /\ _encryptContent cfg masterKey 3%positive w1 = (w2, Done 6%positive)
  /\ exists final,
       content_at (heap w2) 6%positive = Some final
       /\ Forall2 (fits cfg masterKey (output w2)) scanned final.
Proof.
  intros cfg masterKey w1 w2 scanned.
  assert (Hc : content_at (heap w1) 3%positive = Some scanned)
    by (vm_compute; reflexivity).
  assert (Henc : _encryptContent cfg masterKey 3%positive w1 = (w2, Done 6%positive))
    by (vm_compute; reflexivity).
  assert (Hfault : forall i, i < length scanned ->
                             outFault (dist_name (drawn w1) i) = None)
    by (intros i _; reflexivity).
  split; [exact Hc|]. split; [exact Henc|].
  destruct (files_fit_records cfg masterKey 3%positive w1 scanned w2 6%positive Hc
              Hfault Henc)
    as (final & Hfinal & Hfit).
  exists final. split; [exact Hfinal|]. apply Hfit.
  assert (Hnd : forall l, content_at (heap w2) 6%positive = Some l ->
                          NoDup (map ContentFile.dist l)).
  { intros l. vm_compute. intros Heq. injection Heq as <-.
    match goal with |- ?G => apply (@bool_decide_unpack G _) end.
    vm_compute. exact I. }
  exact (Hnd final Hfinal).
Defined.

Lemma encryptContent_touches_named_files_witness :
  let cfg := Sample.config "pbkdf2" in
  let masterKey := repeat x2a%byte 32 in
  let w1 := with_output Sample.stale (fst (prepare "pw" cfg (new_Builder ∅))) in
  let scanned := [ContentFile.scanned "a.txt" 5; ContentFile.scanned "sub/b.txt" 3] in
  content_at (heap w1) 3%positive = Some scanned
  /\ output (fst (_encryptContent cfg masterKey 3%positive w1)) !! "old" =
       Some [x01%byte].
Proof.
  intros cfg masterKey w1 scanned.
  assert (Hc : content_at (heap w1) 3%positive = Some scanned)
    by (vm_compute; reflexivity).
  split; [exact Hc|].
  rewrite (encryptContent_touches_named_files cfg masterKey 3%positive w1 scanned "old" Hc).
  - reflexivity.
  - intros i Hi Heq.
    destruct i as [|[|i]]; [vm_compute in Heq; discriminate Heq
                           |vm_compute in Heq; discriminate Heq
                           |simpl in Hi; lia].
Defined.

Lemma index_file_witness :
  let masterKey := repeat x2a%byte 32 in
  let w1 := with_output Sample.stale
              (fst (prepare "pw" (Sample.config "pbkdf2") (new_Builder ∅))) in
  let scanned := [ContentFile.scanned "a.txt" 5; ContentFile.scanned "sub/b.txt" 3] in
  let run := _createIndex masterKey 3%positive w1 in
  content_at (heap w1) 3%positive = Some scanned
  /\ outFault "_index" = None
  /\ output (fst run) !! "old" = Some [x01%byte]
  /\ heap (fst run) = heap w1
  /\ (exists tag data,
        snd run = Done tag
        /\ file_holds (output (fst run)) "_index" data
        /\ length data = 52 + String.length (JSON.stringify scanned)).
Proof.
  intros masterKey w1 scanned run.
  assert (Hc : content_at (heap w1) 3%positive = Some scanned)
    by (vm_compute; reflexivity).
  assert (Hfault : outFault "_index" = None) by reflexivity.
  split; [exact Hc|]. split; [exact Hfault|].
  destruct (index_file (L := sample_lengths) masterKey 3%positive w1 scanned Hc)
    as (Hother & Hheap & Hindex).
  destruct (Hindex Hfault) as (Htag & Hholds & Hlen).
  fold run in Hother, Htag, Hholds.
  split; [rewrite (Hother "old") by discriminate; reflexivity|].
  split; [exact Hheap|].
  eexists _, _. split; [exact Htag|]. split; [exact Hholds|].
  rewrite !length_app, Hlen. reflexivity.
Defined.

Lemma build_output_files_witness :
  let cfg := Sample.config "pbkdf2" in
  let masterKey := repeat x2a%byte 32 in
  let w1 := fst (prepare "pw" cfg (new_Builder Sample.stale)) in
  let w2 := fst (_encryptContent cfg masterKey 3%positive w1) in
  let run := build "pw" cfg (new_Builder Sample.stale) in
  prepare "pw" cfg (new_Builder Sample.stale) = (w1, Done (3%positive, masterKey))
  /\ _encryptContent cfg masterKey 3%positive w1 = (w2, Done 6%positive)
  /\ is_Some (output (fst run) !! "_index")
  /\ output (fst run) !! "old" = None.
Proof.
  intros cfg masterKey w1 w2 run.
  assert (Hprep : prepare "pw" cfg (new_Builder Sample.stale) =
                  (w1, Done (3%positive, masterKey))) by (vm_compute; reflexivity).
  assert (Henc : _encryptContent cfg masterKey 3%positive w1 = (w2, Done 6%positive))
    by (vm_compute; reflexivity).
  split; [exact Hprep|]. split; [exact Henc|].
  pose proof (build_output_files "pw" cfg _ _ _ _ _ _ Hprep Henc) as Hfiles.
  fold run in Hfiles. split.
  - apply Hfiles. left. reflexivity.
  - apply eq_None_not_Some. intros Hs. apply Hfiles in Hs.
    destruct Hs as [Hn|(i & Hi & Hn)]; [discriminate Hn|].
    change (i < 2) in Hi.
    destruct i as [|[|i]]; [vm_compute in Hn; discriminate Hn
                           |vm_compute in Hn; discriminate Hn
                           |lia].
Defined.

End FileRuns.

Section DiskRuns.

#[local] Existing Instances Sample.crypto Sample.keywrap Sample.contentlib Trial.full_disk.

Lemma encryption_stops_at_first_failure_witness :
  let cfg := Sample.config "pbkdf2" in
  let masterKey := repeat x2a%byte 32 in
  let e := "ENOSPC: no space left on device" in
  let w1 := fst (prepare "pw" cfg (new_Builder ∅)) in
  let scanned := [ContentFile.scanned "a.txt" 5; ContentFile.scanned "sub/b.txt" 3] in
  let run := _encryptContent cfg masterKey 3%positive w1 in
  content_at (heap w1) 3%positive = Some scanned
  /\ encrypted_record cfg masterKey (drawn w1 + 56 * 0) (ContentFile.scanned "a.txt" 5) =
       Thrown e
  /\ snd run = Thrown e
  /\ output (fst run) !! dist_name (drawn w1) 1 = None.
Proof.
  intros cfg masterKey e w1 scanned run.
  assert (Hc : content_at (heap w1) 3%positive = Some scanned)
    by (vm_compute; reflexivity).
  assert (Hr : encrypted_record cfg masterKey (drawn w1 + 56 * 0)
                 (ContentFile.scanned "a.txt" 5) = Thrown e)
    by (vm_compute; reflexivity).
  split; [exact Hc|]. split; [exact Hr|].
  destruct (encryption_stops_at_first_failure cfg masterKey 3%positive w1 scanned 0
              (ContentFile.scanned "a.txt" 5) e Hc eq_refl
              (ex_intro _ [] eq_refl) Hr) as (Hthrown & Hother & _).
  split; [exact Hthrown|].
  fold run in Hother. rewrite Hother.
  - vm_compute. reflexivity.
  - intros k Hk Heq. assert (k = 0) as -> by lia.
    vm_compute in Heq. discriminate Heq.
Defined.

End DiskRuns.

Section FailingRuns.

#[local] Existing Instances Sample.crypto Sample.keywrap Trial.failing_lib Sample.host.

Lemma failed_processing_leaves_empty_file_witness :
  let cfg := Sample.config "pbkdf2" in
  let masterKey := repeat x2a%byte 32 in
  let w1 := fst (prepare "pw" cfg (new_Builder ∅)) in
  let scanned := [ContentFile.scanned "a.txt" 5; ContentFile.scanned "sub/b.txt" 3] in
  let run := _encryptContent cfg masterKey 3%positive w1 in
  content_at (heap w1) 3%positive = Some scanned
  /\ process cfg (ContentFile.scanned "sub/b.txt" 3) = Thrown "EACCES: permission denied"
  /\ snd run = Thrown "EACCES: permission denied"
  /\ output (fst run) !! dist_name (drawn w1) 1 = Some [].
Proof.
  intros cfg masterKey w1 scanned run.
  assert (Hc : content_at (heap w1) 3%positive = Some scanned)
    by (vm_compute; reflexivity).
  assert (Hp : process cfg (ContentFile.scanned "sub/b.txt" 3) =
               Thrown "EACCES: permission denied") by reflexivity.
  split; [exact Hc|]. split; [exact Hp|].
  apply (failed_processing_leaves_empty_file cfg masterKey 3%positive w1 scanned 1
           (ContentFile.scanned "sub/b.txt" 3) "EACCES: permission denied" Hc eq_refl).
  - eexists. vm_compute. reflexivity.
  - exact Hp.
Defined.

End FailingRuns.

Section WebpackRuns.

#[local] Existing Instances Sample.crypto Sample.keywrap Sample.contentlib Trial.failing_webpack.

Lemma build_reports_witness :
  let cfg := Sample.config "pbkdf2" in
  let masterKey := repeat x2a%byte 32 in
  let tag := repeat (Sample.byte_of_nat 229) 16 in
  let w1 := fst (prepare "pw" cfg (new_Builder ∅)) in
  let w2 := fst (_encryptContent cfg masterKey 3%positive w1) in
  let w3 := fst (_createIndex masterKey 6%positive w2) in
  let run := build "pw" cfg (new_Builder ∅) in
  prepare "pw" cfg (new_Builder ∅) = (w1, Done (3%positive, masterKey))
  /\ _encryptContent cfg masterKey 3%positive w1 = (w2, Done 6%positive)
  /\ _createIndex masterKey 6%positive w2 = (w3, Done tag)
  /\ snd run = Done tt
  /\ hasErrors (this (fst run)) = true
  /\ indexTag (this (fst run)) = VBuffer tag.
Proof.
  intros cfg masterKey tag w1 w2 w3 run.
  assert (Hprep : prepare "pw" cfg (new_Builder ∅) = (w1, Done (3%positive, masterKey)))
    by (vm_compute; reflexivity).
  assert (Henc : _encryptContent cfg masterKey 3%positive w1 = (w2, Done 6%positive))
    by (vm_compute; reflexivity).
  assert (Hidx : _createIndex masterKey 6%positive w2 = (w3, Done tag))
    by (vm_compute; reflexivity).
  split; [exact Hprep|]. split; [exact Henc|]. split; [exact Hidx|].
  destruct (build_reports "pw" cfg _ _ _ _ _ _ _ _ Hprep Henc Hidx)
    as (_ & Htag & _ & Hweb).
  change (snd run = Done tt /\ hasErrors (this (fst run)) = true) in Hweb.
  destruct Hweb as [Hdone Herr].
  split; [exact Hdone|]. split; [exact Herr | exact Htag].
Defined.

End WebpackRuns.

Section LockedRuns.

#[local] Existing Instances Sample.crypto Sample.keywrap Sample.contentlib Trial.locked_host.

Lemma build_stops_at_failed_scan_witness :
  scanFolder "" contentRoot [] = Thrown "EACCES: permission denied"
  /\ build "pw" (Sample.config "pbkdf2") (new_Builder Sample.stale) =
       (new_Builder ∅, Thrown "EACCES: permission denied").
Proof.
  assert (Hscan : scanFolder "" contentRoot [] = Thrown "EACCES: permission denied")
    by reflexivity.
  split; [exact Hscan|].
  exact (build_stops_at_failed_scan "pw" (Sample.config "pbkdf2")
           (new_Builder Sample.stale) _ eq_refl Hscan).
Defined.

End LockedRuns.

Section BareRuns.

#[local] Existing Instances Sample.crypto Sample.keywrap Sample.contentlib Trial.bare_host.


End BareRuns.
